(** * ffi_founder_copilot: chunking, content identifiers, session memory, retrieval

    A shallow embedding of the retrieval and session-memory core of the
    repository (backend/build_index.py, backend/session_store.py,
    backend/main.py) together with the properties its specification states.

    Data model.  A Python [str] is a sequence of code points; the embedding
    covers the code points 0..255, one [ascii] each, and on that range
    [str.lower], [str.strip], [str.split], the [in] operator and the UTF-8
    encoder are transcribed exactly; what the encoder does with the other
    code points, surrogates included, is in module [Unicode].  Python
    integers are [Z].  The SQLite tables are lists of rows in rowid order,
    SQLite INTEGER values are [Z]; a bound parameter has 64 bits. *)

From Stdlib Require Import Ascii String.
From Stdlib Require Import List ZArith Lia Bool Arith.
From Stdlib Require Import DecimalString Sorted.
From Stdlib Require DecimalZ DecimalPos.
Import ListNotations.

Open Scope Z_scope.

(* ------------------------------------------------------------------------- *)
(** ** Python string primitives *)
(* ------------------------------------------------------------------------- *)

Module Py.

Definition str := list ascii.

(** String literals of the source. *)
Definition lit (s : string) : str := list_ascii_of_string s.

Definition code (c : ascii) : Z := Z.of_N (N_of_ascii c).

Definition chr (z : Z) : ascii := ascii_of_N (Z.to_N z).

Definition nl : str := [chr 10].

(** [len(s)] *)
Definition len {A} (l : list A) : Z := Z.of_nat (length l).

(** Truthiness of a string or list: non-empty. *)
Definition truthy {A} (l : list A) : bool :=
  match l with [] => false | _ => true end.

(** [c.isspace()] on code points below 256: TAB..CR, FS..US, SPACE, NEL,
    NBSP. *)
Definition isspace (c : ascii) : bool :=
  let n := code c in
  ((9 <=? n) && (n <=? 13)) || ((28 <=? n) && (n <=? 32))
  || (n =? 133) || (n =? 160).

Fixpoint lstrip (s : str) : str :=
  match s with
  | [] => []
  | c :: t => if isspace c then lstrip t else s
  end.

Definition rstrip (s : str) : str := rev (lstrip (rev s)).

(** [s.strip()] *)
Definition strip (s : str) : str := rstrip (lstrip s).

(** [c.lower()] on code points below 256: A..Z and the Latin-1 capitals
    (0xC0..0xDE without the multiplication sign 0xD7) move up by 32. *)
Definition lower_char (c : ascii) : ascii :=
  let n := code c in
  if ((65 <=? n) && (n <=? 90))
     || ((192 <=? n) && (n <=? 222) && negb (n =? 215))
  then chr (n + 32) else c.

Definition lower (s : str) : str := map lower_char s.

(** [s.split("\n")]: always at least one field. *)
Fixpoint split_nl (s : str) : list str :=
  match s with
  | [] => [[]]
  | c :: t =>
      if code c =? 10 then [] :: split_nl t
      else match split_nl t with
           | h :: r => (c :: h) :: r
           | [] => [[c]]
           end
  end.

(** [sep.join(parts)] *)
Fixpoint join (sep : str) (parts : list str) : str :=
  match parts with
  | [] => []
  | [p] => p
  | p :: rest => p ++ sep ++ join sep rest
  end.

Fixpoint startswith (p s : str) : bool :=
  match p, s with
  | [], _ => true
  | _ :: _, [] => false
  | a :: p', b :: s' => Ascii.eqb a b && startswith p' s'
  end.

(** [needle in hay] *)
Fixpoint contains (needle hay : str) : bool :=
  startswith needle hay
  || match hay with
     | [] => false
     | _ :: t => contains needle t
     end.

(** Slice bounds: a negative index counts from the end, then it is clamped
    to [0, len]. *)
Definition clamp_index (n : nat) (i : Z) : nat :=
  let j := if i <? 0 then i + Z.of_nat n else i in
  Z.to_nat (Z.min (Z.max j 0) (Z.of_nat n)).

(** [l[i:]] *)
Definition slice_from {A} (l : list A) (i : Z) : list A :=
  skipn (clamp_index (length l) i) l.

(** [l[:i]] *)
Definition slice_to {A} (l : list A) (i : Z) : list A :=
  firstn (clamp_index (length l) i) l.

(** [enumerate(l)] *)
Definition enumerate {A} (l : list A) : list (nat * A) :=
  combine (seq 0 (length l)) l.

(** [str(n)] for an integer. *)
Definition str_of_int (n : Z) : str :=
  list_ascii_of_string (NilZero.string_of_int (Z.to_int n)).

End Py.

Import Py.

(* ------------------------------------------------------------------------- *)
(** ** hashlib.sha256 (FIPS 180-4) and the UTF-8 encoder *)
(* ------------------------------------------------------------------------- *)

Module SHA256.

(** 32-bit words are integers in [0, 2^32). *)
Definition wrap (x : Z) : Z := x mod 2 ^ 32.
Definition add32 (x y : Z) : Z := wrap (x + y).
Definition rotr (n x : Z) : Z :=
  wrap (Z.lor (Z.shiftr x n) (Z.shiftl x (32 - n))).
Definition not32 (x : Z) : Z := Z.lxor x 0xffffffff.

Definition Ch (x y z : Z) : Z := Z.lxor (Z.land x y) (Z.land (not32 x) z).
Definition Maj (x y z : Z) : Z :=
  Z.lxor (Z.lxor (Z.land x y) (Z.land x z)) (Z.land y z).
Definition Sigma0 (x : Z) : Z :=
  Z.lxor (Z.lxor (rotr 2 x) (rotr 13 x)) (rotr 22 x).
Definition Sigma1 (x : Z) : Z :=
  Z.lxor (Z.lxor (rotr 6 x) (rotr 11 x)) (rotr 25 x).
Definition sigma0 (x : Z) : Z :=
  Z.lxor (Z.lxor (rotr 7 x) (rotr 18 x)) (Z.shiftr x 3).
Definition sigma1 (x : Z) : Z :=
  Z.lxor (Z.lxor (rotr 17 x) (rotr 19 x)) (Z.shiftr x 10).

(** The first 64 primes. *)
Definition is_prime (n : Z) : bool :=
  forallb (fun d => negb (n mod Z.of_nat d =? 0)) (seq 2 (Z.to_nat n - 2)).

Definition primes : list Z :=
  firstn 64 (filter is_prime (map Z.of_nat (seq 2 400))).

(** Integer cube root of a number below 2^108, one bit at a time. *)
Definition cube_root (x : Z) : Z :=
  fold_left (fun r b =>
               let c := r + 2 ^ Z.of_nat b in
               if c * c * c <=? x then c else r)
            (rev (seq 0 36)) 0.

(** Round constants: the first 32 bits of the fractional parts of the cube
    roots of the first 64 primes. *)
Definition K : list Z :=
  map (fun p => wrap (cube_root (p * 2 ^ 96))) primes.

(** The eight working variables. *)
Record state := State
  { va : Z; vb : Z; vc : Z; vd : Z; ve : Z; vf : Z; vg : Z; vh : Z }.

(** Initial hash value: the first 32 bits of the fractional parts of the
    square roots of the first 8 primes. *)
Definition frac_sqrt (p : Z) : Z := wrap (Z.sqrt (p * 2 ^ 64)).

Definition H0 : state :=
  State (frac_sqrt 2) (frac_sqrt 3) (frac_sqrt 5) (frac_sqrt 7)
        (frac_sqrt 11) (frac_sqrt 13) (frac_sqrt 17) (frac_sqrt 19).

Definition byte_val (b : Byte.byte) : Z := Z.of_N (Byte.to_N b).

(** Big-endian bytes of an integer, [n] bytes wide. *)
Definition be_bytes (n : nat) (x : Z) : list Z :=
  map (fun i => Z.land (Z.shiftr x (8 * Z.of_nat i)) 255) (rev (seq 0 n)).

(** Message, the byte 0x80, zero bytes up to 56 modulo 64, then the bit
    length on eight bytes. *)
Definition pad (msg : list Z) : list Z :=
  let n := len msg in
  msg ++ [0x80] ++ repeat 0 (Z.to_nat ((55 - n) mod 64)) ++ be_bytes 8 (8 * n).

Fixpoint words (bs : list Z) : list Z :=
  match bs with
  | b0 :: b1 :: b2 :: b3 :: rest =>
      Z.lor (Z.lor (Z.shiftl b0 24) (Z.shiftl b1 16))
            (Z.lor (Z.shiftl b2 8) b3) :: words rest
  | _ => []
  end.

(** Message schedule, most recent word first: [rw] holds W[t-1], W[t-2], ... *)
Fixpoint schedule (steps : nat) (rw : list Z) : list Z :=
  match steps with
  | O => rw
  | S k =>
      let w := add32 (add32 (sigma1 (nth 1 rw 0)) (nth 6 rw 0))
                     (add32 (sigma0 (nth 14 rw 0)) (nth 15 rw 0)) in
      schedule k (w :: rw)
  end.

Definition round (s : state) (kw : Z * Z) : state :=
  let '(k, w) := kw in
  let t1 := add32 (add32 (add32 (vh s) (Sigma1 (ve s)))
                         (add32 (Ch (ve s) (vf s) (vg s)) k)) w in
  let t2 := add32 (Sigma0 (va s)) (Maj (va s) (vb s) (vc s)) in
  State (add32 t1 t2) (va s) (vb s) (vc s)
        (add32 (vd s) t1) (ve s) (vf s) (vg s).

Definition compress (s : state) (block : list Z) : state :=
  let w := rev (schedule 48 (rev block)) in
  let r := fold_left round (combine K w) s in
  State (add32 (va s) (va r)) (add32 (vb s) (vb r))
        (add32 (vc s) (vc r)) (add32 (vd s) (vd r))
        (add32 (ve s) (ve r)) (add32 (vf s) (vf r))
        (add32 (vg s) (vg r)) (add32 (vh s) (vh r)).

Fixpoint blocks (fuel : nat) (ws : list Z) (s : state) : state :=
  match fuel, ws with
  | S k, _ :: _ => blocks k (skipn 16 ws) (compress s (firstn 16 ws))
  | _, _ => s
  end.

Definition sha256 (msg : list Byte.byte) : state :=
  let ws := words (pad (map byte_val msg)) in
  blocks (length ws) ws H0.

Definition hex_alphabet : str := lit "0123456789abcdef".

Definition hexdigit (n : Z) : ascii := nth (Z.to_nat n) hex_alphabet (chr 48).

Definition hex8 (w : Z) : str :=
  map (fun i => hexdigit (Z.land (Z.shiftr w (4 * Z.of_nat i)) 15))
      (rev (seq 0 8)).

(** [hashlib.sha256(msg).hexdigest()] *)
Definition hexdigest (s : state) : str :=
  hex8 (va s) ++ hex8 (vb s) ++ hex8 (vc s) ++ hex8 (vd s)
  ++ hex8 (ve s) ++ hex8 (vf s) ++ hex8 (vg s) ++ hex8 (vh s).

(** [s.encode("utf-8", errors="ignore")]: one byte below 128, two bytes up
    to 255; no code point of that range is unencodable, so nothing is
    dropped. *)
Definition utf8_char (c : ascii) : list Byte.byte :=
  let n := code c in
  if n <? 128 then [byte_of_ascii c]
  else [byte_of_ascii (chr (192 + n / 64));
        byte_of_ascii (chr (128 + n mod 64))].

Definition encode_utf8 (s : str) : list Byte.byte := flat_map utf8_char s.

End SHA256.

(* ------------------------------------------------------------------------- *)
(** ** backend/build_index.py: classification and chunking *)
(* ------------------------------------------------------------------------- *)

Module BuildIndex.

Import SHA256.

Definition MAX_CHARS : Z := 1200.
Definition OVERLAP : Z := 150.

Definition classify_doc_type (filename : str) : str :=
  let fn := lower filename in
  if contains (lit "satzung") fn then lit "satzung"
  else if contains (lit "datenschutz") fn then lit "datenschutz"
  else if contains (lit "event") fn || contains (lit "terms") fn
       then lit "event_terms"
  else if contains (lit "spons") fn || contains (lit "partner") fn
       then lit "sponsoring"
  else lit "other".

(** [paras = [p.strip() for p in text.split("\n") if p.strip()]] *)
Definition paragraphs (text : str) : list str :=
  map strip (filter (fun p => truthy (strip p)) (split_nl text)).

(** One iteration of [for p in paras] on the pair [(chunks, cur)]. *)
Definition accumulate (max_chars : Z) (st : list str * str) (p : str)
  : list str * str :=
  let '(chunks, cur) := st in
  if len cur + len p + 1 <=? max_chars
  then (chunks, strip (cur ++ nl ++ p))
  else ((if truthy cur then chunks ++ [cur] else chunks), p).

(** The list [chunks] when the overlap block is reached. *)
Definition accumulated_chunks (text : str) (max_chars : Z) : list str :=
  let '(chunks, cur) :=
    fold_left (accumulate max_chars) (paragraphs text) ([], []) in
  if truthy cur then chunks ++ [cur] else chunks.

(** The loop [for i, ch in enumerate(chunks)] of the overlap block. *)
Definition overlapped (chunks : list str) (overlap : Z) : list str :=
  map (fun '(i, ch) =>
         match i with
         | O => ch
         | S j =>
             let prev := nth j chunks [] in
             let prefix :=
               if len prev >? overlap then slice_from prev (- overlap)
               else prev in
             strip (prefix ++ nl ++ ch)
         end)
      (enumerate chunks).

Definition chunk_text (text : str) (max_chars overlap : Z) : list str :=
  let chunks := accumulated_chunks text max_chars in
  if negb (overlap =? 0) && (len chunks >? 1)
  then overlapped chunks overlap
  else chunks.

(** [x or 0] for an optional integer. *)
Definition or_zero (x : option Z) : Z :=
  match x with
  | Some p => if p =? 0 then 0 else p
  | None => 0
  end.

(** The f-string [f"{source}|{page or 0}|{chunk_idx}|{text}"]. *)
Definition stable_key (source : str) (page : option Z) (chunk_idx : Z)
  (text : str) : str :=
  source ++ lit "|" ++ str_of_int (or_zero page) ++ lit "|"
  ++ str_of_int chunk_idx ++ lit "|" ++ text.

Definition stable_id (source : str) (page : option Z) (chunk_idx : Z)
  (text : str) : str :=
  let key := encode_utf8 (stable_key source page chunk_idx text) in
  hexdigest (sha256 key).

End BuildIndex.

Import BuildIndex.

(* ------------------------------------------------------------------------- *)
(** ** backend/session_store.py *)
(* ------------------------------------------------------------------------- *)

Module SessionStore.

Definition str_eqb (a b : str) : bool :=
  if list_eq_dec ascii_dec a b then true else false.

(** Table [sessions]. *)
Record session_row := SessionRow
  { s_session_id : str; s_summary : str; s_created_at : Z; s_updated_at : Z }.

(** Table [messages]; [m_id] is the AUTOINCREMENT primary key. *)
Record message_row := MessageRow
  { m_id : Z; m_session_id : str; m_role : str; m_content : str;
    m_created_at : Z }.

(** The database file: both tables and the AUTOINCREMENT counter that
    SQLite keeps for [messages] (the largest id ever handed out). *)
Record db := Db
  { sessions : list session_row; messages : list message_row;
    sqlite_sequence : Z }.

(** The dictionaries [{"role": ..., "content": ...}]. *)
Record Message := Msg { role : str; content : str }.

(** [init_db] on a fresh file. *)
Definition init_db : db := Db [] [] 0.

(** [INSERT ... ON CONFLICT(session_id) DO UPDATE SET ...] *)
Fixpoint upsert (rows : list session_row) (sid : str)
  (inserted : session_row) (update : session_row -> session_row)
  : list session_row :=
  match rows with
  | [] => [inserted]
  | r :: rest =>
      if str_eqb (s_session_id r) sid then update r :: rest
      else r :: upsert rest sid inserted update
  end.

Definition touch_session (d : db) (session_id : str) (now : Z) : db :=
  Db (upsert (sessions d) session_id
        (SessionRow session_id [] now now)
        (fun r => SessionRow (s_session_id r) (s_summary r)
                    (s_created_at r) now))
     (messages d) (sqlite_sequence d).

Definition get_summary (d : db) (session_id : str) : str :=
  match find (fun r => str_eqb (s_session_id r) session_id) (sessions d) with
  | Some row => s_summary row
  | None => []
  end.

Definition set_summary (d : db) (session_id summary : str) (now : Z) : db :=
  Db (upsert (sessions d) session_id
        (SessionRow session_id summary now now)
        (fun r => SessionRow (s_session_id r) summary (s_created_at r) now))
     (messages d) (sqlite_sequence d).

(** [CHECK(role IN ('user','assistant'))] *)
Definition role_ok (r : str) : bool :=
  str_eqb r (lit "user") || str_eqb r (lit "assistant").

(** [FOREIGN KEY(session_id) REFERENCES sessions(session_id)] *)
Definition session_exists (d : db) (session_id : str) : bool :=
  existsb (fun r => str_eqb (s_session_id r) session_id) (sessions d).

(** [append_message]; [None] is the IntegrityError of a violated
    constraint, which rolls the transaction back. *)
Definition append_message (d : db) (session_id role content : str) (now : Z)
  : option db :=
  if role_ok role && session_exists d session_id then
    let new_id := sqlite_sequence d + 1 in
    Some (Db (map (fun r =>
                     if str_eqb (s_session_id r) session_id
                     then SessionRow (s_session_id r) (s_summary r)
                            (s_created_at r) now
                     else r)
                (sessions d))
             (messages d ++ [MessageRow new_id session_id role content now])
             new_id)
  else None.

(** [WHERE session_id=?] *)
Definition of_session (session_id : str) (rows : list message_row)
  : list message_row :=
  filter (fun m => str_eqb (m_session_id m) session_id) rows.

(** [ORDER BY id DESC] *)
Fixpoint insert_desc (m : message_row) (sorted : list message_row)
  : list message_row :=
  match sorted with
  | [] => [m]
  | x :: rest =>
      if m_id x <=? m_id m then m :: sorted else x :: insert_desc m rest
  end.

Definition order_by_id_desc (rows : list message_row) : list message_row :=
  fold_right insert_desc [] rows.

(** [LIMIT ?] on a value that was bound (see [sqlite_int]): a negative
    limit is no limit. *)
Definition sql_limit {A} (limit : Z) (rows : list A) : list A :=
  if limit <? 0 then rows else firstn (Z.to_nat limit) rows.

Definition get_last_messages (d : db) (session_id : str) (limit : Z)
  : list Message :=
  let rows :=
    sql_limit limit (order_by_id_desc (of_session session_id (messages d))) in
  map (fun r => Msg (m_role r) (m_content r)) (rev rows).

(** Binding a Python [int] to a statement parameter: sqlite3 takes signed
    64-bit integers and raises OverflowError for any other value, before
    the statement runs. *)
Definition sqlite_int (n : Z) : bool := (- 2 ^ 63 <=? n) && (n <? 2 ^ 63).

(** A call of [get_last_messages] with the binding of its limit; [None] is
    the OverflowError.  [get_last_messages] above is the query on a limit
    that was bound. *)
Definition get_last_messages_call (d : db) (session_id : str) (limit : Z)
  : option (list Message) :=
  if sqlite_int limit then Some (get_last_messages d session_id limit)
  else None.

Definition count_messages (d : db) (session_id : str) : Z :=
  len (of_session session_id (messages d)).

Definition delete_oldest_messages (d : db) (session_id : str) (keep_last : Z)
  : db :=
  let kept_ids :=
    map m_id
      (sql_limit keep_last
         (order_by_id_desc (of_session session_id (messages d)))) in
  Db (sessions d)
     (filter (fun m =>
                negb (str_eqb (m_session_id m) session_id
                      && negb (existsb (Z.eqb (m_id m)) kept_ids)))
        (messages d))
     (sqlite_sequence d).

End SessionStore.

Import SessionStore.

(* ------------------------------------------------------------------------- *)
(** ** backend/main.py: retrieval and the chat turn *)
(* ------------------------------------------------------------------------- *)

Module Main.

Definition SUMMARY_TRIGGER_MESSAGES : Z := 20.
Definition KEEP_LAST_MESSAGES : Z := 12.

(** Metadata dictionary of a stored entry. *)
Record metadata := Meta
  { md_source : option str; md_doc_type : option str;
    md_page : option Z; md_chunk : option Z }.

(** The first (and only) row of the lists a Chroma query returns. *)
Record query_result := QueryResult
  { documents : list str; metadatas : list (option metadata) }.

(** The [where] argument: [None] or one metadata equality. *)
Definition where_clause := option (str * str).

Definition satzung_filter : where_clause :=
  Some (lit "doc_type", lit "satzung").

Inductive temperature := Temp0 | Temp02.

Record ChatRequest := Request
  { req_messages : list Message; req_message : option str;
    req_session_id : option str }.

Inductive response :=
| Reply (session_id reply : str)
| HTTPException (status_code : Z)
| Unhandled.

Section Program.

(** Embedding vectors are opaque. *)
Variable vec : Type.

(** The prompt templates hold code points above 255 and the repr of a list
    of dictionaries; they enter as functions of their placeholders. *)
Variable SYSTEM_PROMPT_STRICT : str -> str -> str.
Variable SYSTEM_PROMPT_FALLBACK : str -> str.
Variable build_summary_prompt : str -> list Message -> str.

(** What the outside world answers during one request.  [None] stands for
    a raised exception; for the chat service [Some None] is a JSON answer
    without a string under message.content. *)
Record services := Services
  { clock : nat -> Z;
    uuid4 : str;
    get_embedding : str -> option vec;
    zero_vec : vec;
    collection_query : vec -> Z -> where_clause -> option query_result;
    ollama_chat : list Message -> temperature -> option (option str) }.

(** Every call that leaves the process or touches the session database. *)
Inductive call :=
| CallTouchSession (session_id : str)
| CallGetSummary (session_id : str)
| CallGetLastMessages (session_id : str) (limit : Z)
| CallCountMessages (session_id : str)
| CallSetSummary (session_id summary : str)
| CallDeleteOldestMessages (session_id : str) (keep_last : Z)
| CallAppendMessage (session_id role content : str)
| CallEmbedding (text : str)
| CallQuery (embedding : vec) (n_results : Z) (filter : where_clause)
| CallOllama (messages : list Message) (t : temperature).

(** Process state: the database file, the module global
    [_SATZUNG_PRESENT], and the calls made so far. *)
Record world := World
  { w_db : db; SATZUNG_PRESENT : option bool; trace : list call }.

Definition M (A : Type) : Type := world -> A * world.

Definition ret {A} (a : A) : M A := fun w => (a, w).

Definition bind {A B} (m : M A) (k : A -> M B) : M B :=
  fun w => let '(a, w') := m w in k a w'.

Notation "x <- m ;; k" := (bind m (fun x => k))
  (at level 61, m at next level, right associativity).
Notation "m ;;; k" := (bind m (fun _ => k))
  (at level 61, right associativity).

Definition emit (c : call) : M unit :=
  fun w => (tt, World (w_db w) (SATZUNG_PRESENT w) (trace w ++ [c])).

Definition read_db {A} (f : db -> A) : M A := fun w => (f (w_db w), w).

Definition write_db (f : db -> db) : M unit :=
  fun w => (tt, World (f (w_db w)) (SATZUNG_PRESENT w) (trace w)).

Definition read_cache : M (option bool) := fun w => (SATZUNG_PRESENT w, w).

Definition write_cache (b : bool) : M unit :=
  fun w => (tt, World (w_db w) (Some b) (trace w)).

Variable env : services.

(** [int(time.time())]: the clock is read once per database write. *)
Definition time_now : M Z := fun w => (clock env (length (trace w)), w).

Definition do_touch_session (sid : str) : M unit :=
  now <- time_now ;; emit (CallTouchSession sid) ;;;
  write_db (fun d => touch_session d sid now).

Definition do_get_summary (sid : str) : M str :=
  emit (CallGetSummary sid) ;;; read_db (fun d => get_summary d sid).

Definition do_get_last_messages (sid : str) (limit : Z) : M (list Message) :=
  emit (CallGetLastMessages sid limit) ;;;
  read_db (fun d => get_last_messages d sid limit).

Definition do_count_messages (sid : str) : M Z :=
  emit (CallCountMessages sid) ;;; read_db (fun d => count_messages d sid).

Definition do_set_summary (sid summary : str) : M unit :=
  now <- time_now ;; emit (CallSetSummary sid summary) ;;;
  write_db (fun d => set_summary d sid summary now).

Definition do_delete_oldest_messages (sid : str) (keep_last : Z) : M unit :=
  emit (CallDeleteOldestMessages sid keep_last) ;;;
  write_db (fun d => delete_oldest_messages d sid keep_last).

(** [true] when the insert went through. *)
Definition do_append_message (sid role content : str) : M bool :=
  now <- time_now ;; emit (CallAppendMessage sid role content) ;;;
  d <- read_db (fun d => d) ;;
  match append_message d sid role content now with
  | Some d' => write_db (fun _ => d') ;;; ret true
  | None => ret false
  end.

Definition do_get_embedding (text : str) : M (option vec) :=
  emit (CallEmbedding text) ;;; ret (get_embedding env text).

Definition do_query (qe : vec) (n : Z) (w : where_clause)
  : M (option query_result) :=
  emit (CallQuery qe n w) ;;; ret (collection_query env qe n w).

Definition do_ollama (msgs : list Message) (t : temperature)
  : M (option (option str)) :=
  emit (CallOllama msgs t) ;;; ret (ollama_chat env msgs t).

Definition is_satzung (m : option metadata) : bool :=
  match m with
  | Some md =>
      match md_doc_type md with
      | Some t => str_eqb t (lit "satzung")
      | None => false
      end
  | None => false
  end.

Definition _has_satzung_chunks : M bool :=
  probe <- do_query (zero_vec env) 1 satzung_filter ;;
  match probe with
  | Some res => ret (truthy (documents res))
  | None =>
      qemb <- do_get_embedding (lit "FFI Satzung") ;;
      match qemb with
      | None => ret false
      | Some qe =>
          res <- do_query qe 5 None ;;
          match res with
          | None => ret false
          | Some r => ret (existsb is_satzung (metadatas r))
          end
      end
  end.

Definition or_default (x : option str) (d : str) : str :=
  match x with Some v => v | None => d end.

(** One iteration of [for doc, meta in zip(docs, metas)]. *)
Definition snippet (doc : str) (meta : option metadata) : str :=
  let meta :=
    match meta with Some m => m | None => Meta None None None None end in
  let source := or_default (md_source meta) (lit "unbekannt") in
  let doc_type := or_default (md_doc_type meta) (lit "unknown") in
  let page := md_page meta in
  let chunk := md_chunk meta in
  let loc :=
    (match page with
     | Some p => if p =? 0 then [] else [lit "p." ++ str_of_int p]
     | None => []
     end)
    ++ (match chunk with
        | Some c => [lit "chunk " ++ str_of_int c]
        | None => []
        end) in
  let loc_str := join (lit ", ") loc in
  let header := lit "[" ++ source ++ lit " | " ++ doc_type in
  let header :=
    if truthy loc_str then header ++ lit " | " ++ loc_str else header in
  let header := header ++ lit "]" in
  header ++ nl ++ doc.

(** What [retrieve_context] returns for the answer of the store. *)
Definition format_results (results : query_result) : str :=
  let docs := documents results in
  let metas := metadatas results in
  if negb (truthy docs) then []
  else join (nl ++ nl ++ lit "---" ++ nl ++ nl)
         (map (fun '(doc, meta) => snippet doc meta) (combine docs metas)).

(** [None] is an exception of [collection.query], which the function does
    not catch. *)
Definition retrieve_context (user_text : str) (k : Z) : M (option str) :=
  query_emb <- do_get_embedding (lit "FFI " ++ user_text) ;;
  match query_emb with
  | None => ret (Some [])
  | Some qe =>
      let q := lower user_text in
      where_ <-
        (if contains (lit "satzung") q then
           cached <- read_cache ;;
           match cached with
           | None => b <- _has_satzung_chunks ;; write_cache b
           | Some _ => ret tt
           end ;;;
           present <- read_cache ;;
           ret (match present with
                | Some true => satzung_filter
                | _ => None
                end)
         else ret None) ;;
      results <- do_query qe k where_ ;;
      match results with
      | None => ret None
      | Some res => ret (Some (format_results res))
      end
  end.

Definition summarizer_messages (summary : str) (old_part : list Message)
  : list Message :=
  [Msg (lit "system")
       (lit "Du bist ein pr" ++ [chr 228]
        ++ lit "ziser Protokollant. Du fasst strikt faktenbasiert zusammen.");
   Msg (lit "user") (build_summary_prompt summary old_part)].

(** Step 3 of [chat]: the rolling summary update.  Takes and returns the
    local variables [summary] and [history]. *)
Definition rolling_summary (session_id summary : str)
  (history : list Message) : M (str * list Message) :=
  n <- do_count_messages session_id ;;
  if n >? SUMMARY_TRIGGER_MESSAGES then
    older <- do_get_last_messages session_id
               (SUMMARY_TRIGGER_MESSAGES + KEEP_LAST_MESSAGES) ;;
    let old_part :=
      if len older >? KEEP_LAST_MESSAGES
      then slice_to older (- KEEP_LAST_MESSAGES) else [] in
    if truthy old_part then
      sum_resp <- do_ollama (summarizer_messages summary old_part) Temp0 ;;
      let new_summary :=
        match sum_resp with
        | Some (Some c) => strip c
        | Some None => strip []
        | None => []
        end in
      if truthy new_summary then
        do_set_summary session_id new_summary ;;;
        do_delete_oldest_messages session_id KEEP_LAST_MESSAGES ;;;
        history' <- do_get_last_messages session_id KEEP_LAST_MESSAGES ;;
        ret (new_summary, history')
      else ret (summary, history)
    else ret (summary, history)
  else ret (summary, history).

Definition last_content (msgs : list Message) : str :=
  match rev msgs with
  | m :: _ => content m
  | [] => []
  end.

(** Step 0 of [chat]: the user text of the request. *)
Definition resolve_user_text (req : ChatRequest) : str :=
  let user_text := strip (or_default (req_message req) []) in
  if negb (truthy user_text) && truthy (req_messages req)
  then strip (last_content (req_messages req)) else user_text.

(** Step 1 of [chat]: [(req.session_id or str(uuid4())).strip()]. *)
Definition resolve_session_id (req : ChatRequest) : str :=
  strip (match req_session_id req with
         | Some s => if truthy s then s else uuid4 env
         | None => uuid4 env
         end).

(** Steps 4 to 7 of [chat]: context, prompt, model call, persisting the
    turn. *)
Definition respond (user_text session_id summary : str)
  (history : list Message) : M response :=
  ctx <- retrieve_context user_text 8 ;;
  match ctx with
  | None => ret Unhandled
  | Some context =>
      let system_prompt :=
        if truthy (strip context)
        then SYSTEM_PROMPT_STRICT context user_text
        else SYSTEM_PROMPT_FALLBACK user_text in
      let messages :=
        [Msg (lit "system") system_prompt]
        ++ (if truthy (strip summary)
            then [Msg (lit "system")
                    (lit "SESSION_MEMORY (faktenbasiert):" ++ nl
                     ++ summary)]
            else [])
        ++ history ++ [Msg (lit "user") user_text] in
      r <- do_ollama messages
             (if negb (truthy (strip context)) then Temp02 else Temp0) ;;
      match r with
      | Some (Some reply) =>
          let reply := strip reply in
          ok1 <- do_append_message session_id (lit "user") user_text ;;
          if ok1 then
            ok2 <- do_append_message session_id (lit "assistant") reply ;;
            if ok2 then ret (Reply session_id reply)
            else ret (HTTPException 500)
          else ret (HTTPException 500)
      | _ => ret (HTTPException 500)
      end
  end.

Definition chat (req : ChatRequest) : M response :=
  let user_text := resolve_user_text req in
  if negb (truthy user_text) then ret (HTTPException 400)
  else
    let session_id := resolve_session_id req in
    do_touch_session session_id ;;;
    summary <- do_get_summary session_id ;;
    history <- do_get_last_messages session_id KEEP_LAST_MESSAGES ;;
    mem <- rolling_summary session_id summary history ;;
    let '(summary, history) := mem in
    respond user_text session_id summary history.

End Program.

Arguments ret {vec A} _ _.
Arguments bind {vec A B} _ _ _.
Arguments read_db {vec A} _ _.
Arguments Services {vec}.
Arguments clock {vec}.
Arguments uuid4 {vec}.
Arguments get_embedding {vec}.
Arguments zero_vec {vec}.
Arguments collection_query {vec}.
Arguments ollama_chat {vec}.
Arguments CallTouchSession {vec}.
Arguments CallGetSummary {vec}.
Arguments CallGetLastMessages {vec}.
Arguments CallCountMessages {vec}.
Arguments CallSetSummary {vec}.
Arguments CallDeleteOldestMessages {vec}.
Arguments CallAppendMessage {vec}.
Arguments CallEmbedding {vec}.
Arguments CallQuery {vec}.
Arguments CallOllama {vec}.
Arguments World {vec}.
Arguments w_db {vec}.
Arguments SATZUNG_PRESENT {vec}.
Arguments trace {vec}.
Arguments emit {vec}.
Arguments write_db {vec}.
Arguments read_cache {vec}.
Arguments write_cache {vec}.
Arguments time_now {vec}.
Arguments do_touch_session {vec}.
Arguments do_get_summary {vec}.
Arguments do_get_last_messages {vec}.
Arguments do_count_messages {vec}.
Arguments do_set_summary {vec}.
Arguments do_delete_oldest_messages {vec}.
Arguments do_append_message {vec}.
Arguments do_get_embedding {vec}.
Arguments do_query {vec}.
Arguments do_ollama {vec}.
Arguments _has_satzung_chunks {vec}.
Arguments retrieve_context {vec}.
Arguments rolling_summary {vec}.
Arguments chat {vec}.
Arguments respond {vec}.
Arguments resolve_session_id {vec}.
Arguments summarizer_messages _ _ _ : clear implicits.

(** A process serves its requests one after the other; the outside world
    may answer differently each time. *)
Fixpoint serve {vec} (reqs : list (services vec * str * Z)) (w : world vec)
  : world vec :=
  match reqs with
  | [] => w
  | (env, user_text, k) :: rest =>
      serve rest (snd (retrieve_context env user_text k w))
  end.

(** State of a freshly started process. *)
Definition boot {vec} (d : db) : world vec := World d None [].

End Main.

Import Main.

(* ------------------------------------------------------------------------- *)
(** ** Vocabulary of the specification *)
(* ------------------------------------------------------------------------- *)

Module Spec.

(** A string with a first character that is not whitespace. *)
Definition starts_ok (s : str) : bool :=
  match s with
  | c :: _ => negb (isspace c)
  | [] => false
  end.

Definition ends_ok (s : str) : bool := starts_ok (rev s).

(** Non-empty, no whitespace at either end. *)
Definition Trimmed (s : str) : Prop :=
  starts_ok s = true /\ ends_ok s = true.

(** No line break inside. *)
Definition nl_free (s : str) : Prop := Forall (fun c => code c <> 10) s.

(** A paragraph: a non-empty trimmed line. *)
Definition Para (s : str) : Prop := Trimmed s /\ nl_free s.

(** Chunker, as the specification words it: the paragraph is joined to the
    buffer by a newline when the joined text fits into [max_chars];
    otherwise the buffer is flushed and the paragraph opens a new one; a
    non-empty buffer is flushed at the end. *)
Definition buffer_plus (buf p : str) : str :=
  if truthy buf then buf ++ nl ++ p else p.

Definition flush (buf : str) : list str :=
  if truthy buf then [buf] else [].

Fixpoint greedy_chunks (max_chars : Z) (buf : str) (paras : list str)
  : list str :=
  match paras with
  | [] => flush buf
  | p :: rest =>
      if len (buffer_plus buf p) <=? max_chars
      then greedy_chunks max_chars (buffer_plus buf p) rest
      else flush buf ++ greedy_chunks max_chars p rest
  end.

(** The trailing [n] characters of [s], all of [s] when it is shorter. *)
Definition trailing (n : Z) (s : str) : str :=
  skipn (length s - Z.to_nat n) s.

(** [sfx] is a suffix of [s]. *)
Definition suffix_of (sfx s : str) : Prop := exists pre, s = pre ++ sfx.

(** Overlap prefixing read literally: the trailing characters, a newline,
    the chunk. *)
Definition overlap_verbatim (text : str) (max_chars overlap : Z) : Prop :=
  let pre := accumulated_chunks text max_chars in
  forall i, (1 <= i < length pre)%nat ->
    nth i (chunk_text text max_chars overlap) []
    = trailing overlap (nth (i - 1) pre []) ++ nl ++ nth i pre [].

(** The closed set of document types. *)
Definition DOC_TYPES : list str :=
  [lit "satzung"; lit "datenschutz"; lit "event_terms"; lit "sponsoring";
   lit "other"].

(** The filename heuristics in priority order: keywords and the type they
    stand for. *)
Definition doc_type_rules : list (list str * str) :=
  [([lit "satzung"], lit "satzung");
   ([lit "datenschutz"], lit "datenschutz");
   ([lit "event"; lit "terms"], lit "event_terms");
   ([lit "spons"; lit "partner"], lit "sponsoring")].

(** First rule with a keyword occurring in [name], [other] when there is
    none. *)
Definition first_match (rules : list (list str * str)) (name : str) : str :=
  match find (fun r => existsb (fun kw => contains kw name) (fst r)) rules
  with
  | Some r => snd r
  | None => lit "other"
  end.

Definition is_hex (c : ascii) : bool :=
  existsb (Ascii.eqb c) SHA256.hex_alphabet.

(** [page] with a missing page read as 0. *)
Definition page_or_0 (page : option Z) : Z :=
  match page with Some p => p | None => 0 end.

(** The input tuple of the content identifier. *)
Definition id_input : Type := (str * option Z * Z * str)%type.

Definition key_of (x : id_input) : str :=
  let '(source, page, chunk_idx, text) := x in
  stable_key source page chunk_idx text.

Definition id_of (x : id_input) : str :=
  let '(source, page, chunk_idx, text) := x in
  stable_id source page chunk_idx text.

(** Rows are listed in rowid order; [id] is the rowid, so the ids go up
    along the table, and AUTOINCREMENT never hands out an id at or below
    its counter. *)
Definition id_lt (a b : message_row) : Prop := m_id a < m_id b.

Definition wf_db (d : db) : Prop :=
  StronglySorted id_lt (messages d)
  /\ Forall (fun m => m_id m <= sqlite_sequence d) (messages d).

(** The databases the five operations of the store can produce. *)
Inductive reachable : db -> Prop :=
| reach_init : reachable init_db
| reach_touch : forall d sid now,
    reachable d -> reachable (touch_session d sid now)
| reach_set_summary : forall d sid summary now,
    reachable d -> reachable (set_summary d sid summary now)
| reach_append : forall d sid role content now d',
    reachable d -> append_message d sid role content now = Some d' ->
    reachable d'
| reach_delete : forall d sid keep_last,
    reachable d -> reachable (delete_oldest_messages d sid keep_last).

(** The last [n] rows, all of them when there are fewer. *)
Definition most_recent {A} (n : nat) (rows : list A) : list A :=
  skipn (length rows - n) rows.

Definition as_message (r : message_row) : Message :=
  Msg (m_role r) (m_content r).

(** [get_last_messages] returns [min(limit, total)] messages. *)
Definition returns_min_count (d : db) (session_id : str) (limit : Z) : Prop :=
  len (get_last_messages d session_id limit)
  = Z.min limit (count_messages d session_id).

(** A database after a few calls: sessions s and t, three messages of s
    with one of t in between. *)
Definition sample_db : db :=
  let say (sid role text : string) (now : Z) (d : db) :=
    match append_message d (lit sid) (lit role) (lit text) now with
    | Some d' => d'
    | None => d
    end in
  (say "s" "user" "c" 14
    (say "s" "assistant" "b" 13
      (say "t" "user" "x" 12
        (say "s" "user" "a" 11
          (touch_session (touch_session init_db (lit "s") 10)
             (lit "t") 10)))))%string.

(** The query names the keyword. *)
Definition has_keyword (user_text : str) : bool :=
  contains (lit "satzung") (lower user_text).

(** One run of the presence check against [env]: its answer and the calls
    it makes. *)
Definition run_probe {vec} (env : services vec) : bool * list (call vec) :=
  let '(b, w) := _has_satzung_chunks env (boot init_db) in (b, trace w).

(** The memoized presence check: the cached value, computed now when the
    cache is still empty. *)
Definition presence {vec} (env : services vec) (cache : option bool) : bool :=
  match cache with
  | Some b => b
  | None => fst (run_probe env)
  end.

(** The general query: same embedding, same [k], no filter. *)
Definition unfiltered_context {vec} (env : services vec) (user_text : str)
  (k : Z) : option str :=
  match get_embedding env (lit "FFI " ++ user_text) with
  | None => Some []
  | Some qe => option_map format_results (collection_query env qe k None)
  end.

(** The summarization call fails, or its answer has no content or only
    whitespace. *)
Definition summarizer_fails {vec} (env : services vec)
  (msgs : list Message) : Prop :=
  match ollama_chat env msgs Temp0 with
  | Some (Some c) => strip c = []
  | Some None => True
  | None => True
  end.

(** The older slice of the compaction: of the
    [SUMMARY_TRIGGER + KEEP_LAST] most recent messages, all but the last
    [KEEP_LAST]. *)
Definition older_slice (d : db) (session_id : str) : list Message :=
  let older :=
    get_last_messages d session_id
      (SUMMARY_TRIGGER_MESSAGES + KEEP_LAST_MESSAGES) in
  if len older >? KEEP_LAST_MESSAGES
  then slice_to older (- KEEP_LAST_MESSAGES) else [].

(** The request sent to the summarizer for the older slice. *)
Definition summarizer_request (build_summary_prompt : str -> list Message -> str)
  (d : db) (session_id summary : str) : list Message :=
  summarizer_messages build_summary_prompt summary (older_slice d session_id).

Definition summary_of (r : option session_row) : str :=
  match r with Some row => s_summary row | None => [] end.

(** Calls other than [set_summary] and [delete_oldest_messages]. *)
Definition quiet {vec} (c : call vec) : bool :=
  match c with
  | CallSetSummary _ _ => false
  | CallDeleteOldestMessages _ _ => false
  | _ => true
  end.

(** The compaction is due for the session. *)
Definition trigger_holds (d : db) (session_id : str) : Prop :=
  count_messages d session_id > SUMMARY_TRIGGER_MESSAGES.

(** From [w] to [w']: the summary of the session is the same, its messages
    are the same with possibly more at the end, and the calls in between
    are neither [set_summary] nor [delete_oldest_messages]. *)
Definition calm {vec} (session_id : str) (w w' : world vec) : Prop :=
  get_summary (w_db w') session_id = get_summary (w_db w) session_id
  /\ (exists added,
        of_session session_id (messages (w_db w'))
        = of_session session_id (messages (w_db w)) ++ added)
  /\ (exists calls,
        trace w' = trace w ++ calls /\ forallb quiet calls = true).

Definition Calm {vec A} (session_id : str) (m : M vec A) : Prop :=
  forall w, calm session_id w (snd (m w)).

(** A service with two stored entries, none of type satzung; embeddings
    are the texts themselves. *)
Definition sample_services : services str :=
  Services (fun _ => 0) (lit "uuid")
    (fun text => Some text) []
    (fun _ _ w =>
       match w with
       | Some _ => Some (QueryResult [] [])
       | None =>
           Some (QueryResult [lit "Beitrag"; lit "Haftung"]
                   [Some (Meta (Some (lit "a.txt")) (Some (lit "other"))
                            None (Some 0));
                    None])
       end)
    (fun _ _ => None).

(** A session with 21 stored messages, one over the trigger. *)
Definition long_session_db : db :=
  fold_left
    (fun d i =>
       match append_message d (lit "s") (lit "user")
               (str_of_int (Z.of_nat i)) 20 with
       | Some d' => d'
       | None => d
       end)
    (seq 0 21) (touch_session init_db (lit "s") 10).

(** A chat request of session s. *)
Definition sample_request : ChatRequest :=
  Request [] (Some (lit "Hallo")) (Some (lit "s")).

End Spec.

Import Spec.

(* ------------------------------------------------------------------------- *)
(** ** backend/build_index.py: extraction and indexing *)
(* ------------------------------------------------------------------------- *)

Module Indexer.

(** [s.endswith(suffix)] *)
Definition endswith (s suffix : str) : bool :=
  startswith (rev suffix) (rev s).

(** [s.endswith((a, b, ...))] *)
Definition endswith_any (s : str) (suffixes : list str) : bool :=
  existsb (endswith s) suffixes.

(** [extract_docx] on the texts of the paragraphs of the document. *)
Definition extract_docx (texts : list str) : str :=
  join nl (filter (fun t => truthy t && truthy (strip t)) texts).

(** [extract_pdf_pages] on what [page.extract_text()] gives page by page
    ([None] for a page without text layer). *)
Definition extract_pdf_pages (page_texts : list (option str))
  : list (Z * str) :=
  flat_map
    (fun '(idx, t) =>
       let content := strip (or_default t []) in
       if truthy content then [(Z.of_nat idx, content)] else [])
    (combine (seq 1 (length page_texts)) page_texts).

(** What an extraction gives: a text, an exception of the reader, or the
    ValueError for an unsupported file type. *)
Inductive extracted :=
| Text (s : str)
| ReadError
| Unsupported.

Section Indexing.

Variable vec : Type.

(** The four parallel lists handed to [collection.add]. *)
Record batch := Batch
  { b_ids : list str; b_embeddings : list vec; b_documents : list str;
    b_metadatas : list metadata }.

(** The data directory and the services of one indexing run.  The
    directory listing ([os.makedirs], then [os.listdir]) and the readers
    answer [None] when they raise; the embedding service is asked with the
    number of the call, the store with the calls it has seen;
    [collection_count] tells whether the final [collection.count()]
    returns.  Console output is not part of the model. *)
Record disk := Disk
  { DATA_DIR : str;
    listdir : option (list str);
    read_text : str -> option str;
    docx_paragraphs : str -> option (list str);
    pdf_page_texts : str -> option (list (option str));
    embedding_service : nat -> str -> option vec;
    collection_add : list (batch * bool) -> batch -> bool;
    collection_count : list (batch * bool) -> bool }.

(** Progress of a run: embedding calls made, [collection.add] calls with
    their outcome, and [total_added]. *)
Record run := Run
  { embedding_calls : nat; add_calls : list (batch * bool);
    total_added : Z }.

Variable env : disk.

(** [os.path.join(DATA_DIR, filename)] for a plain file name. *)
Definition full_path (filename : str) : str :=
  DATA_DIR env ++ lit "/" ++ filename.

Definition extract_plain_text_file (path : str) : extracted :=
  let path_lower := lower path in
  if endswith_any path_lower [lit ".txt"; lit ".md"] then
    match read_text env path with
    | Some s => Text s
    | None => ReadError
    end
  else if endswith path_lower (lit ".docx") then
    match docx_paragraphs env path with
    | Some texts => Text (extract_docx texts)
    | None => ReadError
    end
  else Unsupported.

(** One iteration of the embedding loops: [page] is the page number of a
    PDF chunk and [None] for a chunk of a plain file. *)
Definition embed_chunk (filename doc_type : str) (acc : batch * nat)
  (item : option Z * Z * str) : batch * nat :=
  let '(b, n) := acc in
  let '(page, chunk_idx, chunk) := item in
  match embedding_service env n chunk with
  | None => (b, S n)
  | Some emb =>
      (Batch (b_ids b ++ [stable_id filename page chunk_idx chunk])
             (b_embeddings b ++ [emb])
             (b_documents b ++ [chunk])
             (b_metadatas b
              ++ [Meta (Some filename) (Some doc_type) page (Some chunk_idx)]),
       S n)
  end.

(** [enumerate(chunk_text(text))] with the page the chunks come from. *)
Definition numbered_chunks (page : option Z) (text : str)
  : list (option Z * Z * str) :=
  map (fun '(i, ch) => (page, Z.of_nat i, ch))
      (enumerate (chunk_text text MAX_CHARS OVERLAP)).

(** The chunks of a file, or why there are none: [inl true] when the file
    is skipped, [inl false] when reading it raised. *)
Definition file_chunks (filename : str)
  : bool + list (option Z * Z * str) :=
  let path := full_path filename in
  if endswith (lower filename) (lit ".pdf") then
    match pdf_page_texts env path with
    | None => inl false
    | Some page_texts =>
        let pages := extract_pdf_pages page_texts in
        if negb (truthy pages) then inl true
        else inr (flat_map
                    (fun '(page_no, page_text) =>
                       numbered_chunks (Some page_no) page_text)
                    pages)
    end
  else
    match extract_plain_text_file path with
    | Text s =>
        let text := strip s in
        if negb (truthy text) then inl true
        else inr (numbered_chunks None text)
    | _ => inl false
    end.

(** The body of [for filename in files]; the flag tells whether the run
    goes on ([false] after an exception that nothing catches). *)
Definition index_file (r : run) (filename : str) : run * bool :=
  let doc_type := classify_doc_type filename in
  match file_chunks filename with
  | inl goes_on => (r, goes_on)
  | inr items =>
      let '(b, n) :=
        fold_left (embed_chunk filename doc_type) items
          (Batch [] [] [] [], embedding_calls r) in
      if negb (truthy (b_ids b)) then
        (Run n (add_calls r) (total_added r), true)
      else if collection_add env (add_calls r) b then
        (Run n (add_calls r ++ [(b, true)]) (total_added r + len (b_ids b)),
         true)
      else
        (Run n (add_calls r ++ [(b, false)]) (total_added r), true)
  end.

Fixpoint index_files (r : run) (files : list str) : run * bool :=
  match files with
  | [] => (r, true)
  | filename :: rest =>
      let '(r', goes_on) := index_file r filename in
      if goes_on then index_files r' rest else (r', false)
  end.

(** The list [files]; empty when the listing raised. *)
Definition supported_files : list str :=
  filter (fun f =>
            endswith_any (lower f)
              [lit ".txt"; lit ".md"; lit ".pdf"; lit ".docx"])
         (match listdir env with Some names => names | None => [] end).

(** [index_documents]: the state it leaves and whether it returned
    ([false]: an exception ended it).  Nothing catches an exception of the
    listing, of a reader or of the final [collection.count()]. *)
Definition index_documents : run * bool :=
  match listdir env with
  | None => (Run 0 [] 0, false)
  | Some _ =>
      let files := supported_files in
      if negb (truthy files) then (Run 0 [] 0, true)
      else
        let '(r, goes_on) := index_files (Run 0 [] 0) files in
        if goes_on then (r, collection_count env (add_calls r))
        else (r, false)
  end.

End Indexing.

Arguments Batch {vec}.
Arguments b_ids {vec}.
Arguments b_embeddings {vec}.
Arguments b_documents {vec}.
Arguments b_metadatas {vec}.
Arguments Disk {vec}.
Arguments DATA_DIR {vec}.
Arguments listdir {vec}.
Arguments read_text {vec}.
Arguments docx_paragraphs {vec}.
Arguments pdf_page_texts {vec}.
Arguments embedding_service {vec}.
Arguments collection_add {vec}.
Arguments collection_count {vec}.
Arguments Run {vec}.
Arguments embedding_calls {vec}.
Arguments add_calls {vec}.
Arguments total_added {vec}.
Arguments full_path {vec}.
Arguments extract_plain_text_file {vec}.
Arguments embed_chunk {vec}.
Arguments file_chunks {vec}.
Arguments index_file {vec}.
Arguments index_files {vec}.
Arguments supported_files {vec}.
Arguments index_documents {vec}.

End Indexer.

Import Indexer.

(* ------------------------------------------------------------------------- *)
(** ** Vocabulary for the behaviour of the rest of the code *)
(* ------------------------------------------------------------------------- *)

(* ------------------------------------------------------------------------- *)
(** ** Strings beyond code point 255 *)
(* ------------------------------------------------------------------------- *)

Module Unicode.

(** A Python [str] as the list of its code points.  Every code point from
    0 to 0x10FFFF can occur, the surrogates 0xD800..0xDFFF included
    ([os.listdir] yields them for file names that are not valid UTF-8). *)
Definition ustr := list Z.

Definition code_point (cp : Z) : Prop := 0 <= cp <= 1114111.

Definition surrogate (cp : Z) : bool := (55296 <=? cp) && (cp <=? 57343).

(** The bytes of one code point under
    [encode("utf-8", errors="ignore")]: a surrogate cannot be encoded and
    is left out. *)
Definition utf8_ignore_char (cp : Z) : list Z :=
  if cp <? 128 then [cp]
  else if cp <? 2048 then [192 + cp / 64; 128 + cp mod 64]
  else if surrogate cp then []
  else if cp <? 65536 then
    [224 + cp / 4096; 128 + (cp / 64) mod 64; 128 + cp mod 64]
  else
    [240 + cp / 262144; 128 + (cp / 4096) mod 64; 128 + (cp / 64) mod 64;
     128 + cp mod 64].

Definition encode_ignore (s : ustr) : list Z := flat_map utf8_ignore_char s.

(** The code points of a string of the embedded range. *)
Definition points (s : str) : ustr := map code s.

(** The f-string of [stable_id] over arbitrary strings. *)
Definition stable_key_points (source : ustr) (page : option Z)
  (chunk_idx : Z) (text : ustr) : ustr :=
  source ++ points (lit "|") ++ points (str_of_int (or_zero page))
  ++ points (lit "|") ++ points (str_of_int chunk_idx)
  ++ points (lit "|") ++ text.

(** What is left of a string when its surrogates are dropped. *)
Definition without_surrogates (s : ustr) : ustr :=
  filter (fun cp => negb (surrogate cp)) s.

End Unicode.

Import Unicode.

Module Behaviour.

Definition session_ids (d : db) : list str := map s_session_id (sessions d).

(** The declared constraints of the two tables: PRIMARY KEY of [sessions],
    CHECK on [role], FOREIGN KEY of [messages]. *)
Definition constraints_hold (d : db) : Prop :=
  NoDup (session_ids d)
  /\ Forall (fun m => role_ok (m_role m) = true) (messages d)
  /\ Forall (fun m => session_exists d (m_session_id m) = true) (messages d).

(** Message ids go up along the table, are positive, and none exceeds the
    AUTOINCREMENT counter. *)
Definition ids_issued_once (d : db) : Prop :=
  StronglySorted id_lt (messages d)
  /\ Forall (fun m => 0 < m_id m <= sqlite_sequence d) (messages d)
  /\ NoDup (map m_id (messages d)).

(** The text up to the first line break. *)
Definition first_line (s : str) : str := hd [] (split_nl s).

(** No chunk could have taken the first paragraph of the next one. *)
Fixpoint tight (max_chars : Z) (chunks : list str) : Prop :=
  match chunks with
  | a :: ((b :: _) as rest) =>
      len a + len (first_line b) + 1 > max_chars /\ tight max_chars rest
  | _ => True
  end.

(** Only whitespace. *)
Definition blank (s : str) : Prop := forallb isspace s = true.

(** A data directory: a statute as PDF with a blank second page, notes as
    text, a picture.  The embedding service fails on its second call, the
    store takes every batch. *)
Definition sample_disk : disk nat :=
  Disk (lit "/srv/data")
    (Some [lit "Satzung.PDF"; lit "bild.png"; lit "notes.md"])
    (fun _ => Some (lit "  eins" ++ nl ++ nl ++ lit "zwei "))
    (fun _ => Some [lit "Absatz"])
    (fun _ => Some [Some (lit " Zweck "); Some (lit "  "); None;
                    Some (lit "Sitz")])
    (fun n _ => if Nat.eqb n 1 then None else Some n)
    (fun _ _ => true)
    (fun _ => true).

(** The chunk is the chunk number [idx] of the file's own text: of the
    stripped text of a plain file, which has no page, or of the stripped
    text of page [page] of a PDF. *)
Definition chunk_of_file {vec} (env : disk vec) (filename : str)
  (item : option Z * Z * str) : Prop :=
  let '(page, idx, chunk) := item in
  let path := full_path env filename in
  0 <= idx
  /\ if endswith (lower filename) (lit ".pdf") then
       exists page_texts p,
         pdf_page_texts env path = Some page_texts
         /\ page = Some p /\ 1 <= p <= len page_texts
         /\ nth_error
              (chunk_text
                 (strip (or_default (nth (Z.to_nat p - 1) page_texts None) []))
                 MAX_CHARS OVERLAP)
              (Z.to_nat idx)
            = Some chunk
     else
       exists s,
         extract_plain_text_file env path = Text s
         /\ page = None
         /\ nth_error (chunk_text (strip s) MAX_CHARS OVERLAP) (Z.to_nat idx)
            = Some chunk.

(** The chunks that get an embedding, each with it, when the embedding
    calls are numbered from [first_call] on. *)
Definition embedded {vec} (env : disk vec) (first_call : nat)
  (items : list (option Z * Z * str))
  : list ((option Z * Z * str) * vec) :=
  flat_map
    (fun '(n, item) =>
       match embedding_service env n (snd item) with
       | Some emb => [(item, emb)]
       | None => []
       end)
    (combine (seq first_call (length items)) items).

Definition entry_id {vec} (filename : str)
  (e : (option Z * Z * str) * vec) : str :=
  let '((page, idx, chunk), _) := e in stable_id filename page idx chunk.

Definition entry_doc {vec} (e : (option Z * Z * str) * vec) : str :=
  let '((_, _, chunk), _) := e in chunk.

Definition entry_meta {vec} (filename : str)
  (e : (option Z * Z * str) * vec) : metadata :=
  let '((page, idx, _), _) := e in
  Meta (Some filename) (Some (classify_doc_type filename)) page (Some idx).

(** The batch of a file: all chunks of the file that got an embedding, in
    the order of the chunks, each with its id, embedding, text and
    metadata; at least one. *)
Definition batch_of {vec} (env : disk vec) (filename : str) (b : batch vec)
  : Prop :=
  exists items first_call,
    file_chunks env filename = inr items
    /\ embedded env first_call items <> []
    /\ b = Batch (map (entry_id filename) (embedded env first_call items))
             (map snd (embedded env first_call items))
             (map entry_doc (embedded env first_call items))
             (map (entry_meta filename) (embedded env first_call items)).

(** Entries of the [collection.add] calls that went through. *)
Fixpoint sum_added {vec} (calls : list (batch vec * bool)) : Z :=
  match calls with
  | [] => 0
  | (b, ok) :: rest => (if ok then len (b_ids b) else 0) + sum_added rest
  end.

(** What holds of a run at every moment. *)
Definition run_ok {vec} (env : disk vec) (files : list str) (r : run vec)
  : Prop :=
  Forall (fun c => exists filename,
                     In filename files /\ batch_of env filename (fst c))
    (add_calls r)
  /\ total_added r = sum_added (add_calls r).

(** A reader raised on the file. *)
Definition reader_raised {vec} (env : disk vec) (filename : str) : Prop :=
  let path := full_path env filename in
  (endswith (lower filename) (lit ".pdf") = true
   /\ pdf_page_texts env path = None)
  \/ (endswith (lower filename) (lit ".pdf") = false
      /\ extract_plain_text_file env path = ReadError).

(** Neither the listing nor a reader ever raises. *)
Definition readers_total {vec} (env : disk vec) : Prop :=
  listdir env <> None
  /\ forall path,
       pdf_page_texts env path <> None
       /\ read_text env path <> None
       /\ docx_paragraphs env path <> None.

(** The database is in rowid order and knows the session. *)
Definition sound {vec} (session_id : str) (w : world vec) : Prop :=
  wf_db (w_db w) /\ session_exists (w_db w) session_id = true.

(** A computation that keeps the database sound. *)
Definition Keeps {vec A} (session_id : str) (m : M vec A) : Prop :=
  forall w, sound session_id w -> sound session_id (snd (m w)).


(** Services whose chat model answers every request alike. *)
Definition answering_services : services str :=
  Services (fun n => Z.of_nat n) (lit "uuid")
    (fun text => Some text) []
    (fun _ _ _ => Some (QueryResult [lit "Beitrag"] [None]))
    (fun _ _ => Some (Some (lit " ok" ++ nl))).

(** The first code point of a UTF-8 byte string over the code points
    0..255, and the bytes after it. *)
Definition utf8_first (bytes : list Byte.byte)
  : option (ascii * list Byte.byte) :=
  match bytes with
  | [] => None
  | b :: rest =>
      let n := code (ascii_of_byte b) in
      if n <? 128 then Some (ascii_of_byte b, rest)
      else
        match rest with
        | b' :: rest' =>
            Some (chr ((n - 192) * 64 + (code (ascii_of_byte b') - 128)),
                  rest')
        | [] => None
        end
  end.

(** The first code point of a UTF-8 byte string and the bytes after it. *)
Definition utf8_point (bytes : list Z) : option (Z * list Z) :=
  match bytes with
  | [] => None
  | b0 :: r0 =>
      if b0 <? 128 then Some (b0, r0)
      else
        match r0 with
        | [] => None
        | b1 :: r1 =>
            if b0 <? 224 then Some ((b0 - 192) * 64 + (b1 - 128), r1)
            else
              match r1 with
              | [] => None
              | b2 :: r2 =>
                  if b0 <? 240 then
                    Some (((b0 - 224) * 64 + (b1 - 128)) * 64 + (b2 - 128),
                          r2)
                  else
                    match r2 with
                    | [] => None
                    | b3 :: r3 =>
                        Some ((((b0 - 240) * 64 + (b1 - 128)) * 64
                               + (b2 - 128)) * 64 + (b3 - 128),
                              r3)
                    end
              end
        end
  end.

(** A byte as a number. *)
Definition byte_value (b : Byte.byte) : Z := code (ascii_of_byte b).

(** The bytes hashed for a chunk of a file. *)
Definition hashed_bytes (filename : str) (item : option Z * Z * str)
  : list Byte.byte :=
  let '(page, chunk_idx, chunk) := item in
  SHA256.encode_utf8 (stable_key filename page chunk_idx chunk).

(** Page (0 for none) and index of a chunk. *)
Definition place (item : option Z * Z * str) : Z * Z :=
  let '(page, chunk_idx, _) := item in (or_zero page, chunk_idx).

End Behaviour.

Import Behaviour.

(* ========================================================================= *)
(** * Properties *)
(* ========================================================================= *)

(* ------------------------------------------------------------------------- *)
(** ** The embedding at work *)
(* ------------------------------------------------------------------------- *)

Section Evaluation.

Example classify_satzung_wins :
  classify_doc_type (lit "FFI_Satzung_Datenschutz.PDF") = lit "satzung".
Proof. reflexivity. Qed.

Example classify_sponsor_list :
  classify_doc_type (lit "Sponsorenliste.docx") = lit "sponsoring".
Proof. reflexivity. Qed.

Example classify_notes : classify_doc_type (lit "notes.md") = lit "other".
Proof. reflexivity. Qed.

(** Three paragraphs between blank and padded lines, budget 5. *)
Example chunk_text_plain :
  chunk_text (lit "ab" ++ nl ++ lit "cd" ++ nl ++ nl ++ lit "  efgh ") 5 0
  = [lit "ab" ++ nl ++ lit "cd"; lit "efgh"].
Proof. reflexivity. Qed.

Example chunk_text_overlapping :
  chunk_text (lit "ab" ++ nl ++ lit "cd" ++ nl ++ nl ++ lit "  efgh ") 5 3
  = [lit "ab" ++ nl ++ lit "cd"; lit "cd" ++ nl ++ lit "efgh"].
Proof. reflexivity. Qed.

Example strip_unicode_blanks :
  strip (chr 160 :: chr 28 :: lit " a b" ++ [chr 133; chr 9]) = lit "a b".
Proof. reflexivity. Qed.

Example session_s_after_trim :
  map m_id (messages (delete_oldest_messages sample_db (lit "s") 1)) = [2; 4].
Proof. reflexivity. Qed.

Example bad_role_rejected :
  append_message sample_db (lit "s") (lit "system") (lit "x") 20 = None.
Proof. reflexivity. Qed.

Example unknown_session_rejected :
  append_message sample_db (lit "u") (lit "user") (lit "x") 20 = None.
Proof. reflexivity. Qed.

Example context_block :
  fst (retrieve_context sample_services (lit "Beitrag?") 8 (boot init_db))
  = Some (lit "[a.txt | other | chunk 0]" ++ nl ++ lit "Beitrag"
          ++ nl ++ nl ++ lit "---" ++ nl ++ nl
          ++ lit "[unbekannt | unknown]" ++ nl ++ lit "Haftung").
Proof. reflexivity. Qed.

(** Twenty-one messages, summarizer answering: the summary is stored and
    twelve messages stay, fourteen after the turn itself. *)
Example compaction_succeeds :
  let env :=
    Services (fun _ => 30) (lit "uuid") (fun text => Some text) []
      (fun _ _ _ => Some (QueryResult [] []))
      (fun _ _ => Some (Some (lit " - Fakt "))) in
  let w := snd (chat (fun c q => c ++ q) (fun q => q) (fun s _ => s)
                  env sample_request (boot long_session_db)) in
  get_summary (w_db w) (lit "s") = lit "- Fakt"
  /\ count_messages (w_db w) (lit "s") = 14.
Proof. vm_compute. split; reflexivity. Qed.

End Evaluation.

(* ------------------------------------------------------------------------- *)
(** ** Whitespace stripping *)
(* ------------------------------------------------------------------------- *)

Section Stripping.

Lemma isspace_nl : forall c, code c = 10 -> isspace c = true.
Proof. intros c H. unfold isspace. rewrite H. reflexivity. Qed.

Lemma lstrip_starts_ok : forall s, starts_ok s = true -> lstrip s = s.
Proof.
  intros [|c t]; simpl; [discriminate|].
  destruct (isspace c); [discriminate | reflexivity].
Qed.

Lemma lstrip_cases : forall s, lstrip s = [] \/ starts_ok (lstrip s) = true.
Proof.
  induction s as [|c t IH]; simpl; [now left|].
  destruct (isspace c) eqn:E; [exact IH|].
  right. simpl. now rewrite E.
Qed.

Lemma lstrip_suffix : forall s, exists pre, s = pre ++ lstrip s.
Proof.
  induction s as [|c t [pre IH]]; simpl.
  - now exists [].
  - destruct (isspace c).
    + exists (c :: pre). simpl. now f_equal.
    + now exists [].
Qed.

Lemma lstrip_app : forall a b, lstrip a <> [] -> lstrip (a ++ b) = lstrip a ++ b.
Proof.
  induction a as [|c t IH]; simpl; intros b H; [congruence|].
  destruct (isspace c); [now apply IH | reflexivity].
Qed.

Lemma starts_ok_app : forall a b, starts_ok a = true -> starts_ok (a ++ b) = true.
Proof. intros [|c t] b; simpl; [discriminate | trivial]. Qed.

Lemma ends_ok_app : forall a b, ends_ok b = true -> ends_ok (a ++ b) = true.
Proof.
  intros a b H. unfold ends_ok in *. rewrite rev_app_distr.
  now apply starts_ok_app.
Qed.

Lemma starts_ok_nonempty : forall s, starts_ok s = true -> s <> [].
Proof. intros [|c t]; simpl; [discriminate | discriminate]. Qed.

Lemma ends_ok_nonempty : forall s, ends_ok s = true -> s <> [].
Proof.
  intros s H ->. discriminate H.
Qed.

Lemma ends_ok_cons : forall c t, t <> [] -> ends_ok (c :: t) = ends_ok t.
Proof.
  intros c t H. unfold ends_ok. simpl.
  destruct (rev t) eqn:E.
  - apply (f_equal (@rev ascii)) in E. rewrite rev_involutive in E.
    simpl in E. congruence.
  - reflexivity.
Qed.

Lemma ends_ok_lstrip : forall s, ends_ok s = true -> ends_ok (lstrip s) = true.
Proof.
  induction s as [|c t IH]; simpl; intros H; [exact H|].
  destruct (isspace c) eqn:E; [|exact H].
  destruct t as [|d t'].
  - unfold ends_ok in H. simpl in H. rewrite E in H. discriminate.
  - apply IH. rewrite ends_ok_cons in H; [exact H | discriminate].
Qed.

Lemma rstrip_ends_ok : forall s, ends_ok s = true -> rstrip s = s.
Proof.
  intros s H. unfold rstrip. rewrite lstrip_starts_ok by exact H.
  apply rev_involutive.
Qed.

Lemma strip_trimmed : forall s, Trimmed s -> strip s = s.
Proof.
  intros s [H1 H2]. unfold strip. rewrite lstrip_starts_ok by exact H1.
  now apply rstrip_ends_ok.
Qed.

Lemma strip_empty : strip [] = [].
Proof. reflexivity. Qed.

(** What survives stripping is trimmed. *)
Lemma strip_is_trimmed : forall s, strip s <> [] -> Trimmed (strip s).
Proof.
  intros s H. unfold strip, rstrip in *.
  destruct (lstrip_cases s) as [E|E].
  - rewrite E in H. simpl in H. congruence.
  - destruct (lstrip_cases (rev (lstrip s))) as [F|F].
    + rewrite F in H. simpl in H. congruence.
    + split.
      * change (ends_ok (lstrip (rev (lstrip s))) = true).
        apply ends_ok_lstrip. unfold ends_ok. now rewrite rev_involutive.
      * unfold ends_ok. now rewrite rev_involutive.
Qed.

(** Stripping a text that ends in a trimmed piece only eats leading
    whitespace. *)
Lemma strip_app_ends_ok : forall a b,
  lstrip a <> [] -> ends_ok b = true -> strip (a ++ b) = lstrip a ++ b.
Proof.
  intros a b Ha Hb. unfold strip. rewrite lstrip_app by exact Ha.
  apply rstrip_ends_ok. now apply ends_ok_app.
Qed.

Lemma strip_nl_para : forall p, Trimmed p -> strip (nl ++ p) = p.
Proof.
  intros p Hp. unfold strip. simpl.
  fold (strip p). now apply strip_trimmed.
Qed.

Lemma strip_joined : forall a b, Trimmed a -> Trimmed b ->
  strip (a ++ nl ++ b) = a ++ nl ++ b.
Proof.
  intros a b [Ha _] [_ Hb]. apply strip_trimmed. split.
  - now apply starts_ok_app.
  - apply ends_ok_app. now apply ends_ok_app.
Qed.

Lemma nl_free_lstrip : forall s, nl_free s -> nl_free (lstrip s).
Proof.
  intros s H. destruct (lstrip_suffix s) as [pre E].
  unfold nl_free in *. rewrite E in H. apply Forall_app in H. tauto.
Qed.

Lemma nl_free_strip : forall s, nl_free s -> nl_free (strip s).
Proof.
  intros s H. unfold strip, rstrip, nl_free.
  apply Forall_rev. apply nl_free_lstrip. apply Forall_rev.
  now apply nl_free_lstrip.
Qed.

Lemma lstrip_blank_prefix : forall s,
  exists pre, s = pre ++ lstrip s /\ forallb isspace pre = true.
Proof.
  induction s as [|c t [pre [E B]]]; simpl.
  - now exists [].
  - destruct (isspace c) eqn:W.
    + exists (c :: pre). simpl. rewrite W, B. split; [now f_equal | reflexivity].
    + now exists [].
Qed.

(** [strip] cuts a run of whitespace from each end, and what is left is
    empty or trimmed. *)
Lemma strip_decompose : forall s,
  exists pre post,
    s = pre ++ strip s ++ post
    /\ forallb isspace pre = true /\ forallb isspace post = true
    /\ (strip s = [] \/ Trimmed (strip s)).
Proof.
  intros s.
  destruct (lstrip_blank_prefix s) as [pre [E B]].
  destruct (lstrip_blank_prefix (rev (lstrip s))) as [tsop [F C]].
  exists pre, (rev tsop). repeat split.
  - rewrite E at 1. f_equal. unfold strip, rstrip.
    rewrite <- rev_app_distr, <- F. now rewrite rev_involutive.
  - exact B.
  - rewrite forallb_forall in *. intros c Hc. apply C. now apply in_rev.
  - destruct (strip s) eqn:S; [now left | right].
    rewrite <- S. apply strip_is_trimmed. now rewrite S.
Qed.

End Stripping.


(* ------------------------------------------------------------------------- *)
(** ** Lines, paragraphs and joins *)
(* ------------------------------------------------------------------------- *)

Section Lines.

Lemma truthy_true : forall (A : Type) (l : list A), truthy l = true <-> l <> [].
Proof. intros A [|x l]; simpl; split; congruence. Qed.

Lemma truthy_false : forall (A : Type) (l : list A), truthy l = false <-> l = [].
Proof. intros A [|x l]; simpl; split; congruence. Qed.

Lemma len_app : forall (A : Type) (a b : list A), len (a ++ b) = len a + len b.
Proof. intros. unfold len. rewrite length_app. lia. Qed.

Lemma len_nl : len nl = 1.
Proof. reflexivity. Qed.

Lemma split_nl_fields : forall s, Forall nl_free (split_nl s).
Proof.
  induction s as [|c t IH]; simpl.
  - repeat constructor.
  - destruct (code c =? 10) eqn:E.
    + constructor; [constructor | exact IH].
    + apply Z.eqb_neq in E. destruct (split_nl t) as [|h r].
      * repeat constructor. exact E.
      * inversion IH; subst. constructor; [now constructor | assumption].
Qed.

Lemma split_nl_line : forall s, nl_free s -> split_nl s = [s].
Proof.
  induction s as [|c t IH]; intros H; simpl; [reflexivity|].
  inversion H; subst. apply Z.eqb_neq in H2. rewrite H2.
  now rewrite IH.
Qed.

Lemma split_nl_app : forall a b, nl_free a ->
  split_nl (a ++ nl ++ b) = a :: split_nl b.
Proof.
  induction a as [|c t IH]; intros b H.
  - reflexivity.
  - inversion H; subst. apply Z.eqb_neq in H2.
    change ((c :: t) ++ nl ++ b) with (c :: (t ++ nl ++ b)).
    cbn [split_nl]. rewrite H2. now rewrite IH.
Qed.

Lemma split_nl_nonempty : forall s, split_nl s <> [].
Proof.
  intros [|c t]; simpl; [discriminate|].
  destruct (code c =? 10); [discriminate|].
  destruct (split_nl t); discriminate.
Qed.

Lemma code_nl : forall c, code c = 10 -> [c] = nl.
Proof.
  intros c H. unfold nl, chr, code in *. f_equal.
  rewrite <- (ascii_N_embedding c). f_equal. lia.
Qed.

(** Joining the fields by a line break gives the text back: with
    [split_nl_fields] this makes [split_nl] the split on line breaks. *)
Lemma join_split_nl : forall s, join nl (split_nl s) = s.
Proof.
  induction s as [|c t IH]; [reflexivity|].
  cbn [split_nl]. destruct (code c =? 10) eqn:E.
  - apply Z.eqb_eq in E.
    pose proof (split_nl_nonempty t) as N.
    destruct (split_nl t) as [|h r]; [congruence|].
    change (join nl ([] :: h :: r)) with (nl ++ join nl (h :: r)).
    rewrite IH, <- (code_nl c E). reflexivity.
  - pose proof (split_nl_nonempty t) as N.
    destruct (split_nl t) as [|h r]; [congruence|].
    rewrite <- IH. destruct r; reflexivity.
Qed.

Lemma startswith_prefix : forall p s,
  startswith p s = true <-> exists post, s = p ++ post.
Proof.
  induction p as [|a p IH]; intros s; simpl.
  - split; [now exists s | reflexivity].
  - destruct s as [|b s]; [split; [discriminate | intros [? ?]; discriminate]|].
    rewrite andb_true_iff, Ascii.eqb_eq, IH. split.
    + intros [-> [post ->]]. now exists post.
    + intros [post E]. inversion E; subst. split; [reflexivity | now exists post].
Qed.

(** The operator [in] on strings: the needle occurs somewhere in the
    haystack. *)
Lemma contains_substring : forall needle hay,
  contains needle hay = true
  <-> exists pre post, hay = pre ++ needle ++ post.
Proof.
  intros needle. induction hay as [|c t IH].
  - cbn [contains]. rewrite orb_false_r, startswith_prefix. split.
    + intros [post E]. now exists [], post.
    + intros [pre [post E]]. destruct pre; [now exists post | discriminate].
  - cbn [contains]. rewrite orb_true_iff, startswith_prefix, IH. split.
    + intros [[post E] | [pre [post E]]].
      * now exists [], post.
      * exists (c :: pre), post. now rewrite E.
    + intros [pre [post E]]. destruct pre as [|d pre].
      * left. now exists post.
      * right. inversion E; subst. now exists pre, post.
Qed.

Lemma join_cons : forall sep a l, l <> [] ->
  join sep (a :: l) = a ++ sep ++ join sep l.
Proof. intros sep a [|b l] H; [congruence | reflexivity]. Qed.

Lemma join_app : forall sep l1 l2, l1 <> [] -> l2 <> [] ->
  join sep (l1 ++ l2) = join sep l1 ++ sep ++ join sep l2.
Proof.
  induction l1 as [|a l1 IH]; intros l2 H1 H2; [congruence|].
  destruct l1 as [|b l1].
  - simpl app at 1. now rewrite join_cons.
  - change ((a :: b :: l1) ++ l2) with (a :: ((b :: l1) ++ l2)).
    rewrite join_cons by discriminate.
    rewrite IH by (discriminate || assumption).
    rewrite (join_cons sep a (b :: l1)) by discriminate.
    now rewrite <- !app_assoc.
Qed.

Lemma split_join : forall g, g <> [] -> Forall nl_free g ->
  split_nl (join nl g) = g.
Proof.
  induction g as [|a g IH]; intros Hne H; [congruence|].
  inversion H; subst. destruct g as [|b g].
  - simpl. now apply split_nl_line.
  - rewrite join_cons by discriminate. rewrite split_nl_app by assumption.
    f_equal. apply IH; [discriminate | assumption].
Qed.

Lemma join_trimmed : forall g, g <> [] -> Forall Trimmed g ->
  Trimmed (join nl g).
Proof.
  induction g as [|a g IH]; intros Hne H; [congruence|].
  inversion H as [|? ? [Ha1 Ha2] Hg]; subst. destruct g as [|b g].
  - simpl. now split.
  - rewrite join_cons by discriminate.
    destruct IH as [_ E]; [discriminate | assumption |].
    split; [now apply starts_ok_app | now do 2 apply ends_ok_app].
Qed.

Lemma trimmed_nonempty : forall s, Trimmed s -> s <> [].
Proof. intros s [H _]. now apply starts_ok_nonempty. Qed.

Lemma trimmed_truthy : forall s, Trimmed s -> truthy s = true.
Proof. intros s H. apply truthy_true. now apply trimmed_nonempty. Qed.

Lemma paragraphs_para : forall text, Forall Para (paragraphs text).
Proof.
  intros text. unfold paragraphs. apply Forall_forall. intros p Hp.
  apply in_map_iff in Hp. destruct Hp as [q [<- Hq]].
  apply filter_In in Hq. destruct Hq as [Hin Ht].
  split.
  - apply strip_is_trimmed. now apply truthy_true.
  - apply nl_free_strip.
    pose proof (split_nl_fields text) as F.
    rewrite Forall_forall in F. now apply F.
Qed.

Lemma para_trimmed : forall l, Forall Para l -> Forall Trimmed l.
Proof. intros l H. eapply Forall_impl; [|exact H]. now intros a [T _]. Qed.

Lemma para_nl_free : forall l, Forall Para l -> Forall nl_free l.
Proof. intros l H. eapply Forall_impl; [|exact H]. now intros a [_ T]. Qed.

End Lines.

(* ------------------------------------------------------------------------- *)
(** ** The accumulation loop *)
(* ------------------------------------------------------------------------- *)

Section Accumulation.

Variable max_chars : Z.

Lemma buffer_plus_join : forall g p, Forall Trimmed g ->
  buffer_plus (join nl g) p = join nl (g ++ [p]).
Proof.
  intros g p H. unfold buffer_plus. destruct g as [|a g].
  - reflexivity.
  - rewrite trimmed_truthy by (apply join_trimmed; [discriminate | exact H]).
    now rewrite join_app by discriminate.
Qed.

Lemma flush_join : forall g, Forall Trimmed g ->
  flush (join nl g) = map (join nl) (if truthy g then [g] else []).
Proof.
  intros g H. unfold flush. destruct g as [|a g]; [reflexivity|].
  now rewrite trimmed_truthy by (apply join_trimmed; [discriminate | exact H]).
Qed.

(** The chunks are the joins of consecutive non-empty groups of
    paragraphs. *)
Lemma greedy_groups : forall paras g,
  Forall Trimmed g -> Forall Trimmed paras ->
  exists groups,
    greedy_chunks max_chars (join nl g) paras = map (join nl) groups
    /\ Forall (fun x => x <> []) groups
    /\ concat groups = g ++ paras.
Proof.
  induction paras as [|p rest IH]; intros g Hg Hp.
  - simpl. rewrite flush_join by exact Hg.
    exists (if truthy g then [g] else []). split; [reflexivity|].
    destruct g; simpl; split; auto.
    constructor; [discriminate | constructor].
  - inversion Hp; subst. simpl.
    rewrite buffer_plus_join by exact Hg.
    destruct (len (join nl (g ++ [p])) <=? max_chars).
    + destruct (IH (g ++ [p])) as [gs [E [F C]]]; [|assumption|].
      * apply Forall_app. split; [assumption | now constructor].
      * exists gs. rewrite E. repeat split; auto.
        now rewrite C, <- app_assoc.
    + destruct (IH [p]) as [gs [E [F C]]]; [now constructor | assumption |].
      simpl in E. rewrite E, flush_join by exact Hg.
      exists ((if truthy g then [g] else []) ++ gs).
      rewrite map_app. split; [reflexivity|]. split.
      * apply Forall_app. split; [|exact F].
        destruct g; simpl; [constructor|].
        constructor; [discriminate | constructor].
      * rewrite concat_app, C. destruct g; simpl; [reflexivity|].
        now rewrite app_nil_r.
Qed.

Lemma accumulate_first : forall chunks p, Trimmed p ->
  accumulate max_chars (chunks, []) p = (chunks, p).
Proof.
  intros chunks p Tp. unfold accumulate.
  rewrite app_nil_l, strip_nl_para by exact Tp.
  now destruct (len [] + len p + 1 <=? max_chars).
Qed.

Lemma accumulate_next : forall chunks cur p, Trimmed cur -> Trimmed p ->
  accumulate max_chars (chunks, cur) p
  = if len cur + len p + 1 <=? max_chars
    then (chunks, cur ++ nl ++ p) else (chunks ++ [cur], p).
Proof.
  intros chunks cur p Tc Tp. unfold accumulate.
  rewrite strip_joined by assumption.
  now rewrite (trimmed_truthy cur Tc).
Qed.

(** The loop of the source computes the chunker of the specification. *)
Lemma accumulate_greedy : forall paras chunks cur,
  Forall Trimmed paras -> cur = [] \/ Trimmed cur ->
  (let '(c, cur') := fold_left (accumulate max_chars) paras (chunks, cur) in
   if truthy cur' then c ++ [cur'] else c)
  = chunks ++ greedy_chunks max_chars cur paras.
Proof.
  induction paras as [|p rest IH]; intros chunks cur Hp Hc.
  - simpl. unfold flush. destruct (truthy cur); [reflexivity|].
    now rewrite app_nil_r.
  - inversion Hp as [|? ? Tp Hrest]; subst.
    cbn [fold_left greedy_chunks].
    destruct Hc as [-> | Tc].
    + rewrite accumulate_first by exact Tp.
      rewrite IH by auto. unfold buffer_plus, flush. cbn [truthy app].
      now destruct (len p <=? max_chars).
    + rewrite accumulate_next by assumption.
      unfold buffer_plus, flush. rewrite (trimmed_truthy cur Tc).
      rewrite !len_app, len_nl.
      replace (len cur + (1 + len p)) with (len cur + len p + 1) by lia.
      destruct (len cur + len p + 1 <=? max_chars).
      * apply IH; auto. right. rewrite <- strip_joined by assumption.
        apply strip_is_trimmed. rewrite strip_joined by assumption.
        destruct cur; [now apply trimmed_nonempty in Tc | discriminate].
      * rewrite IH by auto. now rewrite <- app_assoc.
Qed.

Lemma accumulated_greedy : forall text,
  accumulated_chunks text max_chars
  = greedy_chunks max_chars [] (paragraphs text).
Proof.
  intros text. unfold accumulated_chunks.
  pose proof (accumulate_greedy (paragraphs text) [] []
                (para_trimmed _ (paragraphs_para text)) (or_introl eq_refl))
    as H.
  destruct (fold_left (accumulate max_chars) (paragraphs text) ([], []))
    as [c cur'].
  exact H.
Qed.

End Accumulation.

(* ------------------------------------------------------------------------- *)
(** ** Shape of the accumulated chunks *)
(* ------------------------------------------------------------------------- *)

Section ChunkShape.

Variable max_chars : Z.

Lemma accumulated_groups : forall text,
  exists groups,
    accumulated_chunks text max_chars = map (join nl) groups
    /\ Forall (fun x => x <> []) groups
    /\ concat groups = paragraphs text.
Proof.
  intros text. rewrite accumulated_greedy.
  apply (greedy_groups max_chars (paragraphs text) []); [constructor|].
  apply para_trimmed, paragraphs_para.
Qed.

Lemma concat_split_join : forall groups,
  Forall (fun x => x <> []) groups -> Forall nl_free (concat groups) ->
  concat (map split_nl (map (join nl) groups)) = concat groups.
Proof.
  induction groups as [|g gs IH]; intros Hne Hf; [reflexivity|].
  inversion Hne; subst. simpl in Hf. apply Forall_app in Hf.
  destruct Hf as [Hg Hgs]. simpl.
  rewrite split_join by assumption. f_equal. now apply IH.
Qed.

Lemma concat_nonempty : forall (A : Type) (g : list A) gs,
  g <> [] -> concat (g :: gs) <> [].
Proof. intros A [|x g] gs H; simpl; congruence. Qed.

Lemma join_join_concat : forall groups,
  Forall (fun x => x <> []) groups ->
  join nl (map (join nl) groups) = join nl (concat groups).
Proof.
  induction groups as [|g gs IH]; intros Hne; [reflexivity|].
  inversion Hne as [|? ? Hg Hgs]; subst. destruct gs as [|h gs].
  - simpl. now rewrite app_nil_r.
  - change (map (join nl) (g :: h :: gs))
      with (join nl g :: map (join nl) (h :: gs)).
    rewrite join_cons by discriminate. rewrite IH by exact Hgs.
    change (concat (g :: h :: gs)) with (g ++ concat (h :: gs)).
    rewrite join_app; [reflexivity | exact Hg |].
    inversion Hgs; subst. now apply concat_nonempty.
Qed.

Lemma accumulated_trimmed : forall text,
  Forall Trimmed (accumulated_chunks text max_chars).
Proof.
  intros text. destruct (accumulated_groups text) as [gs [E [Hne C]]].
  rewrite E. apply Forall_forall. intros ch Hin.
  apply in_map_iff in Hin. destruct Hin as [g [<- Hg]].
  rewrite Forall_forall in Hne. apply join_trimmed; [now apply Hne|].
  apply Forall_forall. intros p Hp.
  pose proof (para_trimmed _ (paragraphs_para text)) as T.
  rewrite Forall_forall in T. apply T. rewrite <- C.
  apply in_concat. now exists g.
Qed.

Lemma buffer_plus_trimmed : forall buf p,
  buf = [] \/ Trimmed buf -> Trimmed p -> Trimmed (buffer_plus buf p).
Proof.
  intros buf p [-> | Tb] Tp; unfold buffer_plus; [exact Tp|].
  rewrite (trimmed_truthy buf Tb). destruct Tb as [B1 _], Tp as [_ P2].
  split; [now apply starts_ok_app | now do 2 apply ends_ok_app].
Qed.

Lemma len_buffer_plus : forall buf p, len p <= len (buffer_plus buf p).
Proof.
  intros buf p. unfold buffer_plus. destruct (truthy buf); [|lia].
  rewrite !len_app. unfold len. lia.
Qed.

Lemma greedy_oversized_head : forall p rest,
  Trimmed p -> len p > max_chars ->
  exists tl, greedy_chunks max_chars p rest = p :: tl.
Proof.
  intros p [|q r] Tp Hp; simpl.
  - unfold flush. rewrite (trimmed_truthy p Tp). now exists [].
  - pose proof (len_buffer_plus p q) as L.
    unfold buffer_plus in *. rewrite (trimmed_truthy p Tp) in *.
    assert (E : (len (p ++ nl ++ q) <=? max_chars) = false).
    { apply Z.leb_gt. rewrite !len_app. unfold len in *. lia. }
    rewrite E. unfold flush. rewrite (trimmed_truthy p Tp).
    now eexists.
Qed.

(** A paragraph longer than the budget is a chunk of its own. *)
Lemma greedy_oversized : forall paras buf p,
  Forall Trimmed paras -> buf = [] \/ Trimmed buf ->
  In p paras -> len p > max_chars ->
  In p (greedy_chunks max_chars buf paras).
Proof.
  induction paras as [|q rest IH]; intros buf p Hp Hb Hin Hlen;
    [contradiction|].
  inversion Hp as [|? ? Tq Hrest]; subst. simpl.
  destruct Hin as [-> | Hin].
  - pose proof (len_buffer_plus buf p) as L.
    assert (E : (len (buffer_plus buf p) <=? max_chars) = false)
      by (apply Z.leb_gt; lia).
    rewrite E. apply in_or_app. right.
    destruct (greedy_oversized_head p rest Tq Hlen) as [tl ->]. now left.
  - destruct (len (buffer_plus buf q) <=? max_chars).
    + apply IH; auto. right. now apply buffer_plus_trimmed.
    + apply in_or_app. right. apply IH; auto.
Qed.

End ChunkShape.

(* ------------------------------------------------------------------------- *)
(** ** Claims on the chunker *)
(* ------------------------------------------------------------------------- *)

Section ChunkerClaims.

Lemma chunk_text_no_overlap : forall text max_chars,
  chunk_text text max_chars 0 = accumulated_chunks text max_chars.
Proof. reflexivity. Qed.

Lemma chunk_text_short : forall text max_chars overlap,
  (length (accumulated_chunks text max_chars) <= 1)%nat ->
  chunk_text text max_chars overlap = accumulated_chunks text max_chars.
Proof.
  intros text max_chars overlap H. unfold chunk_text.
  assert (E : (len (accumulated_chunks text max_chars) >? 1) = false).
  { unfold len. rewrite Z.gtb_ltb. apply Z.ltb_ge. lia. }
  rewrite E. now rewrite andb_false_r.
Qed.

(** C3.  The accumulation loop of [chunk_text] is the greedy chunker of the
    specification: a paragraph is joined to the buffer by a newline exactly
    when buffer plus paragraph fit into [max_chars], otherwise the buffer is
    emitted and the paragraph opens the next buffer, and the last non-empty
    buffer is emitted at the end.  A paragraph longer than [max_chars] is a
    chunk of its own, a text of one paragraph gives that paragraph as its
    only chunk, and a text without paragraphs (the empty text among them)
    gives no chunk. *)
Theorem chunk_text_greedy_accumulation : forall text max_chars,
  accumulated_chunks text max_chars
  = greedy_chunks max_chars [] (paragraphs text)
  /\ chunk_text text max_chars 0
     = greedy_chunks max_chars [] (paragraphs text)
  /\ (forall p, In p (paragraphs text) -> len p > max_chars ->
        In p (accumulated_chunks text max_chars))
  /\ (forall p overlap, paragraphs text = [p] ->
        chunk_text text max_chars overlap = [p])
  /\ (forall overlap, paragraphs text = [] ->
        chunk_text text max_chars overlap = [])
  /\ (forall overlap, chunk_text [] max_chars overlap = []).
Proof.
  intros text max_chars.
  pose proof (accumulated_greedy max_chars text) as G.
  pose proof (para_trimmed _ (paragraphs_para text)) as T.
  split; [exact G|]. split; [now rewrite chunk_text_no_overlap|].
  split; [|split; [|split]].
  - intros p Hin Hlen. rewrite G.
    apply greedy_oversized; auto.
  - intros p overlap E.
    assert (A : accumulated_chunks text max_chars = [p]).
    { rewrite G, E. rewrite E in T. inversion T; subst. simpl.
      unfold buffer_plus, flush. cbn [truthy app].
      rewrite (trimmed_truthy p) by assumption.
      now destruct (len p <=? max_chars). }
    rewrite chunk_text_short; [exact A | rewrite A; simpl; lia].
  - intros overlap E.
    assert (A : accumulated_chunks text max_chars = []) by now rewrite G, E.
    rewrite chunk_text_short; [exact A | rewrite A; simpl; lia].
  - intros overlap. unfold chunk_text. cbn. now rewrite andb_false_r.
Qed.

(** C4.  The chunks before overlap prefixing, each split on newlines and
    concatenated in order, are the paragraph stream of the input; with
    [overlap = 0] these chunks are the output, and joined by newlines they
    equal the paragraph stream joined by newlines.  The paragraphs are
    non-empty, trimmed and free of line breaks. *)
Theorem chunks_reconstruct_paragraphs : forall text max_chars,
  concat (map split_nl (accumulated_chunks text max_chars)) = paragraphs text
  /\ chunk_text text max_chars 0 = accumulated_chunks text max_chars
  /\ join nl (chunk_text text max_chars 0) = join nl (paragraphs text)
  /\ Forall Para (paragraphs text).
Proof.
  intros text max_chars.
  destruct (accumulated_groups max_chars text) as [gs [E [Hne C]]].
  rewrite chunk_text_no_overlap, E.
  split; [|split; [reflexivity|split; [|apply paragraphs_para]]].
  - rewrite concat_split_join; [exact C | exact Hne |].
    rewrite C. apply para_nl_free, paragraphs_para.
  - rewrite join_join_concat by exact Hne. now rewrite C.
Qed.

End ChunkerClaims.

(* ------------------------------------------------------------------------- *)
(** ** The overlap block *)
(* ------------------------------------------------------------------------- *)

Section Overlap.

Lemma length_enumerate : forall (A : Type) (l : list A),
  length (enumerate l) = length l.
Proof.
  intros. unfold enumerate. rewrite length_combine, length_seq.
  apply Nat.min_id.
Qed.

Lemma nth_map_enumerate : forall (A B : Type) (f : nat * A -> B) l i d d',
  (i < length l)%nat ->
  nth i (map f (enumerate l)) d = f (i, nth i l d').
Proof.
  intros A B f l i d d' H.
  rewrite (nth_indep _ d (f (O, d')))
    by now rewrite length_map, length_enumerate.
  rewrite map_nth. unfold enumerate.
  rewrite combine_nth by apply length_seq.
  now rewrite seq_nth.
Qed.

Lemma length_overlapped : forall chunks overlap,
  length (overlapped chunks overlap) = length chunks.
Proof.
  intros. unfold overlapped. now rewrite length_map, length_enumerate.
Qed.

(** For a positive overlap the prefix taken by the source is the trailing
    [overlap] characters, or the whole chunk. *)
Lemma prefix_trailing : forall prev overlap, 0 < overlap ->
  (if len prev >? overlap then slice_from prev (- overlap) else prev)
  = trailing overlap prev.
Proof.
  intros prev overlap H. unfold trailing, slice_from, clamp_index, len.
  destruct (Z.of_nat (length prev) >? overlap) eqn:E.
  - rewrite Z.gtb_ltb in E. apply Z.ltb_lt in E.
    assert (F : (- overlap <? 0) = true) by (apply Z.ltb_lt; lia).
    rewrite F. f_equal. lia.
  - rewrite Z.gtb_ltb in E. apply Z.ltb_ge in E.
    replace (length prev - Z.to_nat overlap)%nat with O by lia.
    reflexivity.
Qed.

Lemma starts_ok_app_l : forall a b, a <> [] ->
  starts_ok (a ++ b) = starts_ok a.
Proof. intros [|c a] b H; [congruence | reflexivity]. Qed.

Lemma ends_ok_skipn : forall s n, (n < length s)%nat ->
  ends_ok (skipn n s) = ends_ok s.
Proof.
  intros s n H. unfold ends_ok.
  rewrite <- (firstn_skipn n s) at 2. rewrite rev_app_distr.
  rewrite starts_ok_app_l; [reflexivity|].
  intros E. apply (f_equal (@length ascii)) in E.
  rewrite length_rev, length_skipn in E. simpl in E. lia.
Qed.

Lemma length_lstrip : forall s, (length (lstrip s) <= length s)%nat.
Proof.
  intros s. destruct (lstrip_suffix s) as [pre E].
  rewrite E at 2. rewrite length_app. lia.
Qed.

(** The stripped prefix: a non-empty suffix of the previous chunk, at most
    [overlap] characters long. *)
Lemma stripped_prefix : forall prev overlap, 0 < overlap -> Trimmed prev ->
  let sfx := lstrip (trailing overlap prev) in
  sfx <> [] /\ suffix_of sfx prev /\ len sfx <= overlap.
Proof.
  intros prev overlap Hov [P1 P2]. cbv zeta.
  pose proof (starts_ok_nonempty prev P1) as Hne.
  assert (Hl : (0 < length prev)%nat) by (destruct prev; simpl; [congruence | lia]).
  split; [|split].
  - apply ends_ok_nonempty, ends_ok_lstrip. unfold trailing.
    rewrite ends_ok_skipn by lia. exact P2.
  - destruct (lstrip_suffix (trailing overlap prev)) as [pre E].
    exists (firstn (length prev - Z.to_nat overlap) prev ++ pre).
    rewrite <- app_assoc, <- E. unfold trailing.
    now rewrite firstn_skipn.
  - pose proof (length_lstrip (trailing overlap prev)) as L.
    unfold trailing in *. rewrite length_skipn in L. unfold len. lia.
Qed.

Lemma nth_overlapped : forall chunks overlap i,
  0 < overlap -> Forall Trimmed chunks -> (1 <= i < length chunks)%nat ->
  nth i (overlapped chunks overlap) []
  = lstrip (trailing overlap (nth (i - 1) chunks [])) ++ nl ++ nth i chunks [].
Proof.
  intros chunks overlap i Hov T Hi. unfold overlapped.
  etransitivity; [apply (nth_map_enumerate str str) with (d' := []); lia|].
  destruct i as [|j]; [lia|].
  replace (S j - 1)%nat with j by lia.
  rewrite prefix_trailing by exact Hov.
  rewrite Forall_forall in T.
  assert (Tp : Trimmed (nth j chunks [])) by (apply T, nth_In; lia).
  assert (Tc : Trimmed (nth (S j) chunks [])) by (apply T, nth_In; lia).
  apply strip_app_ends_ok.
  - now apply stripped_prefix.
  - apply ends_ok_app. apply Tc.
Qed.

End Overlap.

Section OverlapClaim.

(** C2 (as the code has it).  When chunking gives more than one chunk and
    [overlap > 0], the output has as many chunks as the accumulation, the
    first is unchanged, and each later one is the trailing [overlap]
    characters of the previous accumulated chunk (the whole chunk when it is
    not longer), with leading whitespace stripped, then a newline, then its
    own accumulated content.  What is left of the prefix is a non-empty
    suffix of the predecessor of at most [overlap] characters, so every
    chunk after the first begins with the last <= overlap characters of its
    predecessor. *)
Theorem chunk_text_overlap_prefix : forall text max_chars overlap,
  0 < overlap ->
  (1 < length (accumulated_chunks text max_chars))%nat ->
  let pre := accumulated_chunks text max_chars in
  let out := chunk_text text max_chars overlap in
  length out = length pre
  /\ nth 0 out [] = nth 0 pre []
  /\ forall i, (1 <= i < length pre)%nat ->
       let sfx := lstrip (trailing overlap (nth (i - 1) pre [])) in
       nth i out [] = sfx ++ nl ++ nth i pre []
       /\ sfx <> []
       /\ suffix_of sfx (nth (i - 1) pre [])
       /\ len sfx <= overlap.
Proof.
  intros text max_chars overlap Hov Hlen pre out.
  assert (E : out = overlapped pre overlap).
  { unfold out, chunk_text. fold pre.
    assert (A : (overlap =? 0) = false) by (apply Z.eqb_neq; lia).
    assert (B : (len pre >? 1) = true).
    { rewrite Z.gtb_ltb. apply Z.ltb_lt. unfold len, pre. lia. }
    now rewrite A, B. }
  pose proof (accumulated_trimmed max_chars text) as T. fold pre in T.
  rewrite E. split; [apply length_overlapped|]. split.
  - unfold overlapped.
    etransitivity;
      [apply (nth_map_enumerate str str) with (d' := []); unfold pre; lia|].
    reflexivity.
  - intros i Hi sfx. split.
    + now apply nth_overlapped.
    + apply stripped_prefix; [exact Hov|].
      rewrite Forall_forall in T. apply T, nth_In. lia.
Qed.

(** Two paragraphs, budget 3, overlap 2: the second chunk carries the
    stripped prefix. *)
Lemma chunk_text_overlap_prefix_witness :
  nth 1 (chunk_text (lit "a b" ++ nl ++ lit "cd") 3 2) []
  = lit "b" ++ nl ++ lit "cd".
Proof.
  refine (proj1 (proj2 (proj2
    (chunk_text_overlap_prefix (lit "a b" ++ nl ++ lit "cd") 3 2 _ _))
    1%nat _)).
  - lia.
  - vm_compute. lia.
  - vm_compute. lia.
Defined.

(** C2 as worded fails: the two trailing characters of the first chunk are
    a blank and a letter, the blank is stripped from the second chunk. *)
Lemma overlap_verbatim_fails :
  ~ overlap_verbatim (lit "a b" ++ nl ++ lit "cd") 3 2.
Proof.
  intros H. specialize (H 1%nat). vm_compute in H.
  assert (L : (1 <= 1 < 2)%nat) by lia.
  specialize (H L). discriminate H.
Qed.

(** A text whose middle paragraph exceeds the budget. *)
Lemma chunk_text_greedy_accumulation_witness :
  In (lit "abcdef")
     (accumulated_chunks (lit "ab" ++ nl ++ lit "abcdef" ++ nl ++ lit "c") 4).
Proof.
  apply (proj1 (proj2 (proj2
    (chunk_text_greedy_accumulation
       (lit "ab" ++ nl ++ lit "abcdef" ++ nl ++ lit "c") 4)))).
  - vm_compute. right. left. reflexivity.
  - reflexivity.
Defined.

End OverlapClaim.

(* ------------------------------------------------------------------------- *)
(** ** Document types *)
(* ------------------------------------------------------------------------- *)

Section Classification.

Lemma lower_char_idempotent : forall c, lower_char (lower_char c) = lower_char c.
Proof. intros [[] [] [] [] [] [] [] []]; reflexivity. Qed.

Lemma lower_idempotent : forall s, lower (lower s) = lower s.
Proof.
  intros s. unfold lower. rewrite map_map. apply map_ext.
  exact lower_char_idempotent.
Qed.

Lemma classify_first_match : forall filename,
  classify_doc_type filename = first_match doc_type_rules (lower filename).
Proof.
  intros filename. unfold classify_doc_type, first_match, doc_type_rules.
  cbn [find existsb fst snd]. rewrite !orb_false_r.
  destruct (contains (lit "satzung") (lower filename)); [reflexivity|].
  destruct (contains (lit "datenschutz") (lower filename)); [reflexivity|].
  destruct (contains (lit "event") (lower filename)
            || contains (lit "terms") (lower filename)); [reflexivity|].
  now destruct (contains (lit "spons") (lower filename)
                || contains (lit "partner") (lower filename)).
Qed.

(** C9.  The document type of a filename lies in the closed set
    satzung, datenschutz, event_terms, sponsoring, other; it is the type of
    the first heuristic, in the order satzung, datenschutz, event/terms,
    sponsoring/partner, with a keyword that occurs in the lowercased
    filename, and other when none occurs; filenames that agree up to case
    get the same type.  The type is satzung exactly when that word is a
    substring of the lowercased filename, and other exactly when no keyword
    of the heuristics is. *)
Theorem classify_doc_type_closed_priority : forall filename,
  let fn := lower filename in
  In (classify_doc_type filename) DOC_TYPES
  /\ classify_doc_type filename = first_match doc_type_rules fn
  /\ (contains (lit "satzung") fn = true ->
        classify_doc_type filename = lit "satzung")
  /\ (contains (lit "satzung") fn = false ->
      contains (lit "datenschutz") fn = true ->
        classify_doc_type filename = lit "datenschutz")
  /\ (contains (lit "satzung") fn = false ->
      contains (lit "datenschutz") fn = false ->
      contains (lit "event") fn || contains (lit "terms") fn = true ->
        classify_doc_type filename = lit "event_terms")
  /\ (contains (lit "satzung") fn = false ->
      contains (lit "datenschutz") fn = false ->
      contains (lit "event") fn || contains (lit "terms") fn = false ->
      contains (lit "spons") fn || contains (lit "partner") fn = true ->
        classify_doc_type filename = lit "sponsoring")
  /\ (contains (lit "satzung") fn = false ->
      contains (lit "datenschutz") fn = false ->
      contains (lit "event") fn || contains (lit "terms") fn = false ->
      contains (lit "spons") fn || contains (lit "partner") fn = false ->
        classify_doc_type filename = lit "other")
  /\ classify_doc_type (lower filename) = classify_doc_type filename
  /\ (forall other, lower other = lower filename ->
        classify_doc_type other = classify_doc_type filename)
  /\ (classify_doc_type filename = lit "satzung"
      <-> exists pre post, fn = pre ++ lit "satzung" ++ post)
  /\ (classify_doc_type filename = lit "other"
      <-> forall kw, In kw (flat_map fst doc_type_rules) ->
            ~ exists pre post, fn = pre ++ kw ++ post).
Proof.
  intros filename fn.
  assert (Top : classify_doc_type filename = lit "satzung"
                <-> exists pre post, fn = pre ++ lit "satzung" ++ post).
  { rewrite <- contains_substring. unfold classify_doc_type. fold fn.
    destruct (contains (lit "satzung") fn); [tauto|].
    destruct (contains (lit "datenschutz") fn);
      [split; discriminate|].
    destruct (contains (lit "event") fn || contains (lit "terms") fn);
      [split; discriminate|].
    destruct (contains (lit "spons") fn || contains (lit "partner") fn);
      split; discriminate. }
  assert (Bottom : classify_doc_type filename = lit "other"
                   <-> forall kw, In kw (flat_map fst doc_type_rules) ->
                         ~ exists pre post, fn = pre ++ kw ++ post).
  { unfold classify_doc_type. fold fn. cbn [flat_map doc_type_rules fst app].
    destruct (contains (lit "satzung") fn) eqn:E1.
    { split; [discriminate|]. intros H. exfalso.
      apply (H (lit "satzung")); [simpl; tauto|].
      now apply contains_substring. }
    destruct (contains (lit "datenschutz") fn) eqn:E2.
    { split; [discriminate|]. intros H. exfalso.
      apply (H (lit "datenschutz")); [simpl; tauto|].
      now apply contains_substring. }
    destruct (contains (lit "event") fn) eqn:E3.
    { split; [discriminate|]. intros H. exfalso.
      apply (H (lit "event")); [simpl; tauto|].
      now apply contains_substring. }
    destruct (contains (lit "terms") fn) eqn:E4.
    { split; [discriminate|]. intros H. exfalso.
      apply (H (lit "terms")); [simpl; tauto|].
      now apply contains_substring. }
    destruct (contains (lit "spons") fn) eqn:E5.
    { split; [discriminate|]. intros H. exfalso.
      apply (H (lit "spons")); [simpl; tauto|].
      now apply contains_substring. }
    destruct (contains (lit "partner") fn) eqn:E6.
    { split; [discriminate|]. intros H. exfalso.
      apply (H (lit "partner")); [simpl; tauto|].
      now apply contains_substring. }
    split; [|reflexivity]. intros _ kw Hkw F.
    apply contains_substring in F.
    repeat (destruct Hkw as [<- | Hkw]; [congruence|]). contradiction. }
  split.
  { unfold classify_doc_type. fold fn.
    destruct (contains (lit "satzung") fn); [simpl; tauto|].
    destruct (contains (lit "datenschutz") fn); [simpl; tauto|].
    destruct (contains (lit "event") fn || contains (lit "terms") fn);
      [simpl; tauto|].
    destruct (contains (lit "spons") fn || contains (lit "partner") fn);
      simpl; tauto. }
  split; [apply classify_first_match|].
  unfold classify_doc_type. fold fn.
  repeat split.
  - now intros ->.
  - now intros -> ->.
  - now intros -> -> ->.
  - now intros -> -> -> ->.
  - now intros -> -> -> ->.
  - unfold fn. now rewrite lower_idempotent.
  - now intros other ->.
  - apply Top.
  - apply Top.
  - apply Bottom.
  - apply Bottom.
Qed.

(** A filename with an upper-case event keyword and a sponsoring keyword:
    the event heuristic comes first. *)
Lemma classify_doc_type_closed_priority_witness :
  classify_doc_type (lit "EVENT_Sponsoring_2024.PDF") = lit "event_terms".
Proof.
  apply (proj1 (proj2 (proj2 (proj2 (proj2
    (classify_doc_type_closed_priority (lit "EVENT_Sponsoring_2024.PDF")))))));
    reflexivity.
Defined.

End Classification.

(* ------------------------------------------------------------------------- *)
(** ** Content identifiers *)
(* ------------------------------------------------------------------------- *)

Section Identifiers.

Import SHA256.

Example sha256_abc :
  hexdigest (sha256 (encode_utf8 (lit "abc")))
  = lit "ba7816bf8f01cfea414140de5dae2223b00361a396177a9cb410ff61f20015ad".
Proof. vm_compute. reflexivity. Qed.

Example sha256_two_blocks :
  hexdigest (sha256 (encode_utf8 (repeat (chr 97) 56)))
  = lit "b35439a4ac6f0948b6d6f9e3c6af0f5f590ce20f1bde7090ef7970686ec6738a".
Proof. vm_compute. reflexivity. Qed.

Example stable_id_plain_file :
  stable_id (lit "doc.txt") None 0 (lit "hello")
  = lit "f17bc6b9c5036fceb7bce917cc25d845bfa7c97ee143f96c1124a997cae14b1a".
Proof. vm_compute. reflexivity. Qed.

(** A page number and a two-byte character (a-umlaut, code point 228). *)
Example stable_id_pdf_page :
  stable_id (lit "Satzung.pdf") (Some 3) 1 (chr 228 :: lit "b")
  = lit "a1c73f9cad79f6d87764c0a2e3f6e64fa8064e1ca7a8027ccb578f2712c5f5ff".
Proof. vm_compute. reflexivity. Qed.

Lemma or_zero_page : forall page, or_zero page = page_or_0 page.
Proof.
  intros [p|]; simpl; [|reflexivity].
  destruct (p =? 0) eqn:E; [|reflexivity].
  apply Z.eqb_eq in E. now subst.
Qed.

Lemma hexdigit_is_hex : forall x, is_hex (hexdigit (Z.land x 15)) = true.
Proof.
  intros x. change 15 with (Z.ones 4). rewrite Z.land_ones by lia.
  pose proof (Z.mod_pos_bound x (2 ^ 4) eq_refl) as B.
  unfold is_hex, hexdigit. apply existsb_exists.
  exists (nth (Z.to_nat (x mod 2 ^ 4)) hex_alphabet (chr 48)).
  split; [|apply Ascii.eqb_refl].
  apply nth_In. change (length hex_alphabet) with 16%nat.
  change (2 ^ 4) with 16 in *. lia.
Qed.

Lemma length_hex8 : forall w, length (hex8 w) = 8%nat.
Proof. intros w. unfold hex8. now rewrite length_map. Qed.

Lemma hex8_is_hex : forall w, forallb is_hex (hex8 w) = true.
Proof.
  intros w. unfold hex8. apply forallb_forall. intros c Hc.
  apply in_map_iff in Hc. destruct Hc as [i [<- _]].
  apply hexdigit_is_hex.
Qed.

Lemma length_hexdigest : forall s, length (hexdigest s) = 64%nat.
Proof.
  intros s. unfold hexdigest. now rewrite !length_app, !length_hex8.
Qed.

Lemma hexdigest_is_hex : forall s, forallb is_hex (hexdigest s) = true.
Proof.
  intros s. unfold hexdigest. now rewrite !forallb_app, !hex8_is_hex.
Qed.

(** C8.  The content identifier is the SHA-256 hex digest of the UTF-8
    bytes of [source|page|chunk_idx|text], a missing page written as 0; it
    has 64 characters, all of them hex digits, and equal inputs give equal
    identifiers. *)
Theorem stable_id_sha256_hex : forall source page chunk_idx text,
  stable_id source page chunk_idx text
  = hexdigest (sha256 (encode_utf8
      (source ++ lit "|" ++ str_of_int (page_or_0 page) ++ lit "|"
       ++ str_of_int chunk_idx ++ lit "|" ++ text)))
  /\ length (stable_id source page chunk_idx text) = 64%nat
  /\ forallb is_hex (stable_id source page chunk_idx text) = true
  /\ stable_id source None chunk_idx text
     = stable_id source (Some 0) chunk_idx text
  /\ (forall source' page' chunk_idx' text',
        (source', page', chunk_idx', text') = (source, page, chunk_idx, text)
        -> stable_id source' page' chunk_idx' text'
           = stable_id source page chunk_idx text).
Proof.
  intros source page chunk_idx text. unfold stable_id, stable_key.
  split; [|split; [|split; [|split]]].
  - now rewrite or_zero_page.
  - apply length_hexdigest.
  - apply hexdigest_is_hex.
  - reflexivity.
  - intros source' page' chunk_idx' text' E. now inversion E.
Qed.

Lemma stable_id_sha256_hex_witness :
  stable_id (lit "doc.txt") None 0 (lit "hello")
  = stable_id (lit "doc.txt") None 0 (lit "hello").
Proof.
  apply (proj2 (proj2 (proj2 (proj2
    (stable_id_sha256_hex (lit "doc.txt") None 0 (lit "hello")))))).
  reflexivity.
Defined.

(** C10.  The content identifier is not injective on its input tuples: a
    missing page and page 0 give the same key string, and a source name
    with the separator in it can take over the page and chunk fields of
    another tuple; equal keys give equal identifiers. *)
Theorem stable_id_not_injective :
  (forall source chunk_idx text,
     (source, None, chunk_idx, text) <> (source, Some 0, chunk_idx, text)
     /\ stable_key source None chunk_idx text
        = stable_key source (Some 0) chunk_idx text
     /\ stable_id source None chunk_idx text
        = stable_id source (Some 0) chunk_idx text)
  /\ (lit "a|1", Some 2, 3) <> (lit "a", Some 1, 2)
  /\ stable_key (lit "a|1") (Some 2) 3 (lit "x")
     = stable_key (lit "a") (Some 1) 2 (lit "3|x")
  /\ stable_id (lit "a|1") (Some 2) 3 (lit "x")
     = stable_id (lit "a") (Some 1) 2 (lit "3|x")
  /\ ~ (forall x y : id_input, key_of x = key_of y -> x = y)
  /\ ~ (forall x y : id_input, id_of x = id_of y -> x = y).
Proof.
  split; [|split; [|split; [|split; [|split]]]].
  - intros source chunk_idx text. repeat split; discriminate.
  - discriminate.
  - reflexivity.
  - reflexivity.
  - intros H.
    specialize (H ([], None, 0, []) ([], Some 0, 0, []) eq_refl).
    discriminate H.
  - intros H.
    specialize (H ([], None, 0, []) ([], Some 0, 0, []) eq_refl).
    discriminate H.
Qed.

End Identifiers.

(* ------------------------------------------------------------------------- *)
(** ** The message table *)
(* ------------------------------------------------------------------------- *)

Section MessageTable.

Lemma str_eqb_eq : forall a b, str_eqb a b = true <-> a = b.
Proof.
  intros a b. unfold str_eqb.
  destruct (list_eq_dec ascii_dec a b); split; congruence.
Qed.

Lemma str_eqb_neq : forall a b, str_eqb a b = false <-> a <> b.
Proof.
  intros a b. unfold str_eqb.
  destruct (list_eq_dec ascii_dec a b); split; congruence.
Qed.

Lemma str_eqb_refl : forall a, str_eqb a a = true.
Proof. intros a. now apply str_eqb_eq. Qed.

Lemma sorted_app_inv : forall a b : list message_row,
  StronglySorted id_lt (a ++ b) ->
  StronglySorted id_lt a /\ StronglySorted id_lt b
  /\ (forall x y, In x a -> In y b -> m_id x < m_id y).
Proof.
  induction a as [|m a IH]; intros b H.
  - simpl in H. repeat split; [constructor | exact H | contradiction].
  - simpl in H. apply StronglySorted_inv in H. destruct H as [S F].
    destruct (IH b S) as [Sa [Sb L]].
    apply Forall_app in F. destruct F as [Fa Fb].
    repeat split; [now constructor | exact Sb |].
    intros x y [<- | Hx] Hy; [|now apply L].
    rewrite Forall_forall in Fb. now apply Fb.
Qed.

Lemma sorted_snoc : forall (l : list message_row) m,
  StronglySorted id_lt l -> Forall (fun x => m_id x < m_id m) l ->
  StronglySorted id_lt (l ++ [m]).
Proof.
  induction l as [|x l IH]; intros m S F; simpl.
  - repeat constructor.
  - apply StronglySorted_inv in S. destruct S as [S Fx].
    inversion F; subst. constructor; [now apply IH|].
    apply Forall_app. split; [exact Fx | now repeat constructor].
Qed.

Lemma sorted_filter : forall f (l : list message_row),
  StronglySorted id_lt l -> StronglySorted id_lt (filter f l).
Proof.
  induction l as [|x l IH]; intros S; simpl; [constructor|].
  apply StronglySorted_inv in S. destruct S as [S F].
  destruct (f x); [|now apply IH].
  constructor; [now apply IH|].
  rewrite Forall_forall in *. intros y Hy. apply filter_In in Hy.
  now apply F.
Qed.

Lemma insert_desc_smallest : forall m l,
  Forall (fun x => m_id m < m_id x) l -> insert_desc m l = l ++ [m].
Proof.
  induction l as [|x l IH]; intros F; simpl; [reflexivity|].
  inversion F; subst.
  assert (E : (m_id x <=? m_id m) = false) by (apply Z.leb_gt; lia).
  rewrite E. now rewrite IH.
Qed.

(** On a table in rowid order, [ORDER BY id DESC] reverses. *)
Lemma order_by_id_desc_sorted : forall l,
  StronglySorted id_lt l -> order_by_id_desc l = rev l.
Proof.
  induction l as [|m l IH]; intros S; [reflexivity|].
  apply StronglySorted_inv in S. destruct S as [S F].
  unfold order_by_id_desc in *. simpl. rewrite IH by exact S.
  apply insert_desc_smallest. apply Forall_rev. exact F.
Qed.

Lemma sql_limit_nonneg : forall (A : Type) limit (l : list A), 0 <= limit ->
  sql_limit limit l = firstn (Z.to_nat limit) l.
Proof.
  intros A limit l H. unfold sql_limit.
  assert (E : (limit <? 0) = false) by (apply Z.ltb_ge; lia).
  now rewrite E.
Qed.

Lemma sql_limit_negative : forall (A : Type) limit (l : list A), limit < 0 ->
  sql_limit limit l = l.
Proof.
  intros A limit l H. unfold sql_limit.
  assert (E : (limit <? 0) = true) by (apply Z.ltb_lt; lia).
  now rewrite E.
Qed.

(** The rows that [ORDER BY id DESC LIMIT ?] selects, back in table
    order. *)
Lemma selected_rows : forall l limit,
  StronglySorted id_lt l -> 0 <= limit ->
  rev (sql_limit limit (order_by_id_desc l)) = most_recent (Z.to_nat limit) l.
Proof.
  intros l limit S H. rewrite sql_limit_nonneg by exact H.
  rewrite order_by_id_desc_sorted by exact S.
  rewrite firstn_rev, rev_involutive. reflexivity.
Qed.

Lemma length_most_recent : forall (A : Type) n (l : list A),
  length (most_recent n l) = Nat.min n (length l).
Proof. intros. unfold most_recent. rewrite length_skipn. lia. Qed.

Lemma most_recent_split : forall (A : Type) n (l : list A),
  l = firstn (length l - n) l ++ most_recent n l.
Proof. intros. unfold most_recent. now rewrite firstn_skipn. Qed.

Lemma id_member : forall m l,
  existsb (Z.eqb (m_id m)) (map m_id l) = true
  <-> exists x, In x l /\ m_id x = m_id m.
Proof.
  intros m l. rewrite existsb_exists. split.
  - intros [i [Hi E]]. apply in_map_iff in Hi. destruct Hi as [x [<- Hx]].
    apply Z.eqb_eq in E. now exists x.
  - intros [x [Hx E]]. exists (m_id x). split; [now apply in_map|].
    apply Z.eqb_eq. now symmetry.
Qed.

(** Keeping the rows whose id is among the ids of a suffix keeps that
    suffix. *)
Lemma filter_ids_suffix : forall a b b',
  StronglySorted id_lt (a ++ b) -> (forall x, In x b' <-> In x b) ->
  filter (fun m => existsb (Z.eqb (m_id m)) (map m_id b')) (a ++ b) = b.
Proof.
  intros a b b' S Hb. destruct (sorted_app_inv a b S) as [_ [_ L]].
  rewrite filter_app.
  replace (filter _ a) with (@nil message_row).
  - simpl. apply forallb_filter_id. apply forallb_forall. intros m Hm.
    apply id_member. exists m. split; [now apply Hb | reflexivity].
  - symmetry. rewrite (filter_ext_in _ (fun _ => false)).
    + apply filter_false.
    + intros m Hm. apply not_true_is_false. intros E.
      apply id_member in E. destruct E as [x [Hx E]].
      apply Hb in Hx. specialize (L m x Hm Hx). lia.
Qed.

End MessageTable.

(* ------------------------------------------------------------------------- *)
(** ** The table stays in rowid order *)
(* ------------------------------------------------------------------------- *)

Section StoreInvariant.

Lemma wf_init_db : wf_db init_db.
Proof. split; constructor. Qed.

Lemma wf_touch_session : forall d sid now,
  wf_db d -> wf_db (touch_session d sid now).
Proof. intros d sid now H. exact H. Qed.

Lemma wf_set_summary : forall d sid summary now,
  wf_db d -> wf_db (set_summary d sid summary now).
Proof. intros d sid summary now H. exact H. Qed.

Lemma wf_append_message : forall d sid role content now d',
  wf_db d -> append_message d sid role content now = Some d' -> wf_db d'.
Proof.
  intros d sid role content now d' [S F] H. unfold append_message in H.
  destruct (role_ok role && session_exists d sid); [|discriminate].
  inversion H; subst; clear H. split; simpl.
  - apply sorted_snoc; [exact S|].
    eapply Forall_impl; [|exact F]. simpl. intros m Hm. lia.
  - apply Forall_app. split.
    + eapply Forall_impl; [|exact F]. simpl. intros m Hm. lia.
    + repeat constructor. simpl. lia.
Qed.

Lemma wf_delete_oldest_messages : forall d sid keep_last,
  wf_db d -> wf_db (delete_oldest_messages d sid keep_last).
Proof.
  intros d sid keep_last [S F]. split; simpl.
  - now apply sorted_filter.
  - rewrite Forall_forall in *. intros m Hm. apply filter_In in Hm.
    now apply F.
Qed.

(** Every database the store produces is in rowid order. *)
Lemma reachable_wf : forall d, reachable d -> wf_db d.
Proof.
  induction 1.
  - apply wf_init_db.
  - now apply wf_touch_session.
  - now apply wf_set_summary.
  - eapply wf_append_message; eassumption.
  - now apply wf_delete_oldest_messages.
Qed.

Lemma sorted_of_session : forall d sid,
  wf_db d -> StronglySorted id_lt (of_session sid (messages d)).
Proof. intros d sid [S _]. now apply sorted_filter. Qed.

End StoreInvariant.

(* ------------------------------------------------------------------------- *)
(** ** Claims on the session store *)
(* ------------------------------------------------------------------------- *)

Section StoreClaims.

Lemma filter_twice : forall (A : Type) (l : list A) (f g : A -> bool),
  filter f (filter g l) = filter (fun x => g x && f x) l.
Proof.
  intros A l f g. induction l as [|x l IH]; simpl; [reflexivity|].
  destruct (g x); simpl; [|exact IH].
  destruct (f x); now rewrite IH.
Qed.

Lemma keep_selected : forall l limit,
  StronglySorted id_lt l -> 0 <= limit ->
  filter (fun m =>
            existsb (Z.eqb (m_id m))
              (map m_id (sql_limit limit (order_by_id_desc l)))) l
  = most_recent (Z.to_nat limit) l.
Proof.
  intros l limit S H.
  pose proof (selected_rows l limit S H) as R.
  remember (sql_limit limit (order_by_id_desc l)) as sel eqn:E. clear E.
  transitivity
    (filter (fun m => existsb (Z.eqb (m_id m)) (map m_id sel))
       (firstn (length l - Z.to_nat limit) l
        ++ most_recent (Z.to_nat limit) l)).
  - f_equal. apply most_recent_split.
  - apply filter_ids_suffix.
    + now rewrite <- most_recent_split.
    + intros x. rewrite <- R. apply in_rev.
Qed.

Lemma of_session_after_delete : forall d sid keep_last,
  of_session sid (messages (delete_oldest_messages d sid keep_last))
  = filter (fun m =>
              existsb (Z.eqb (m_id m))
                (map m_id
                   (sql_limit keep_last
                      (order_by_id_desc (of_session sid (messages d))))))
      (of_session sid (messages d)).
Proof.
  intros d sid keep_last. unfold of_session at 1 3. simpl.
  rewrite !filter_twice. apply filter_ext. intros m.
  destruct (str_eqb (m_session_id m) sid); simpl; [|reflexivity].
  now rewrite negb_involutive, andb_true_r.
Qed.

Lemma other_session_after_delete : forall d sid keep_last other,
  other <> sid ->
  of_session other (messages (delete_oldest_messages d sid keep_last))
  = of_session other (messages d).
Proof.
  intros d sid keep_last other H. unfold of_session. simpl.
  rewrite filter_twice. apply filter_ext. intros m.
  destruct (str_eqb (m_session_id m) other) eqn:E.
  - apply str_eqb_eq in E.
    assert (F : str_eqb (m_session_id m) sid = false)
      by (apply str_eqb_neq; congruence).
    now rewrite F.
  - now rewrite andb_false_r.
Qed.

(** C6.  For [keep_last >= 0], [delete_oldest_messages] leaves in the
    session exactly its [min(keep_last, total)] last messages, which carry
    the largest ids, in their order, and leaves the messages of every other
    session and the session rows as they are. *)
Theorem delete_oldest_messages_keeps_recent : forall d session_id keep_last,
  wf_db d -> 0 <= keep_last ->
  let d' := delete_oldest_messages d session_id keep_last in
  let before := of_session session_id (messages d) in
  let kept := of_session session_id (messages d') in
  kept = most_recent (Z.to_nat keep_last) before
  /\ count_messages d' session_id
     = Z.min keep_last (count_messages d session_id)
  /\ (forall x y, In x before -> ~ In x kept -> In y kept ->
        m_id x < m_id y)
  /\ (forall other, other <> session_id ->
        of_session other (messages d') = of_session other (messages d))
  /\ sessions d' = sessions d
  /\ wf_db d'.
Proof.
  intros d sid keep_last W H d' before kept.
  pose proof (sorted_of_session d sid W) as S. fold before in S.
  assert (K : kept = most_recent (Z.to_nat keep_last) before).
  { unfold kept, d'. rewrite of_session_after_delete.
    now apply keep_selected. }
  split; [exact K|]. split; [|split; [|split; [|split]]].
  - unfold count_messages. fold kept before. rewrite K.
    unfold len. rewrite length_most_recent. lia.
  - intros x y Hx Hnx Hy. rewrite K in Hnx, Hy.
    rewrite (most_recent_split _ (Z.to_nat keep_last) before) in Hx, S.
    destruct (sorted_app_inv _ _ S) as [_ [_ L]].
    apply in_app_or in Hx. destruct Hx as [Hx | Hx]; [|contradiction].
    now apply L.
  - intros other Ho. now apply other_session_after_delete.
  - reflexivity.
  - now apply wf_delete_oldest_messages.
Qed.

(** Keeping the last two of the three messages of session s. *)
Lemma delete_oldest_messages_keeps_recent_witness :
  count_messages (delete_oldest_messages sample_db (lit "s") 2) (lit "s")
  = Z.min 2 (count_messages sample_db (lit "s")).
Proof.
  refine (proj1 (proj2
    (delete_oldest_messages_keeps_recent sample_db (lit "s") 2 _ _))).
  - split; vm_compute; repeat constructor; discriminate.
  - lia.
Defined.

(** C7 (as the code has it).  For a limit from 0 to 2^63 - 1 a call of
    [get_last_messages] returns the [min(limit, total)] last messages of the
    session, which carry the largest ids, oldest first, as role/content
    records; a negative limit down to -2^63 is no limit to SQLite and
    returns all messages of the session; a limit outside the signed 64-bit
    range cannot be bound, the call raises and returns nothing. *)
Theorem get_last_messages_recent_chronological : forall d session_id limit,
  wf_db d ->
  let all := of_session session_id (messages d) in
  let call := get_last_messages_call d session_id limit in
  (0 <= limit < 2 ^ 63 ->
     call = Some (map as_message (most_recent (Z.to_nat limit) all))
     /\ len (map as_message (most_recent (Z.to_nat limit) all))
        = Z.min limit (count_messages d session_id))
  /\ (- 2 ^ 63 <= limit < 0 -> call = Some (map as_message all))
  /\ (limit < - 2 ^ 63 \/ 2 ^ 63 <= limit -> call = None)
  /\ StronglySorted id_lt all.
Proof.
  intros d sid limit W all call.
  pose proof (sorted_of_session d sid W) as S. fold all in S.
  assert (B : - 2 ^ 63 <= limit < 2 ^ 63 -> sqlite_int limit = true).
  { intros H. unfold sqlite_int. apply andb_true_iff.
    split; [apply Z.leb_le | apply Z.ltb_lt]; lia. }
  split; [|split; [|split; [|exact S]]].
  - intros H. unfold call, get_last_messages_call.
    rewrite B by lia.
    assert (E : get_last_messages d sid limit
                = map as_message (most_recent (Z.to_nat limit) all)).
    { unfold get_last_messages. fold all.
      now rewrite selected_rows by (assumption || lia). }
    split; [now rewrite E|]. unfold count_messages, len. fold all.
    rewrite length_map, length_most_recent. lia.
  - intros H. unfold call, get_last_messages_call. rewrite B by lia.
    f_equal. unfold get_last_messages. fold all.
    rewrite sql_limit_negative by lia.
    rewrite order_by_id_desc_sorted by exact S.
    now rewrite rev_involutive.
  - intros H. unfold call, get_last_messages_call, sqlite_int.
    destruct H as [H | H].
    + assert (E : (- 2 ^ 63 <=? limit) = false) by (apply Z.leb_gt; lia).
      now rewrite E.
    + assert (E : (limit <? 2 ^ 63) = false) by (apply Z.ltb_ge; lia).
      rewrite E. now rewrite andb_false_r.
Qed.

Lemma get_last_messages_recent_chronological_witness :
  get_last_messages_call sample_db (lit "s") 2
  = Some [Msg (lit "assistant") (lit "b"); Msg (lit "user") (lit "c")].
Proof.
  assert (W : wf_db sample_db)
    by (split; vm_compute; repeat constructor; discriminate).
  assert (H : 0 <= 2 < 2 ^ 63) by lia.
  exact (proj1 (proj1
    (get_last_messages_recent_chronological sample_db (lit "s") 2 W) H)).
Defined.

(** C7 as worded fails for a negative limit: all three messages come back,
    not min(-1, 3) of them. *)
Lemma get_last_messages_negative_limit :
  ~ returns_min_count sample_db (lit "s") (-1).
Proof. unfold returns_min_count. vm_compute. discriminate. Qed.

End StoreClaims.

(* ------------------------------------------------------------------------- *)
(** ** Retrieval *)
(* ------------------------------------------------------------------------- *)

(** Unfolds the plumbing of the state monad. *)
Ltac run :=
  cbv beta iota zeta delta
    [bind ret emit read_db write_db read_cache write_cache time_now
     do_touch_session do_get_summary do_get_last_messages do_count_messages
     do_set_summary do_delete_oldest_messages do_append_message
     do_get_embedding do_query do_ollama];
  cbn [w_db SATZUNG_PRESENT trace fst snd].

Section Retrieval.

Variable vec : Type.

(** The presence check reads nothing of the process state and only adds
    its calls to the trace. *)
Lemma has_satzung_chunks_run : forall (env : services vec) w,
  _has_satzung_chunks env w
  = (fst (run_probe env),
     World (w_db w) (SATZUNG_PRESENT w) (trace w ++ snd (run_probe env))).
Proof.
  intros env w. unfold run_probe, _has_satzung_chunks, boot. run.
  destruct (collection_query env (zero_vec env) 1 satzung_filter); run;
    [reflexivity|].
  destruct (get_embedding env (lit "FFI Satzung")); run;
    [|now rewrite <- app_assoc].
  destruct (collection_query env v 5 None); run;
    now rewrite <- !app_assoc.
Qed.

(** What one call of [retrieve_context] does once the query embedding is
    there. *)
Lemma retrieve_context_run : forall (env : services vec) w user_text k qe,
  get_embedding env (lit "FFI " ++ user_text) = Some qe ->
  let kw := has_keyword user_text in
  let present := presence env (SATZUNG_PRESENT w) in
  let applied := if kw && present then satzung_filter else None in
  let probe_calls :=
    match SATZUNG_PRESENT w with
    | None => if kw then snd (run_probe env) else []
    | Some _ => []
    end in
  retrieve_context env user_text k w
  = (option_map format_results (collection_query env qe k applied),
     World (w_db w)
       (if kw then Some present else SATZUNG_PRESENT w)
       (trace w ++ [CallEmbedding (lit "FFI " ++ user_text)]
        ++ probe_calls ++ [CallQuery qe k applied])).
Proof.
  intros env w user_text k qe E kw present applied probe_calls.
  unfold retrieve_context.
  unfold bind at 1, do_get_embedding. run. rewrite E.
  fold (has_keyword user_text). fold kw.
  unfold applied, probe_calls, present.
  destruct kw; cbn [andb].
  - destruct (SATZUNG_PRESENT w) as [b|] eqn:C.
    + run. cbn [presence]. rewrite <- app_assoc. cbn [app].
      destruct b; now destruct (collection_query env qe k _).
    + run. rewrite has_satzung_chunks_run. run.
      cbn [presence]. rewrite <- !app_assoc. cbn [app].
      destruct (fst (run_probe env));
        now destruct (collection_query env qe k _).
  - run. rewrite <- app_assoc. cbn [app].
    destruct (SATZUNG_PRESENT w);
      now destruct (collection_query env qe k None).
Qed.

Lemma retrieve_context_no_embedding : forall (env : services vec) w user_text k,
  get_embedding env (lit "FFI " ++ user_text) = None ->
  retrieve_context env user_text k w
  = (Some [],
     World (w_db w) (SATZUNG_PRESENT w)
       (trace w ++ [CallEmbedding (lit "FFI " ++ user_text)])).
Proof.
  intros env w user_text k E. unfold retrieve_context.
  unfold bind at 1, do_get_embedding. run. now rewrite E.
Qed.

(** A cached answer outlives every later request. *)
Lemma cache_is_stable : forall reqs (w : world vec) b,
  SATZUNG_PRESENT w = Some b -> SATZUNG_PRESENT (serve reqs w) = Some b.
Proof.
  induction reqs as [|[[env user_text] k] rest IH]; intros w b C;
    [exact C|].
  cbn [serve]. apply IH.
  destruct (get_embedding env (lit "FFI " ++ user_text)) as [qe|] eqn:E.
  - rewrite (retrieve_context_run env w user_text k qe E).
    cbn [snd SATZUNG_PRESENT]. rewrite C. cbn [presence].
    now destruct (has_keyword user_text).
  - rewrite (retrieve_context_no_embedding env w user_text k E). exact C.
Qed.

End Retrieval.

Section RetrievalClaim.

Variable vec : Type.

Lemma filter_choice : forall a b : bool,
  ((if a && b then satzung_filter else None) = satzung_filter
   <-> a = true /\ b = true)
  /\ ((if a && b then satzung_filter else None) = None
      <-> ~ (a = true /\ b = true)).
Proof.
  unfold satzung_filter.
  intros [] []; cbn [andb]; intuition (discriminate || congruence).
Qed.

(** C5.  Once the query embedding is there, the similarity query of
    [retrieve_context] is the last call of the request and carries the
    filter doc_type = satzung if and only if the lowercased query contains
    the keyword and the memoized presence check says that satzung entries
    exist.  The check runs only while the cache is empty and a query names
    the keyword; its answer stays in the cache for every later request.
    Without the filter the result is that of the general, unfiltered
    query. *)
Theorem retrieve_context_filter_iff :
  forall (env : services vec) (w : world vec) user_text k qe,
  get_embedding env (lit "FFI " ++ user_text) = Some qe ->
  let kw := has_keyword user_text in
  let present := presence env (SATZUNG_PRESENT w) in
  let applied := if kw && present then satzung_filter else None in
  let result := fst (retrieve_context env user_text k w) in
  let w' := snd (retrieve_context env user_text k w) in
  let probe_calls :=
    match SATZUNG_PRESENT w with
    | None => if kw then snd (run_probe env) else []
    | Some _ => []
    end in
  trace w'
  = trace w ++ [CallEmbedding (lit "FFI " ++ user_text)]
    ++ probe_calls ++ [CallQuery qe k applied]
  /\ (applied = satzung_filter <-> kw = true /\ present = true)
  /\ (applied = None <-> ~ (kw = true /\ present = true))
  /\ result = option_map format_results (collection_query env qe k applied)
  /\ (applied = None -> result = unfiltered_context env user_text k)
  /\ SATZUNG_PRESENT w' = (if kw then Some present else SATZUNG_PRESENT w)
  /\ (forall b, SATZUNG_PRESENT w = Some b ->
        present = b /\ probe_calls = [] /\ SATZUNG_PRESENT w' = Some b)
  /\ (kw = true ->
        forall reqs, SATZUNG_PRESENT (serve reqs w') = Some present)
  /\ w_db w' = w_db w.
Proof.
  intros env w user_text k qe E kw present applied result w' probe_calls.
  pose proof (retrieve_context_run vec env w user_text k qe E) as R.
  cbv zeta in R. fold kw present applied probe_calls in R.
  unfold result, w'. rewrite R. cbn [fst snd trace SATZUNG_PRESENT w_db].
  destruct (filter_choice kw present) as [A N]. fold applied in A, N.
  split; [reflexivity|]. split; [exact A|]. split; [exact N|].
  split; [reflexivity|]. split.
  { intros ->. unfold unfiltered_context. now rewrite E. }
  split; [reflexivity|]. split.
  { intros b C. unfold present, probe_calls. rewrite C. cbn [presence].
    repeat split. now destruct (has_keyword user_text). }
  split; [|reflexivity].
  intros K reqs. apply cache_is_stable. cbn [SATZUNG_PRESENT].
  now rewrite K.
Qed.

End RetrievalClaim.

(** A query that names the keyword, against a store without satzung
    entries: the answer is that of the unfiltered query. *)
Lemma retrieve_context_filter_iff_witness :
  fst (retrieve_context sample_services (lit "Was sagt die Satzung?") 8
         (boot init_db))
  = unfiltered_context sample_services (lit "Was sagt die Satzung?") 8.
Proof.
  refine (proj1 (proj2 (proj2 (proj2 (proj2
    (retrieve_context_filter_iff str sample_services (boot init_db)
       (lit "Was sagt die Satzung?") 8
       (lit "FFI Was sagt die Satzung?") _))))) _);
    reflexivity.
Defined.

(* ------------------------------------------------------------------------- *)
(** ** Session memory during a chat turn *)
(* ------------------------------------------------------------------------- *)

Section SessionRows.

Lemma get_summary_upsert : forall rows sid inserted update s,
  s_session_id inserted = sid -> s_summary inserted = [] ->
  (forall r, s_session_id (update r) = s_session_id r
             /\ s_summary (update r) = s_summary r) ->
  summary_of (find (fun r => str_eqb (s_session_id r) s)
                (upsert rows sid inserted update))
  = summary_of (find (fun r => str_eqb (s_session_id r) s) rows).
Proof.
  intros rows sid inserted update s Hi Hs Hu.
  induction rows as [|r rest IH]; simpl.
  - rewrite Hi. destruct (str_eqb sid s); [exact Hs | reflexivity].
  - destruct (str_eqb (s_session_id r) sid); simpl.
    + destruct (Hu r) as [-> E].
      destruct (str_eqb (s_session_id r) s); [exact E | reflexivity].
    + destruct (str_eqb (s_session_id r) s); [reflexivity | exact IH].
Qed.

Lemma get_summary_touch : forall d sid now s,
  get_summary (touch_session d sid now) s = get_summary d s.
Proof.
  intros d sid now s. unfold get_summary, touch_session. cbn [sessions].
  apply (get_summary_upsert (sessions d) sid); [reflexivity | reflexivity |].
  intros r. now split.
Qed.

Lemma get_summary_append : forall d sid role content now d' s,
  append_message d sid role content now = Some d' ->
  get_summary d' s = get_summary d s.
Proof.
  intros d sid role content now d' s H. unfold append_message in H.
  destruct (role_ok role && session_exists d sid); [|discriminate].
  inversion H; subst; clear H. unfold get_summary. cbn [sessions].
  induction (sessions d) as [|r rest IH]; simpl; [reflexivity|].
  destruct (str_eqb (s_session_id r) sid); simpl;
    destruct (str_eqb (s_session_id r) s); auto.
Qed.

Lemma messages_append : forall d sid role content now d' s,
  append_message d sid role content now = Some d' ->
  exists added,
    of_session s (messages d') = of_session s (messages d) ++ added.
Proof.
  intros d sid role content now d' s H. unfold append_message in H.
  destruct (role_ok role && session_exists d sid); [|discriminate].
  inversion H; subst; clear H. cbn [messages]. unfold of_session.
  rewrite filter_app. now eexists.
Qed.

End SessionRows.

Section Compaction.

Variable vec : Type.
Variable SYSTEM_PROMPT_STRICT : str -> str -> str.
Variable SYSTEM_PROMPT_FALLBACK : str -> str.
Variable build_summary_prompt : str -> list Message -> str.

(** Step 3 of [chat] when the summarizer gives nothing: three calls, no
    change. *)
Lemma rolling_summary_failure_run :
  forall (env : services vec) w sid summary history,
  trigger_holds (w_db w) sid ->
  older_slice (w_db w) sid <> [] ->
  summarizer_fails env (summarizer_request build_summary_prompt (w_db w) sid summary) ->
  rolling_summary build_summary_prompt env sid summary history w
  = ((summary, history),
     World (w_db w) (SATZUNG_PRESENT w)
       (trace w
        ++ [CallCountMessages sid;
            CallGetLastMessages sid
              (SUMMARY_TRIGGER_MESSAGES + KEEP_LAST_MESSAGES);
            CallOllama (summarizer_request build_summary_prompt (w_db w) sid summary) Temp0])).
Proof.
  intros env w sid summary history T O F.
  unfold rolling_summary. run.
  assert (E : (count_messages (w_db w) sid >? SUMMARY_TRIGGER_MESSAGES)
              = true).
  { rewrite Z.gtb_ltb. apply Z.ltb_lt. unfold trigger_holds in T. lia. }
  rewrite E. run. fold (older_slice (w_db w) sid).
  apply truthy_true in O. rewrite O. run.
  unfold summarizer_fails, summarizer_request in *.
  rewrite <- !app_assoc. cbn [app].
  destruct (ollama_chat env
              (summarizer_messages build_summary_prompt summary
                 (older_slice (w_db w) sid)) Temp0) as [[c|]|].
  - rewrite F. reflexivity.
  - reflexivity.
  - reflexivity.
Qed.


(** Pieces of a turn that leave the session memory calm. *)

Lemma calm_refl : forall sid (w : world vec), calm sid w w.
Proof.
  intros sid w. split; [reflexivity|]. split.
  - exists []. now rewrite app_nil_r.
  - exists []. now rewrite app_nil_r.
Qed.

Lemma calm_trans : forall sid (w1 w2 w3 : world vec),
  calm sid w1 w2 -> calm sid w2 w3 -> calm sid w1 w3.
Proof.
  intros sid w1 w2 w3 [S1 [[a1 M1] [c1 [T1 Q1]]]] [S2 [[a2 M2] [c2 [T2 Q2]]]].
  split; [congruence|]. split.
  - exists (a1 ++ a2). now rewrite M2, M1, app_assoc.
  - exists (c1 ++ c2). split.
    + now rewrite T2, T1, app_assoc.
    + now rewrite forallb_app, Q1, Q2.
Qed.

Lemma calm_emit : forall sid (w : world vec) cache calls,
  forallb quiet calls = true ->
  calm sid w (World (w_db w) cache (trace w ++ calls)).
Proof.
  intros sid w cache calls Q. split; [reflexivity|]. split.
  - exists []. now rewrite app_nil_r.
  - now exists calls.
Qed.

Lemma Calm_ret : forall sid (A : Type) (a : A), Calm sid (@ret vec A a).
Proof. intros sid A a w. apply calm_refl. Qed.

Lemma Calm_bind : forall sid (A B : Type) (m : M vec A) (k : A -> M vec B),
  Calm sid m -> (forall a, Calm sid (k a)) -> Calm sid (bind m k).
Proof.
  intros sid A B m k Hm Hk w. unfold bind.
  specialize (Hm w). destruct (m w) as [a w1]. cbn [snd] in Hm.
  eapply calm_trans; [exact Hm | apply Hk].
Qed.

Lemma Calm_ollama : forall sid (env : services vec) msgs t,
  Calm sid (do_ollama env msgs t).
Proof. intros sid env msgs t w. run. now apply calm_emit. Qed.

Lemma Calm_append_message : forall sid (env : services vec) s role content,
  Calm sid (do_append_message env s role content).
Proof.
  intros sid env s role content w. run.
  destruct (append_message (w_db w) s role content
              (clock env (length (trace w)))) as [d'|] eqn:E; run.
  - split; [now apply (get_summary_append _ _ _ _ _ _ _ E)|]. split.
    + now apply (messages_append _ _ _ _ _ _ _ E).
    + now eexists.
  - now apply calm_emit.
Qed.

Lemma run_probe_quiet : forall env : services vec,
  forallb quiet (snd (run_probe env)) = true.
Proof.
  intros env. unfold run_probe, _has_satzung_chunks, boot. run.
  destruct (collection_query env (zero_vec env) 1 satzung_filter); run;
    [reflexivity|].
  destruct (get_embedding env (lit "FFI Satzung")); run; [|reflexivity].
  now destruct (collection_query env v 5 None).
Qed.

Lemma Calm_retrieve_context : forall sid (env : services vec) user_text k,
  Calm sid (retrieve_context env user_text k).
Proof.
  intros sid env user_text k w.
  destruct (get_embedding env (lit "FFI " ++ user_text)) as [qe|] eqn:E.
  - rewrite (retrieve_context_run vec env w user_text k qe E).
    cbn [snd]. apply calm_emit.
    rewrite !forallb_app. cbn [forallb quiet andb]. rewrite andb_true_r.
    destruct (SATZUNG_PRESENT w); [reflexivity|].
    destruct (has_keyword user_text); [apply run_probe_quiet | reflexivity].
  - rewrite (retrieve_context_no_embedding vec env w user_text k E).
    cbn [snd]. now apply calm_emit.
Qed.

Lemma Calm_respond : forall sid (env : services vec) user_text s summary history,
  Calm sid (respond SYSTEM_PROMPT_STRICT SYSTEM_PROMPT_FALLBACK env
              user_text s summary history).
Proof.
  intros sid env user_text s summary history. unfold respond.
  apply Calm_bind; [apply Calm_retrieve_context|].
  intros [context|]; [|apply Calm_ret].
  apply Calm_bind; [apply Calm_ollama|].
  intros [[reply|]|]; try apply Calm_ret.
  apply Calm_bind; [apply Calm_append_message|].
  intros [|]; [|apply Calm_ret].
  apply Calm_bind; [apply Calm_append_message|].
  intros [|]; apply Calm_ret.
Qed.

(** More messages at the end keep the trigger. *)
Lemma calm_trigger : forall sid (w w' : world vec),
  calm sid w w' -> trigger_holds (w_db w) sid -> trigger_holds (w_db w') sid.
Proof.
  intros sid w w' [_ [[added E] _]] T. unfold trigger_holds, count_messages in *.
  rewrite E, len_app. unfold len in *. lia.
Qed.

End Compaction.

Section CompactionClaim.

Variable vec : Type.
Variable SYSTEM_PROMPT_STRICT : str -> str -> str.
Variable SYSTEM_PROMPT_FALLBACK : str -> str.
Variable build_summary_prompt : str -> list Message -> str.

(** C1.  When the compaction is due for the session of a request, the
    older slice is not empty and the summarization call fails or comes back
    without content, then the attempt makes three calls (count, fetch,
    summarizer) and returns the database, the summary and the history as
    they were: no [set_summary], no [delete_oldest_messages].  Over the
    whole turn the summary of the session is unchanged, its messages are
    the former ones with at most the messages of this turn behind them, and
    the trigger condition holds again when the next turn starts. *)
Theorem summarization_failure_keeps_session :
  forall (env : services vec) (w : world vec) req,
  let session_id := resolve_session_id env req in
  let summary := get_summary (w_db w) session_id in
  let request := summarizer_request build_summary_prompt (w_db w)
                   session_id summary in
  trigger_holds (w_db w) session_id ->
  older_slice (w_db w) session_id <> [] ->
  summarizer_fails env request ->
  (forall history,
     rolling_summary build_summary_prompt env session_id summary history w
     = ((summary, history),
        World (w_db w) (SATZUNG_PRESENT w)
          (trace w
           ++ [CallCountMessages session_id;
               CallGetLastMessages session_id
                 (SUMMARY_TRIGGER_MESSAGES + KEEP_LAST_MESSAGES);
               CallOllama request Temp0])))
  /\ let w' :=
       snd (chat SYSTEM_PROMPT_STRICT SYSTEM_PROMPT_FALLBACK
              build_summary_prompt env req w) in
     get_summary (w_db w') session_id = summary
     /\ (exists added,
           of_session session_id (messages (w_db w'))
           = of_session session_id (messages (w_db w)) ++ added)
     /\ (exists calls,
           trace w' = trace w ++ calls /\ forallb quiet calls = true)
     /\ trigger_holds (w_db w') session_id.
Proof.
  intros env w req session_id summary request T O F.
  split.
  { intros history. now apply rolling_summary_failure_run. }
  cbv zeta.
  assert (C : calm session_id w
                (snd (chat SYSTEM_PROMPT_STRICT SYSTEM_PROMPT_FALLBACK
                        build_summary_prompt env req w))).
  { unfold chat.
    destruct (negb (truthy (resolve_user_text req))); [apply calm_refl|].
    fold session_id. run. rewrite get_summary_touch. fold summary.
    rewrite rolling_summary_failure_run; [|exact T | exact O | exact F].
    cbn [w_db SATZUNG_PRESENT trace].
    eapply calm_trans; [|apply Calm_respond].
    split; [apply get_summary_touch|]. split.
    - exists []. now rewrite app_nil_r.
    - cbn [trace]. rewrite <- !app_assoc. cbn [app].
      eexists. split; reflexivity. }
  destruct C as [S [A Q]].
  split; [exact S|]. split; [exact A|]. split; [exact Q|].
  eapply calm_trigger; [|exact T]. now repeat split.
Qed.

End CompactionClaim.

(** Session s holds 21 messages and the summarizer is down: after the turn
    the trigger still holds. *)
Lemma summarization_failure_keeps_session_witness :
  trigger_holds
    (w_db (snd (chat (fun c q => c ++ q) (fun q => q) (fun s _ => s)
                  sample_services sample_request (boot long_session_db))))
    (lit "s").
Proof.
  refine (proj2 (proj2 (proj2 (proj2
    (summarization_failure_keeps_session str
       (fun c q => c ++ q) (fun q => q) (fun s _ => s)
       sample_services (boot long_session_db) sample_request _ _ _))))).
  - vm_compute. reflexivity.
  - vm_compute. discriminate.
  - vm_compute. exact I.
Defined.

(* ========================================================================= *)
(** * Further behaviour of the code *)
(* ========================================================================= *)

(* ------------------------------------------------------------------------- *)
(** ** Session rows: summaries and upserts *)
(* ------------------------------------------------------------------------- *)

Section SessionTable.

Lemma session_ids_upsert : forall rows sid inserted update,
  s_session_id inserted = sid ->
  (forall r, s_session_id (update r) = s_session_id r) ->
  map s_session_id (upsert rows sid inserted update)
  = if existsb (fun r => str_eqb (s_session_id r) sid) rows
    then map s_session_id rows
    else map s_session_id rows ++ [sid].
Proof.
  intros rows sid inserted update Hi Hu.
  induction rows as [|r rest IH]; simpl; [now rewrite Hi|].
  destruct (str_eqb (s_session_id r) sid); simpl.
  - now rewrite Hu.
  - rewrite IH.
    now destruct (existsb (fun r0 => str_eqb (s_session_id r0) sid) rest).
Qed.

Lemma session_exists_ids : forall d sid,
  session_exists d sid = true <-> In sid (session_ids d).
Proof.
  intros d sid. unfold session_exists, session_ids.
  rewrite existsb_exists, in_map_iff. split.
  - intros [r [Hr E]]. apply str_eqb_eq in E. now exists r.
  - intros [r [E Hr]]. exists r. split; [exact Hr | now apply str_eqb_eq].
Qed.

Lemma get_summary_missing : forall d sid,
  session_exists d sid = false -> get_summary d sid = [].
Proof.
  intros d sid H. unfold get_summary, session_exists in *.
  induction (sessions d) as [|r rest IH]; simpl in *; [reflexivity|].
  destruct (str_eqb (s_session_id r) sid); [discriminate | now apply IH].
Qed.

Lemma summary_after_upsert : forall rows sid summary inserted update,
  s_session_id inserted = sid -> s_summary inserted = summary ->
  (forall r, s_session_id (update r) = s_session_id r
             /\ s_summary (update r) = summary) ->
  forall s,
  summary_of (find (fun r => str_eqb (s_session_id r) s)
                (upsert rows sid inserted update))
  = if str_eqb sid s then summary
    else summary_of (find (fun r => str_eqb (s_session_id r) s) rows).
Proof.
  intros rows sid summary inserted update Hi Hs Hu s.
  induction rows as [|r rest IH]; simpl.
  - rewrite Hi. now destruct (str_eqb sid s).
  - destruct (str_eqb (s_session_id r) sid) eqn:E; simpl.
    + apply str_eqb_eq in E. destruct (Hu r) as [Hid Hsum].
      rewrite Hid, E. destruct (str_eqb sid s); simpl; [exact Hsum|].
      reflexivity.
    + destruct (str_eqb (s_session_id r) s) eqn:F; [|exact IH].
      apply str_eqb_eq in F. apply str_eqb_neq in E.
      assert (G : str_eqb sid s = false) by (apply str_eqb_neq; congruence).
      now rewrite G.
Qed.

(** X1.  After [set_summary] the session has the new summary, every other
    session keeps its own, the session exists, and no message is touched:
    a summary written is the summary read. *)
Theorem set_summary_then_get_summary : forall d sid summary now,
  let d' := set_summary d sid summary now in
  get_summary d' sid = summary
  /\ (forall other, other <> sid -> get_summary d' other = get_summary d other)
  /\ session_exists d' sid = true
  /\ (forall s, session_exists d s = true -> session_exists d' s = true)
  /\ messages d' = messages d.
Proof.
  intros d sid summary now d'.
  assert (G : forall s, get_summary d' s
                        = if str_eqb sid s then summary else get_summary d s).
  { intros s. unfold d', get_summary, set_summary. cbn [sessions].
    apply (summary_after_upsert (sessions d) sid summary); try reflexivity.
    intros r. now split. }
  assert (I : session_ids d'
              = if session_exists d sid then session_ids d
                else session_ids d ++ [sid]).
  { unfold d', session_ids, set_summary. cbn [sessions].
    now apply session_ids_upsert. }
  split; [rewrite G; now rewrite str_eqb_refl|]. split.
  { intros other H. rewrite G.
    assert (E : str_eqb sid other = false) by (apply str_eqb_neq; congruence).
    now rewrite E. }
  split.
  { apply session_exists_ids. rewrite I.
    destruct (session_exists d sid) eqn:E.
    - now apply session_exists_ids.
    - apply in_or_app. right. now left. }
  split; [|reflexivity].
  intros s H. apply session_exists_ids. rewrite I.
  apply session_exists_ids in H.
  destruct (session_exists d sid); [exact H | apply in_or_app; now left].
Qed.

Lemma set_summary_then_get_summary_witness :
  get_summary (set_summary sample_db (lit "s") (lit "- Fakt") 30) (lit "t")
  = get_summary sample_db (lit "t").
Proof.
  apply (proj1 (proj2
    (set_summary_then_get_summary sample_db (lit "s") (lit "- Fakt") 30))).
  discriminate.
Defined.

(** X2.  [touch_session] is an upsert: it changes no summary and no
    message, the touched session exists afterwards, existing sessions stay,
    and a row is added only when the session was unknown; a session that
    was never written has the empty summary. *)
Theorem touch_session_upsert : forall d sid now,
  let d' := touch_session d sid now in
  (forall s, get_summary d' s = get_summary d s)
  /\ messages d' = messages d
  /\ session_exists d' sid = true
  /\ session_ids d'
     = (if session_exists d sid then session_ids d else session_ids d ++ [sid])
  /\ (session_exists d sid = false -> get_summary d' sid = []).
Proof.
  intros d sid now d'.
  assert (I : session_ids d'
              = if session_exists d sid then session_ids d
                else session_ids d ++ [sid]).
  { unfold d', session_ids, touch_session. cbn [sessions].
    now apply session_ids_upsert. }
  split; [intros s; apply get_summary_touch|]. split; [reflexivity|].
  split.
  { apply session_exists_ids. rewrite I.
    destruct (session_exists d sid) eqn:E.
    - now apply session_exists_ids.
    - apply in_or_app. right. now left. }
  split; [exact I|].
  intros H. unfold d'. rewrite get_summary_touch.
  now apply get_summary_missing.
Qed.

Lemma touch_session_upsert_witness :
  get_summary (touch_session sample_db (lit "u") 30) (lit "u") = [].
Proof.
  apply (proj2 (proj2 (proj2 (proj2
    (touch_session_upsert sample_db (lit "u") 30))))).
  reflexivity.
Defined.

End SessionTable.

(* ------------------------------------------------------------------------- *)
(** ** Appending and trimming messages *)
(* ------------------------------------------------------------------------- *)

Section MessageLog.

Lemma get_last_messages_nonneg : forall d sid limit,
  wf_db d -> 0 <= limit ->
  get_last_messages d sid limit
  = map as_message
      (most_recent (Z.to_nat limit) (of_session sid (messages d))).
Proof.
  intros d sid limit W H. unfold get_last_messages.
  rewrite selected_rows; [reflexivity | now apply sorted_of_session | exact H].
Qed.

Lemma most_recent_snoc : forall (A : Type) (l : list A) x,
  most_recent 1 (l ++ [x]) = [x].
Proof.
  intros A l x. unfold most_recent. rewrite length_app. simpl.
  replace (length l + 1 - 1)%nat with (length l + 0)%nat by lia.
  rewrite skipn_app, skipn_all2 by lia.
  replace (length l + 0 - length l)%nat with O by lia. reflexivity.
Qed.

Lemma most_recent_twice : forall (A : Type) n k (l : list A),
  (n <= k)%nat -> most_recent n (most_recent k l) = most_recent n l.
Proof.
  intros A n k l H. unfold most_recent.
  rewrite skipn_skipn, length_skipn. f_equal. lia.
Qed.

Lemma most_recent_all : forall (A : Type) n (l : list A),
  (length l <= n)%nat -> most_recent n l = l.
Proof.
  intros A n l H. unfold most_recent.
  replace (length l - n)%nat with O by lia. reflexivity.
Qed.

Lemma append_message_inv : forall d sid role content now d',
  append_message d sid role content now = Some d' ->
  role_ok role = true /\ session_exists d sid = true
  /\ messages d'
     = messages d ++ [MessageRow (sqlite_sequence d + 1) sid role content now]
  /\ sqlite_sequence d' = sqlite_sequence d + 1
  /\ session_ids d' = session_ids d.
Proof.
  intros d sid role content now d' H. unfold append_message in H.
  destruct (role_ok role) eqn:R; [|discriminate].
  destruct (session_exists d sid) eqn:S; [|discriminate].
  cbn [andb] in H. inversion H; subst; clear H.
  repeat split. unfold session_ids. cbn [sessions].
  rewrite map_map. apply map_ext. intros r.
  now destruct (str_eqb (s_session_id r) sid).
Qed.

(** X3.  A message that [append_message] accepts has a valid role and an
    existing session; it goes to the end of the table with the next id, the
    session counts one message more, it is what [get_last_messages] with
    limit 1 returns, and other sessions, all summaries and the session rows'
    keys are as before. *)
Theorem append_message_appends : forall d sid role content now d',
  wf_db d -> append_message d sid role content now = Some d' ->
  role_ok role = true
  /\ session_exists d sid = true
  /\ messages d'
     = messages d ++ [MessageRow (sqlite_sequence d + 1) sid role content now]
  /\ count_messages d' sid = count_messages d sid + 1
  /\ (forall other, other <> sid ->
        of_session other (messages d') = of_session other (messages d))
  /\ get_last_messages d' sid 1 = [Msg role content]
  /\ (forall s, get_summary d' s = get_summary d s)
  /\ session_ids d' = session_ids d.
Proof.
  intros d sid role content now d' W H.
  pose proof (wf_append_message _ _ _ _ _ _ W H) as W'.
  destruct (append_message_inv _ _ _ _ _ _ H) as [R [S [M [_ I]]]].
  assert (O : of_session sid (messages d')
              = of_session sid (messages d)
                ++ [MessageRow (sqlite_sequence d + 1) sid role content now]).
  { rewrite M. unfold of_session. rewrite filter_app. cbn [filter m_session_id].
    now rewrite str_eqb_refl. }
  split; [exact R|]. split; [exact S|]. split; [exact M|]. split.
  { unfold count_messages. rewrite O, len_app. reflexivity. }
  split.
  { intros other Ho. rewrite M. unfold of_session.
    rewrite filter_app. cbn [filter m_session_id].
    assert (E : str_eqb sid other = false) by (apply str_eqb_neq; congruence).
    rewrite E. apply app_nil_r. }
  split.
  { rewrite get_last_messages_nonneg by (assumption || lia).
    change (Z.to_nat 1) with 1%nat. rewrite O, most_recent_snoc.
    reflexivity. }
  split; [|exact I].
  intros s. now apply (get_summary_append _ _ _ _ _ _ _ H).
Qed.

Lemma append_message_appends_witness :
  get_last_messages
    (match append_message sample_db (lit "t") (lit "assistant") (lit "y") 30
     with Some d' => d' | None => sample_db end)
    (lit "t") 1
  = [Msg (lit "assistant") (lit "y")].
Proof.
  refine (proj1 (proj2 (proj2 (proj2 (proj2 (proj2
    (append_message_appends sample_db (lit "t") (lit "assistant") (lit "y")
       30 _ _ _))))))).
  - split; vm_compute; repeat constructor; discriminate.
  - reflexivity.
Defined.

Lemma sorted_ids_nodup : forall l : list message_row,
  StronglySorted id_lt l -> NoDup (map m_id l).
Proof.
  induction l as [|m l IH]; intros S; simpl; [constructor|].
  apply StronglySorted_inv in S. destruct S as [S F].
  constructor; [|now apply IH].
  intros Hin. apply in_map_iff in Hin. destruct Hin as [x [E Hx]].
  rewrite Forall_forall in F. specialize (F x Hx). unfold id_lt in F. lia.
Qed.

(** X4.  In every database the store operations can produce, message ids
    are positive, strictly increasing along the table, pairwise distinct and
    at most the AUTOINCREMENT counter. *)
Theorem reachable_ids_issued_once : forall d,
  reachable d -> ids_issued_once d /\ 0 <= sqlite_sequence d.
Proof.
  intros d R.
  assert (P : Forall (fun m => 0 < m_id m) (messages d)
              /\ 0 <= sqlite_sequence d).
  { induction R.
    - split; [constructor | simpl; lia].
    - exact IHR.
    - exact IHR.
    - destruct IHR as [F C].
      destruct (append_message_inv _ _ _ _ _ _ H) as [_ [_ [M [Q _]]]].
      rewrite M, Q. split; [|lia].
      apply Forall_app. split; [exact F|]. repeat constructor. simpl. lia.
    - destruct IHR as [F C]. split; [|exact C]. simpl.
      rewrite Forall_forall in *. intros m Hm. apply filter_In in Hm.
      now apply F. }
  destruct P as [F C]. destruct (reachable_wf d R) as [S B].
  split; [|exact C]. split; [exact S|]. split; [|now apply sorted_ids_nodup].
  rewrite Forall_forall in *. intros m Hm. split; [now apply F | now apply B].
Qed.

Lemma reachable_try_append : forall d sid role content now,
  reachable d ->
  reachable (match append_message d sid role content now with
             | Some d' => d'
             | None => d
             end).
Proof.
  intros d sid role content now R.
  destruct (append_message d sid role content now) eqn:E; [|exact R].
  eapply reach_append; eassumption.
Qed.

Lemma reachable_sample_db : reachable sample_db.
Proof.
  unfold sample_db. do 4 apply reachable_try_append.
  apply reach_touch, reach_touch, reach_init.
Qed.

Lemma reachable_ids_issued_once_witness : ids_issued_once sample_db.
Proof.
  refine (proj1 (reachable_ids_issued_once sample_db _)).
  unfold sample_db. do 4 apply reachable_try_append.
  apply reach_touch, reach_touch, reach_init.
Defined.

(** X8.  AUTOINCREMENT does not reuse ids: a message appended after a trim
    gets the id after the counter, above the id of every message the table
    held before the trim, deleted ones included. *)
Theorem autoincrement_never_reuses :
  forall d s keep_last sid role content now d',
  wf_db d ->
  append_message (delete_oldest_messages d s keep_last) sid role content now
  = Some d' ->
  exists row,
    messages d' = messages (delete_oldest_messages d s keep_last) ++ [row]
    /\ m_id row = sqlite_sequence d + 1
    /\ Forall (fun m => m_id m < m_id row) (messages d).
Proof.
  intros d s keep_last sid role content now d' [S B] H.
  destruct (append_message_inv _ _ _ _ _ _ H) as [_ [_ [M _]]].
  eexists. split; [exact M|]. split; [reflexivity|].
  eapply Forall_impl; [|exact B]. simpl. intros m Hm. lia.
Qed.

Lemma autoincrement_never_reuses_witness :
  exists row,
    messages (match append_message
                      (delete_oldest_messages sample_db (lit "s") 1)
                      (lit "s") (lit "user") (lit "d") 30
              with Some d' => d' | None => sample_db end)
    = messages (delete_oldest_messages sample_db (lit "s") 1) ++ [row]
    /\ m_id row = sqlite_sequence sample_db + 1
    /\ Forall (fun m => m_id m < m_id row) (messages sample_db).
Proof.
  refine (autoincrement_never_reuses sample_db (lit "s") 1 (lit "s")
            (lit "user") (lit "d") 30 _ _ _).
  - split; vm_compute; repeat constructor; discriminate.
  - reflexivity.
Defined.

End MessageLog.

Section StoreConstraints.

Lemma nodup_snoc : forall (A : Type) (l : list A) x,
  NoDup l -> ~ In x l -> NoDup (l ++ [x]).
Proof.
  intros A l x N H. apply NoDup_app. repeat split.
  - exact N.
  - repeat constructor. intros [].
  - intros y Hy [<- | []]. contradiction.
Qed.

Lemma upsert_keeps_key : forall d rows' sid,
  map s_session_id rows'
  = (if session_exists d sid then session_ids d else session_ids d ++ [sid]) ->
  NoDup (session_ids d) ->
  NoDup (map s_session_id rows')
  /\ (forall s, In s (session_ids d) -> In s (map s_session_id rows')).
Proof.
  intros d rows' sid E N. rewrite E.
  destruct (session_exists d sid) eqn:X; [now split|]. split.
  - apply nodup_snoc; [exact N|]. intros H.
    apply session_exists_ids in H. congruence.
  - intros s H. apply in_or_app. now left.
Qed.

Lemma constraints_frame : forall d d',
  constraints_hold d ->
  NoDup (session_ids d') ->
  (forall s, In s (session_ids d) -> In s (session_ids d')) ->
  messages d' = messages d ->
  constraints_hold d'.
Proof.
  intros d d' [N [R F]] N' I M. split; [exact N'|]. rewrite M.
  split; [exact R|].
  eapply Forall_impl; [|exact F]. simpl. intros m H.
  apply session_exists_ids, I. now apply session_exists_ids.
Qed.

(** X5.  Every database the store operations can produce satisfies the
    constraints the tables declare: session ids are unique, every message
    has role user or assistant, and every message belongs to a session that
    exists. *)
Theorem reachable_constraints : forall d, reachable d -> constraints_hold d.
Proof.
  induction 1.
  - split; [constructor | split; constructor].
  - destruct (upsert_keeps_key d
                (sessions (touch_session d sid now)) sid) as [N I].
    + unfold touch_session, session_ids. cbn [sessions].
      now apply session_ids_upsert.
    + apply IHreachable.
    + now apply (constraints_frame d).
  - destruct (upsert_keeps_key d
                (sessions (set_summary d sid summary now)) sid) as [N I].
    + unfold set_summary, session_ids. cbn [sessions].
      now apply session_ids_upsert.
    + apply IHreachable.
    + now apply (constraints_frame d).
  - destruct IHreachable as [N [R F]].
    destruct (append_message_inv _ _ _ _ _ _ H0) as [Ro [S [M [_ I]]]].
    assert (X : forall s, session_exists d' s = session_exists d s).
    { intros s. destruct (session_exists d s) eqn:E.
      - apply session_exists_ids. rewrite I. now apply session_exists_ids.
      - destruct (session_exists d' s) eqn:E'; [|reflexivity].
        apply session_exists_ids in E'. rewrite I in E'.
        apply session_exists_ids in E'. congruence. }
    split; [now rewrite I|]. rewrite M. split.
    + apply Forall_app. split; [exact R | now repeat constructor].
    + apply Forall_app. split.
      * eapply Forall_impl; [|exact F]. simpl. intros m Hm. now rewrite X.
      * repeat constructor. simpl. now rewrite X.
  - destruct IHreachable as [N [R F]]. split; [exact N|].
    cbn [messages delete_oldest_messages]. split.
    + rewrite Forall_forall in *. intros m Hm. apply filter_In in Hm.
      now apply R.
    + rewrite Forall_forall in *. intros m Hm. apply filter_In in Hm.
      now apply F.
Qed.

Lemma reachable_constraints_witness : constraints_hold sample_db.
Proof.
  refine (reachable_constraints sample_db _).
  unfold sample_db. do 4 apply reachable_try_append.
  apply reach_touch, reach_touch, reach_init.
Defined.

End StoreConstraints.

Section Trimming.

Lemma in_insert_desc : forall x m l,
  In x (insert_desc m l) <-> x = m \/ In x l.
Proof.
  intros x m. induction l as [|y l IH]; simpl.
  - intuition.
  - destruct (m_id y <=? m_id m); simpl; [intuition|].
    rewrite IH. intuition.
Qed.

(** [ORDER BY] only reorders. *)
Lemma in_order_by_id_desc : forall x l,
  In x (order_by_id_desc l) <-> In x l.
Proof.
  intros x. induction l as [|m l IH]; simpl; [reflexivity|].
  unfold order_by_id_desc in *. simpl. rewrite in_insert_desc, IH.
  intuition.
Qed.

Lemma delete_keeps_all : forall d sid keep_last,
  (forall m, In m (of_session sid (messages d)) ->
     In m (sql_limit keep_last
             (order_by_id_desc (of_session sid (messages d))))) ->
  messages (delete_oldest_messages d sid keep_last) = messages d.
Proof.
  intros d sid keep_last H. cbn [messages delete_oldest_messages].
  apply forallb_filter_id. apply forallb_forall. intros m Hm.
  destruct (str_eqb (m_session_id m) sid) eqn:E; [|reflexivity].
  cbn [andb]. rewrite negb_involutive. apply id_member.
  exists m. split; [|reflexivity]. apply H.
  unfold of_session. apply filter_In. now split.
Qed.

Lemma eta_db : forall d, Db (sessions d) (messages d) (sqlite_sequence d) = d.
Proof. now intros []. Qed.

Lemma delete_within_budget : forall d sid keep_last,
  wf_db d ->
  keep_last < 0 \/ count_messages d sid <= keep_last ->
  delete_oldest_messages d sid keep_last = d.
Proof.
  intros d sid keep_last W H.
  assert (M : messages (delete_oldest_messages d sid keep_last) = messages d).
  { apply delete_keeps_all. intros m Hm. destruct H as [H | H].
    - rewrite sql_limit_negative by exact H. now apply in_order_by_id_desc.
    - unfold count_messages, len in H.
      assert (0 <= keep_last) by lia.
      rewrite sql_limit_nonneg by assumption.
      rewrite firstn_all2.
      + now apply in_order_by_id_desc.
      + rewrite order_by_id_desc_sorted by now apply sorted_of_session.
        rewrite length_rev. lia. }
  rewrite <- (eta_db d) at 2. rewrite <- M. reflexivity.
Qed.

(** X7.  [delete_oldest_messages] deletes nothing when [keep_last] is
    negative (no limit to SQLite) or at least the number of messages of the
    session: the database is the same. *)
Theorem delete_oldest_messages_nothing_to_delete : forall d sid keep_last,
  wf_db d ->
  keep_last < 0 \/ count_messages d sid <= keep_last ->
  delete_oldest_messages d sid keep_last = d.
Proof. exact delete_within_budget. Qed.

Lemma delete_oldest_messages_nothing_to_delete_witness :
  delete_oldest_messages sample_db (lit "s") (-1) = sample_db.
Proof.
  refine (delete_oldest_messages_nothing_to_delete sample_db (lit "s") (-1)
            _ _).
  - split; vm_compute; repeat constructor; discriminate.
  - left. lia.
Defined.

(** X6.  Trimming is idempotent and invisible to readers of the recent
    history: after [delete_oldest_messages] with [keep_last >= 0], any
    [get_last_messages] of the session with a limit between 0 and
    [keep_last] returns what it returned before, every other session reads
    as before for every limit, summaries are unchanged, and trimming again
    changes nothing. *)
Theorem delete_oldest_messages_invisible : forall d sid keep_last limit,
  wf_db d -> 0 <= limit <= keep_last ->
  let d' := delete_oldest_messages d sid keep_last in
  get_last_messages d' sid limit = get_last_messages d sid limit
  /\ (forall other l, other <> sid ->
        get_last_messages d' other l = get_last_messages d other l)
  /\ (forall s, get_summary d' s = get_summary d s)
  /\ delete_oldest_messages d' sid keep_last = d'.
Proof.
  intros d sid keep_last limit W H d'.
  pose proof (wf_delete_oldest_messages d sid keep_last W) as W'.
  fold d' in W'.
  assert (K : of_session sid (messages d')
              = most_recent (Z.to_nat keep_last)
                  (of_session sid (messages d))).
  { unfold d'. rewrite of_session_after_delete. apply keep_selected.
    - now apply sorted_of_session.
    - lia. }
  split.
  { rewrite !get_last_messages_nonneg by (assumption || lia).
    rewrite K, most_recent_twice by lia. reflexivity. }
  split.
  { intros other l Ho. unfold get_last_messages, d'.
    now rewrite other_session_after_delete. }
  split; [reflexivity|].
  apply delete_within_budget; [exact W'|].
  right. unfold count_messages, len. rewrite K, length_most_recent. lia.
Qed.

Lemma delete_oldest_messages_invisible_witness :
  get_last_messages (delete_oldest_messages sample_db (lit "s") 2) (lit "s") 1
  = get_last_messages sample_db (lit "s") 1.
Proof.
  refine (proj1 (delete_oldest_messages_invisible sample_db (lit "s") 2 1
                   _ _)).
  - split; vm_compute; repeat constructor; discriminate.
  - lia.
Defined.

End Trimming.

(* ------------------------------------------------------------------------- *)
(** ** Chunks: shape, size, number *)
(* ------------------------------------------------------------------------- *)

Section ChunkFacts.

Lemma strip_ends_ok : forall s, ends_ok s = true -> Trimmed (strip s).
Proof.
  intros s H. apply strip_is_trimmed. unfold strip.
  pose proof (ends_ok_lstrip s H) as E.
  rewrite rstrip_ends_ok by exact E. now apply ends_ok_nonempty.
Qed.

Lemma overlapped_trimmed : forall chunks overlap,
  Forall Trimmed chunks -> Forall Trimmed (overlapped chunks overlap).
Proof.
  intros chunks overlap T. unfold overlapped.
  apply Forall_forall. intros c Hc. apply in_map_iff in Hc.
  destruct Hc as [[i ch] [<- Hin]]. apply in_combine_r in Hin.
  rewrite Forall_forall in T. specialize (T ch Hin).
  destruct i as [|j]; [exact T|].
  apply strip_ends_ok. do 2 apply ends_ok_app. apply T.
Qed.

Lemma chunks_trimmed : forall text max_chars overlap,
  Forall Trimmed (chunk_text text max_chars overlap).
Proof.
  intros text max_chars overlap. unfold chunk_text.
  pose proof (accumulated_trimmed max_chars text) as T.
  destruct (negb (overlap =? 0)
            && (len (accumulated_chunks text max_chars) >? 1));
    [now apply overlapped_trimmed | exact T].
Qed.

(** X9.  Whatever the budget and the overlap (zero and negative values
    included), no chunk that [chunk_text] returns is empty or has
    whitespace at either end. *)
Theorem chunk_text_chunks_trimmed : forall text max_chars overlap,
  Forall Trimmed (chunk_text text max_chars overlap).
Proof. exact chunks_trimmed. Qed.

Lemma greedy_sizes : forall max_chars (all : list str) paras buf,
  incl paras all ->
  buf = [] \/ len buf <= max_chars \/ In buf all ->
  Forall (fun c => len c <= max_chars \/ In c all)
    (greedy_chunks max_chars buf paras).
Proof.
  intros max_chars all. induction paras as [|p rest IH]; intros buf I B.
  - simpl. unfold flush. destruct buf as [|c b]; simpl; [constructor|].
    destruct B as [B | B]; [discriminate|].
    constructor; [exact B | constructor].
  - simpl.
    assert (Ir : incl rest all) by (intros x Hx; apply I; now right).
    destruct (len (buffer_plus buf p) <=? max_chars) eqn:E.
    + apply IH; [exact Ir|]. right. left. now apply Z.leb_le.
    + apply Forall_app. split.
      * unfold flush. destruct buf as [|c b]; simpl; [constructor|].
        destruct B as [B | B]; [discriminate|].
        constructor; [exact B | constructor].
      * apply IH; [exact Ir|]. right. right. apply I. now left.
Qed.

Lemma overlapped_when_many : forall text max_chars overlap,
  overlap <> 0 ->
  (1 < length (accumulated_chunks text max_chars))%nat ->
  chunk_text text max_chars overlap
  = overlapped (accumulated_chunks text max_chars) overlap.
Proof.
  intros text max_chars overlap A B. unfold chunk_text.
  apply Z.eqb_neq in A. rewrite A.
  assert (C : (len (accumulated_chunks text max_chars) >? 1) = true).
  { rewrite Z.gtb_ltb. apply Z.ltb_lt. unfold len. lia. }
  now rewrite C.
Qed.

Lemma length_chunk_text : forall text max_chars overlap,
  length (chunk_text text max_chars overlap)
  = length (accumulated_chunks text max_chars).
Proof.
  intros text max_chars overlap. unfold chunk_text.
  destruct (negb (overlap =? 0)
            && (len (accumulated_chunks text max_chars) >? 1));
    [apply length_overlapped | reflexivity].
Qed.

Lemma nth_overlapped_first : forall chunks overlap,
  (0 < length chunks)%nat ->
  nth 0 (overlapped chunks overlap) [] = nth 0 chunks [].
Proof.
  intros chunks overlap H. unfold overlapped.
  etransitivity;
    [apply (nth_map_enumerate str str) with (d' := []); exact H|].
  reflexivity.
Qed.

(** X10.  Before overlap prefixing every chunk fits into [max_chars] unless
    it is a single paragraph of the text; for a positive overlap the prefix
    adds at most [overlap + 1] characters to a chunk. *)
Theorem chunk_text_sizes : forall text max_chars,
  Forall (fun c => len c <= max_chars \/ In c (paragraphs text))
    (accumulated_chunks text max_chars)
  /\ forall overlap i, 0 < overlap ->
       len (nth i (chunk_text text max_chars overlap) [])
       <= len (nth i (accumulated_chunks text max_chars) []) + overlap + 1.
Proof.
  intros text max_chars. split.
  { rewrite accumulated_greedy. apply greedy_sizes; [apply incl_refl|].
    now left. }
  intros overlap i Hov.
  set (pre := accumulated_chunks text max_chars).
  destruct (Nat.le_gt_cases (length pre) 1) as [Hs | Hm].
  { rewrite chunk_text_short by exact Hs. fold pre. lia. }
  rewrite overlapped_when_many by (fold pre; lia). fold pre.
  destruct (Nat.le_gt_cases (length pre) i) as [Ho | Hi].
  { rewrite !nth_overflow; [unfold len; simpl; lia | exact Ho |].
    now rewrite length_overlapped. }
  destruct i as [|j].
  { rewrite nth_overlapped_first by lia. lia. }
  pose proof (accumulated_trimmed max_chars text) as T. fold pre in T.
  rewrite nth_overlapped by (assumption || lia).
  replace (S j - 1)%nat with j by lia.
  assert (Tp : Trimmed (nth j pre [])).
  { rewrite Forall_forall in T. apply T, nth_In. lia. }
  destruct (stripped_prefix (nth j pre []) overlap Hov Tp) as [_ [_ L]].
  rewrite !len_app, len_nl. lia.
Qed.

Lemma chunk_text_sizes_witness :
  len (nth 1 (chunk_text (lit "a b" ++ nl ++ lit "cd") 3 2) [])
  <= len (nth 1 (accumulated_chunks (lit "a b" ++ nl ++ lit "cd") 3) [])
     + 2 + 1.
Proof.
  apply (proj2 (chunk_text_sizes (lit "a b" ++ nl ++ lit "cd") 3) 2 1%nat).
  lia.
Defined.

Lemma length_groups : forall (A : Type) (groups : list (list A)),
  Forall (fun g => g <> []) groups ->
  (length groups <= length (concat groups))%nat.
Proof.
  induction groups as [|g gs IH]; intros F; simpl; [lia|].
  inversion F; subst. rewrite length_app. specialize (IH H2).
  destruct g; [congruence | simpl; lia].
Qed.

(** X11.  There are at most as many chunks as paragraphs, none exactly when
    the text has no paragraph, and the overlap does not change their
    number. *)
Theorem chunk_text_count : forall text max_chars overlap,
  length (chunk_text text max_chars overlap)
  = length (accumulated_chunks text max_chars)
  /\ (length (chunk_text text max_chars overlap)
      <= length (paragraphs text))%nat
  /\ (chunk_text text max_chars overlap = [] <-> paragraphs text = []).
Proof.
  intros text max_chars overlap.
  pose proof (length_chunk_text text max_chars overlap) as L.
  destruct (accumulated_groups max_chars text) as [gs [E [Hne C]]].
  assert (N : length (accumulated_chunks text max_chars) = length gs)
    by now rewrite E, length_map.
  split; [exact L|]. split.
  { rewrite L, N, <- C. now apply length_groups. }
  split.
  - intros H. rewrite H in L. simpl in L.
    destruct gs as [|g gs]; [now rewrite <- C | rewrite N in L; discriminate].
  - intros H. rewrite H in C.
    destruct gs as [|g gs].
    + rewrite N in L. simpl in L.
      destruct (chunk_text text max_chars overlap);
        [reflexivity | discriminate].
    + inversion Hne; subst. simpl in C. destruct g; [congruence|discriminate].
Qed.

End ChunkFacts.

(* ------------------------------------------------------------------------- *)
(** ** Chunks: greedy boundaries *)
(* ------------------------------------------------------------------------- *)

Section ChunkBoundaries.

Lemma split_nl_two : forall a b,
  split_nl (a ++ nl ++ b) = split_nl a ++ split_nl b.
Proof.
  induction a as [|c t IH]; intros b; [reflexivity|].
  change ((c :: t) ++ nl ++ b) with (c :: (t ++ nl ++ b)).
  cbn [split_nl]. rewrite IH.
  destruct (code c =? 10); [reflexivity|].
  pose proof (split_nl_nonempty t) as N.
  destruct (split_nl t) as [|h r]; [congruence | reflexivity].
Qed.

Lemma first_line_two : forall a b, first_line (a ++ nl ++ b) = first_line a.
Proof.
  intros a b. unfold first_line. rewrite split_nl_two.
  pose proof (split_nl_nonempty a) as N.
  now destruct (split_nl a).
Qed.

Lemma first_line_para : forall p, nl_free p -> first_line p = p.
Proof. intros p H. unfold first_line. now rewrite split_nl_line. Qed.

Lemma first_line_buffer_plus : forall buf p,
  buf <> [] -> first_line (buffer_plus buf p) = first_line buf.
Proof.
  intros buf p H. unfold buffer_plus.
  destruct buf; [congruence|]. cbn [truthy]. apply first_line_two.
Qed.

Lemma greedy_tight : forall max_chars paras buf,
  Forall Para paras -> buf = [] \/ Trimmed buf ->
  tight max_chars (greedy_chunks max_chars buf paras)
  /\ (buf <> [] ->
      exists c rest,
        greedy_chunks max_chars buf paras = c :: rest
        /\ first_line c = first_line buf).
Proof.
  intros max_chars. induction paras as [|p ps IH]; intros buf P B.
  - simpl. unfold flush. destruct buf as [|c b]; simpl.
    + split; [exact I | congruence].
    + split; [exact I|]. intros _. now eexists _, _.
  - inversion P as [|? ? [Tp Fp] Ps]; subst. simpl.
    destruct (len (buffer_plus buf p) <=? max_chars) eqn:E.
    + destruct (IH (buffer_plus buf p) Ps) as [T H].
      { right. now apply buffer_plus_trimmed. }
      split; [exact T|]. intros Hb.
      destruct H as [c [rest [G F]]].
      { apply trimmed_nonempty. now apply buffer_plus_trimmed. }
      exists c, rest. split; [exact G|].
      now rewrite F, first_line_buffer_plus.
    + destruct (IH p Ps (or_intror Tp)) as [T H].
      destruct (H (trimmed_nonempty p Tp)) as [c [rest [G F]]].
      rewrite (first_line_para p Fp) in F.
      unfold flush. destruct buf as [|b0 b]; cbn [truthy app].
      * split; [exact T | congruence].
      * rewrite G in *. split.
        -- cbn [tight]. split; [|exact T]. rewrite F.
           apply Z.leb_gt in E. unfold buffer_plus in E. cbn [truthy] in E.
           rewrite !len_app, len_nl in E. lia.
        -- intros _. now eexists _, _.
Qed.

Lemma tight_nth : forall max_chars l i,
  tight max_chars l -> (S i < length l)%nat ->
  len (nth i l []) + len (first_line (nth (S i) l [])) + 1 > max_chars.
Proof.
  intros max_chars. induction l as [|a l IH]; intros i T H; [simpl in H; lia|].
  destruct l as [|b l]; [simpl in H; lia|].
  destruct T as [T1 T2]. destruct i as [|i]; [exact T1|].
  apply (IH i T2). simpl in *. lia.
Qed.

Lemma first_line_join : forall p g,
  nl_free p -> first_line (join nl (p :: g)) = p.
Proof.
  intros p g H. destruct g as [|q g].
  - now apply first_line_para.
  - rewrite join_cons by discriminate. rewrite first_line_two.
    now apply first_line_para.
Qed.

(** X12.  The accumulation is greedy: a chunk followed by another one
    could not have taken the first paragraph of that next chunk, their joint
    length with the newline exceeds [max_chars]; and every chunk begins
    with a whole paragraph of the text. *)
Theorem accumulated_chunks_tight : forall text max_chars i,
  (S i < length (accumulated_chunks text max_chars))%nat ->
  let this := nth i (accumulated_chunks text max_chars) [] in
  let next := nth (S i) (accumulated_chunks text max_chars) [] in
  len this + len (first_line next) + 1 > max_chars
  /\ In (first_line next) (paragraphs text).
Proof.
  intros text max_chars i H this next.
  pose proof (paragraphs_para text) as P. split.
  - apply tight_nth; [|exact H]. rewrite accumulated_greedy.
    apply greedy_tight; [exact P | now left].
  - destruct (accumulated_groups max_chars text) as [gs [E [Hne C]]].
    unfold next. rewrite E in *. rewrite length_map in H.
    rewrite (nth_indep _ [] (join nl [])) by now rewrite length_map.
    rewrite map_nth.
    assert (G : In (nth (S i) gs []) gs) by now apply nth_In.
    rewrite Forall_forall in Hne. specialize (Hne _ G).
    destruct (nth (S i) gs []) as [|p g] eqn:N; [congruence|].
    assert (Ip : In p (paragraphs text)).
    { rewrite <- C. apply in_concat. exists (p :: g). split; [exact G|].
      now left. }
    rewrite first_line_join; [exact Ip|].
    rewrite Forall_forall in P. now apply P.
Qed.

Lemma accumulated_chunks_tight_witness :
  len (nth 0 (accumulated_chunks (lit "ab" ++ nl ++ lit "cd" ++ nl
                                  ++ lit "efgh") 5) [])
  + len (first_line
           (nth 1 (accumulated_chunks (lit "ab" ++ nl ++ lit "cd" ++ nl
                                       ++ lit "efgh") 5) []))
  + 1 > 5.
Proof.
  refine (proj1 (accumulated_chunks_tight
                   (lit "ab" ++ nl ++ lit "cd" ++ nl ++ lit "efgh") 5 0 _)).
  vm_compute. lia.
Defined.

End ChunkBoundaries.

(* ------------------------------------------------------------------------- *)
(** ** Blank text and stripping before chunking *)
(* ------------------------------------------------------------------------- *)

Section BlankText.

Lemma lstrip_blank : forall w, blank w -> lstrip w = [].
Proof.
  unfold blank. induction w as [|c w IH]; simpl; intros H; [reflexivity|].
  apply andb_true_iff in H. destruct H as [C W]. rewrite C. now apply IH.
Qed.

Lemma lstrip_nil_blank : forall s, lstrip s = [] -> blank s.
Proof.
  unfold blank. induction s as [|c s IH]; simpl; intros H; [reflexivity|].
  destruct (isspace c); [now apply IH | discriminate].
Qed.

Lemma lstrip_blank_app : forall w x, blank w -> lstrip (w ++ x) = lstrip x.
Proof.
  unfold blank. induction w as [|c w IH]; simpl; intros x H; [reflexivity|].
  apply andb_true_iff in H. destruct H as [C W]. rewrite C. now apply IH.
Qed.

Lemma blank_rev : forall w, blank w -> blank (rev w).
Proof.
  unfold blank. intros w H. rewrite forallb_forall in *.
  intros c Hc. apply H. now apply in_rev.
Qed.

Lemma rstrip_app_blank : forall y w, blank w -> rstrip (y ++ w) = rstrip y.
Proof.
  intros y w H. unfold rstrip. rewrite rev_app_distr.
  now rewrite lstrip_blank_app by now apply blank_rev.
Qed.

Lemma strip_blank : forall s, blank s <-> strip s = [].
Proof.
  intros s. split.
  - intros H. unfold strip. now rewrite lstrip_blank.
  - intros H. unfold strip in H.
    destruct (lstrip_cases s) as [E | E]; [now apply lstrip_nil_blank|].
    exfalso. unfold rstrip in H.
    apply (f_equal (@rev ascii)) in H. rewrite rev_involutive in H.
    simpl in H. apply lstrip_nil_blank in H. apply blank_rev in H.
    rewrite rev_involutive in H.
    destruct (lstrip s) as [|c t]; [discriminate|].
    unfold blank in H. simpl in H, E.
    destruct (isspace c); discriminate.
Qed.

Lemma strip_blank_app : forall w x, blank w -> strip (w ++ x) = strip x.
Proof. intros w x H. unfold strip. now rewrite lstrip_blank_app. Qed.

Lemma strip_app_blank : forall l w, blank w -> strip (l ++ w) = strip l.
Proof.
  intros l w H. unfold strip.
  destruct (lstrip l) as [|c t] eqn:E.
  - apply lstrip_nil_blank in E.
    rewrite lstrip_blank_app by exact E. now rewrite lstrip_blank.
  - rewrite lstrip_app by (rewrite E; discriminate).
    rewrite E. now apply rstrip_app_blank.
Qed.

Lemma paragraphs_cons_space : forall c x,
  isspace c = true -> paragraphs (c :: x) = paragraphs x.
Proof.
  intros c x H. unfold paragraphs. cbn [split_nl].
  destruct (code c =? 10); [reflexivity|].
  pose proof (split_nl_nonempty x) as N.
  destruct (split_nl x) as [|h r]; [congruence|].
  cbn [filter map].
  assert (E : strip (c :: h) = strip h).
  { apply (strip_blank_app [c] h). unfold blank. simpl. now rewrite H. }
  rewrite E. now destruct (truthy (strip h)); cbn [map]; rewrite ?E.
Qed.

Lemma paragraphs_blank_prefix : forall w x,
  blank w -> paragraphs (w ++ x) = paragraphs x.
Proof.
  unfold blank. induction w as [|c w IH]; simpl; intros x H; [reflexivity|].
  apply andb_true_iff in H. destruct H as [C W].
  rewrite paragraphs_cons_space by exact C. now apply IH.
Qed.

Lemma paragraphs_blank : forall w, blank w -> paragraphs w = [].
Proof.
  intros w H. rewrite <- (app_nil_r w).
  now rewrite paragraphs_blank_prefix.
Qed.

(** Lines of a concatenation: the last line of the first part runs into the
    first line of the second. *)
Lemma split_nl_app_lines : forall x y,
  split_nl (x ++ y)
  = removelast (split_nl x)
    ++ (last (split_nl x) [] ++ hd [] (split_nl y)) :: tl (split_nl y).
Proof.
  induction x as [|c t IH]; intros y.
  - simpl. pose proof (split_nl_nonempty y) as N.
    now destruct (split_nl y).
  - change ((c :: t) ++ y) with (c :: (t ++ y)). cbn [split_nl].
    rewrite IH. pose proof (split_nl_nonempty t) as N.
    destruct (code c =? 10).
    + destruct (split_nl t) as [|h r]; [congruence | reflexivity].
    + destruct (split_nl t) as [|h r]; [congruence|].
      destruct r as [|h' r]; reflexivity.
Qed.

Lemma split_nl_blank : forall w, blank w -> Forall blank (split_nl w).
Proof.
  unfold blank. induction w as [|c w IH]; simpl; intros H.
  - now repeat constructor.
  - apply andb_true_iff in H. destruct H as [C W]. specialize (IH W).
    destruct (code c =? 10); [constructor; [reflexivity | exact IH]|].
    destruct (split_nl w) as [|h r]; [repeat constructor; simpl; now rewrite C|].
    inversion IH; subst. constructor; [|assumption].
    simpl. now rewrite C.
Qed.

Lemma paragraphs_of_lines : forall lines,
  Forall blank lines ->
  map strip (filter (fun p => truthy (strip p)) lines) = [].
Proof.
  induction lines as [|l ls IH]; intros F; [reflexivity|].
  inversion F; subst. simpl.
  assert (E : strip l = []) by now apply strip_blank.
  rewrite E. simpl. now apply IH.
Qed.

Lemma paragraphs_blank_suffix : forall x w,
  blank w -> paragraphs (x ++ w) = paragraphs x.
Proof.
  intros x w H. unfold paragraphs. rewrite split_nl_app_lines.
  pose proof (split_nl_blank w H) as B.
  pose proof (split_nl_nonempty w) as Nw.
  pose proof (split_nl_nonempty x) as Nx.
  destruct (split_nl w) as [|w1 ws]; [congruence|].
  inversion B; subst. cbn [hd tl].
  destruct (exists_last Nx) as [init [l0 E]]. rewrite E.
  rewrite removelast_last, last_last.
  rewrite !filter_app, !map_app. f_equal.
  cbn [filter]. rewrite strip_app_blank by assumption.
  destruct (truthy (strip l0)); cbn [map].
  - rewrite strip_app_blank by assumption. f_equal.
    now apply paragraphs_of_lines.
  - now apply paragraphs_of_lines.
Qed.

Lemma paragraphs_strip : forall text, paragraphs (strip text) = paragraphs text.
Proof.
  intros text.
  destruct (strip_decompose text) as [pre [post [E [B1 [B2 _]]]]].
  rewrite E at 2.
  rewrite paragraphs_blank_prefix by exact B1.
  now rewrite paragraphs_blank_suffix by exact B2.
Qed.

Lemma chunk_text_paragraphs : forall a b max_chars overlap,
  paragraphs a = paragraphs b ->
  chunk_text a max_chars overlap = chunk_text b max_chars overlap.
Proof.
  intros a b max_chars overlap H.
  unfold chunk_text, accumulated_chunks. now rewrite H.
Qed.

Lemma paragraphs_nonblank : forall text,
  strip text <> [] -> paragraphs text <> [].
Proof.
  intros text H. rewrite <- paragraphs_strip.
  pose proof (strip_is_trimmed text H) as [S _].
  destruct (strip text) as [|c x]; [congruence|]. simpl in S.
  unfold paragraphs. cbn [split_nl].
  assert (C : (code c =? 10) = false).
  { destruct (code c =? 10) eqn:E; [|reflexivity].
    apply Z.eqb_eq in E. apply isspace_nl in E. rewrite E in S.
    discriminate. }
  rewrite C. pose proof (split_nl_nonempty x) as N.
  destruct (split_nl x) as [|h r]; [congruence|]. cbn [filter].
  assert (T : Trimmed (strip (c :: h))).
  { apply strip_is_trimmed. unfold strip.
    rewrite lstrip_starts_ok by exact S.
    unfold rstrip. intros E. apply (f_equal (@rev ascii)) in E.
    rewrite rev_involutive in E. revert E.
    apply ends_ok_nonempty, ends_ok_lstrip.
    unfold ends_ok. now rewrite rev_involutive. }
  rewrite (trimmed_truthy _ T). discriminate.
Qed.

Lemma no_chunks_iff : forall text max_chars overlap,
  chunk_text text max_chars overlap = [] <-> paragraphs text = [].
Proof.
  intros text max_chars overlap.
  pose proof (length_chunk_text text max_chars overlap) as L.
  destruct (accumulated_groups max_chars text) as [gs [E [Hne C]]].
  rewrite E, length_map in L. split.
  - intros H. rewrite H in L. destruct gs; [now rewrite <- C | discriminate].
  - intros H. rewrite H in C. destruct gs as [|g gs].
    + destruct (chunk_text text max_chars overlap);
        [reflexivity | discriminate].
    + inversion Hne; subst. simpl in C.
      destruct g; [congruence | discriminate].
Qed.

(** X13.  Stripping a text before chunking changes nothing: the stripped
    text has the same paragraphs and the same chunks; and a text gives no
    chunk exactly when it is blank, so a text that survives the emptiness
    test of the indexer always gives at least one chunk. *)
Theorem chunk_text_ignores_outer_whitespace :
  forall text max_chars overlap,
  paragraphs (strip text) = paragraphs text
  /\ chunk_text (strip text) max_chars overlap
     = chunk_text text max_chars overlap
  /\ (chunk_text text max_chars overlap = [] <-> strip text = []).
Proof.
  intros text max_chars overlap.
  split; [apply paragraphs_strip|]. split.
  - apply chunk_text_paragraphs, paragraphs_strip.
  - rewrite no_chunks_iff. split.
    + intros H. destruct (strip text) eqn:E; [reflexivity|].
      exfalso. apply (paragraphs_nonblank text); [rewrite E; discriminate|].
      exact H.
    + intros H. apply paragraphs_blank. now apply strip_blank.
Qed.

End BlankText.

(* ------------------------------------------------------------------------- *)
(** ** Extraction *)
(* ------------------------------------------------------------------------- *)

Section Extraction.

Lemma paragraphs_two : forall a b,
  paragraphs (a ++ nl ++ b) = paragraphs a ++ paragraphs b.
Proof.
  intros a b. unfold paragraphs.
  now rewrite split_nl_two, filter_app, map_app.
Qed.

Lemma paragraphs_join : forall texts,
  paragraphs (join nl texts) = flat_map paragraphs texts.
Proof.
  induction texts as [|a l IH]; [reflexivity|].
  destruct l as [|b l].
  - simpl. now rewrite app_nil_r.
  - rewrite join_cons by discriminate. rewrite paragraphs_two, IH.
    reflexivity.
Qed.

Lemma paragraphs_dropped : forall t,
  truthy t && truthy (strip t) = false -> paragraphs t = [].
Proof.
  intros t H. apply paragraphs_blank, strip_blank.
  destruct t as [|c t]; [reflexivity|]. cbn [truthy andb] in H.
  now apply truthy_false.
Qed.

(** X14.  The text [extract_docx] builds has exactly the paragraphs of the
    document's paragraphs, in order (a paragraph with line breaks inside
    gives several), and stripping that text, as the indexer does, changes
    none of them. *)
Theorem extract_docx_paragraphs : forall texts,
  paragraphs (extract_docx texts) = flat_map paragraphs texts
  /\ paragraphs (strip (extract_docx texts)) = flat_map paragraphs texts.
Proof.
  intros texts.
  assert (E : paragraphs (extract_docx texts) = flat_map paragraphs texts).
  { unfold extract_docx. rewrite paragraphs_join.
    induction texts as [|t l IH]; [reflexivity|]. cbn [filter flat_map].
    destruct (truthy t && truthy (strip t)) eqn:K.
    - cbn [flat_map]. now rewrite IH.
    - now rewrite (paragraphs_dropped t K). }
  split; [exact E|]. now rewrite paragraphs_strip.
Qed.

Lemma pdf_pages_from : forall page_texts start no content,
  In (no, content)
     (flat_map
        (fun '(idx, t) =>
           let content := strip (or_default t []) in
           if truthy content then [(Z.of_nat idx, content)] else [])
        (combine (seq start (length page_texts)) page_texts)) ->
  exists i,
    no = Z.of_nat (start + i) /\ (i < length page_texts)%nat
    /\ content = strip (or_default (nth i page_texts None) [])
    /\ content <> [].
Proof.
  induction page_texts as [|t l IH]; intros start no content H;
    [contradiction|].
  cbn [length seq combine flat_map] in H. apply in_app_or in H.
  destruct H as [H | H].
  - destruct (strip (or_default t [])) eqn:E; [contradiction|].
    destruct H as [H | []]. inversion H; subst.
    exists O. rewrite Nat.add_0_r. simpl. rewrite E.
    repeat split; try lia; discriminate.
  - destruct (IH (S start) no content H) as [i [Hn [Hi [Hc Hne]]]].
    exists (S i). simpl. repeat split; try assumption; lia.
Qed.

Lemma pdf_pages_sorted : forall page_texts start,
  StronglySorted Z.lt
    (map fst
       (flat_map
          (fun '(idx, t) =>
             let content := strip (or_default t []) in
             if truthy content then [(Z.of_nat idx, content)] else [])
          (combine (seq start (length page_texts)) page_texts))).
Proof.
  induction page_texts as [|t l IH]; intros start; [constructor|].
  cbn [length seq combine flat_map]. rewrite map_app.
  destruct (truthy (strip (or_default t []))); simpl; [|apply IH].
  constructor; [apply IH|].
  apply Forall_forall. intros no Hno. apply in_map_iff in Hno.
  destruct Hno as [[no' content] [<- Hin]].
  destruct (pdf_pages_from l (S start) no' content Hin) as [i [-> _]].
  simpl. lia.
Qed.

Lemma pdf_pages_complete : forall page_texts start i,
  (i < length page_texts)%nat ->
  strip (or_default (nth i page_texts None) []) <> [] ->
  In (Z.of_nat (start + i),
      strip (or_default (nth i page_texts None) []))
     (flat_map
        (fun '(idx, t) =>
           let content := strip (or_default t []) in
           if truthy content then [(Z.of_nat idx, content)] else [])
        (combine (seq start (length page_texts)) page_texts)).
Proof.
  induction page_texts as [|t l IH]; intros start i Hi Hc;
    [simpl in Hi; lia|].
  cbn [length seq combine flat_map]. apply in_or_app.
  destruct i as [|i].
  - left. cbn [nth] in *. apply truthy_true in Hc. rewrite Hc.
    rewrite Nat.add_0_r. now left.
  - right. cbn [nth] in *. simpl in Hi.
    replace (start + S i)%nat with (S start + i)%nat by lia.
    apply IH; [lia | exact Hc].
Qed.

(** X15.  [extract_pdf_pages] numbers the pages from 1 in reading order
    and keeps exactly the pages with text: the page numbers it returns go
    strictly up, each lies within the document, and each content is the
    non-empty stripped text of that page; conversely every page whose
    stripped text is not empty is returned under its number; it returns
    nothing exactly when every page is blank or without text. *)
Theorem extract_pdf_pages_numbered : forall page_texts,
  let pages := extract_pdf_pages page_texts in
  StronglySorted Z.lt (map fst pages)
  /\ (forall page_no content, In (page_no, content) pages ->
        1 <= page_no <= len page_texts
        /\ Trimmed content
        /\ content
           = strip (or_default
                      (nth (Z.to_nat page_no - 1) page_texts None) []))
  /\ (forall page_no,
        1 <= page_no <= len page_texts ->
        strip (or_default (nth (Z.to_nat page_no - 1) page_texts None) [])
        <> [] ->
        In (page_no,
            strip (or_default
                     (nth (Z.to_nat page_no - 1) page_texts None) []))
           pages)
  /\ (pages = [] <-> Forall (fun t => blank (or_default t [])) page_texts).
Proof.
  intros page_texts pages. split; [apply pdf_pages_sorted|].
  split; [|split].
  - intros page_no content H.
    destruct (pdf_pages_from page_texts 1 page_no content H)
      as [i [-> [Hi [Hc Hne]]]].
    unfold len. split; [lia|]. split.
    + rewrite Hc in *. now apply strip_is_trimmed.
    + rewrite Hc. do 3 f_equal. lia.
  - intros page_no R C. unfold len in R.
    replace page_no with (Z.of_nat (1 + (Z.to_nat page_no - 1))) at 1
      by lia.
    apply pdf_pages_complete; [lia | exact C].
  - unfold pages, extract_pdf_pages. generalize 1%nat.
    induction page_texts as [|t l IH]; intros start.
    + simpl. split; [constructor | reflexivity].
    + cbn [length seq combine flat_map].
      destruct (strip (or_default t [])) as [|c s] eqn:E; cbn [truthy app].
      * rewrite IH. split.
        -- intros F. constructor; [now apply strip_blank | exact F].
        -- intros F. now inversion F.
      * split; [discriminate|]. intros F. inversion F; subst.
        apply strip_blank in H1. congruence.
Qed.

Lemma extract_pdf_pages_numbered_witness :
  1 <= 4 <= len [Some (lit " Zweck "); Some (lit "  "); None;
                 Some (lit "Sitz")]
  /\ Trimmed (lit "Sitz")
  /\ lit "Sitz"
     = strip (or_default
                (nth (Z.to_nat 4 - 1)
                   [Some (lit " Zweck "); Some (lit "  "); None;
                    Some (lit "Sitz")] None) []).
Proof.
  apply (proj1 (proj2 (extract_pdf_pages_numbered
           [Some (lit " Zweck "); Some (lit "  "); None;
            Some (lit "Sitz")])) 4 (lit "Sitz")).
  vm_compute. right. left. reflexivity.
Defined.

End Extraction.

(* ------------------------------------------------------------------------- *)
(** ** The indexing run *)
(* ------------------------------------------------------------------------- *)

Section IndexingRun.

Variable vec : Type.
Variable env : disk vec.

Lemma enumerate_from : forall (A : Type) (l : list A) start n x,
  In (n, x) (combine (seq start (length l)) l)
  <-> (start <= n)%nat /\ nth_error l (n - start) = Some x.
Proof.
  induction l as [|y l IH]; intros start n x.
  - simpl. split; [contradiction|]. intros [_ H].
    destruct (n - start)%nat; discriminate H.
  - cbn [length seq combine In]. rewrite IH. split.
    + intros [E | [L H]].
      * inversion E; subst. rewrite Nat.sub_diag. now split.
      * split; [lia|].
        replace (n - start)%nat with (S (n - S start)) by lia. exact H.
    + intros [L H]. destruct (Nat.eq_dec start n) as [-> | N].
      * left. rewrite Nat.sub_diag in H. simpl in H. now inversion H.
      * right. split; [lia|].
        replace (n - start)%nat with (S (n - S start)) in H by lia.
        exact H.
Qed.

Lemma in_numbered_chunks : forall page text page' idx chunk,
  In (page', idx, chunk) (numbered_chunks page text)
  <-> page' = page /\ 0 <= idx
      /\ nth_error (chunk_text text MAX_CHARS OVERLAP) (Z.to_nat idx)
         = Some chunk.
Proof.
  intros page text page' idx chunk. unfold numbered_chunks.
  rewrite in_map_iff. split.
  - intros [[i ch] [E H]]. inversion E; subst.
    apply (enumerate_from _ _ 0%nat) in H. destruct H as [_ H].
    rewrite Nat.sub_0_r in H. rewrite Nat2Z.id.
    split; [reflexivity|]. split; [lia | exact H].
  - intros [-> [P H]]. exists (Z.to_nat idx, chunk). split.
    + rewrite Z2Nat.id by exact P. reflexivity.
    + apply (enumerate_from _ _ 0%nat). rewrite Nat.sub_0_r.
      split; [lia | exact H].
Qed.

Lemma in_extract_pdf_pages : forall page_texts page_no content,
  In (page_no, content) (extract_pdf_pages page_texts)
  <-> 1 <= page_no <= len page_texts
      /\ content
         = strip (or_default (nth (Z.to_nat page_no - 1) page_texts None) [])
      /\ content <> [].
Proof.
  intros page_texts page_no content. split.
  - intros H.
    destruct (pdf_pages_from page_texts 1 page_no content H)
      as [i [-> [Hi [Hc Hne]]]].
    unfold len. split; [lia|]. split; [|exact Hne].
    rewrite Hc. do 3 f_equal. lia.
  - intros [R [-> C]]. unfold len in R.
    replace page_no with (Z.of_nat (1 + (Z.to_nat page_no - 1))) at 1
      by lia.
    apply pdf_pages_complete; [lia | exact C].
Qed.

(** The chunks made of a file are the chunks of its own text, all of
    them. *)
Lemma file_chunks_members : forall filename items,
  file_chunks env filename = inr items ->
  forall item, In item items <-> chunk_of_file env filename item.
Proof.
  intros filename items H [[page idx] chunk].
  unfold file_chunks in H. unfold chunk_of_file.
  destruct (endswith (lower filename) (lit ".pdf")).
  - destruct (pdf_page_texts env (full_path env filename)) as [pt|];
      [|discriminate].
    destruct (negb (truthy (extract_pdf_pages pt))); [discriminate|].
    inversion H; subst; clear H. rewrite in_flat_map. split.
    + intros [[page_no page_text] [Hp Hi]].
      apply in_numbered_chunks in Hi. destruct Hi as [-> [P N]].
      apply in_extract_pdf_pages in Hp. destruct Hp as [R [-> C]].
      split; [exact P|]. exists pt, page_no. now repeat split.
    + intros [P [pt' [p [E [-> [R N]]]]]]. inversion E; subst pt'.
      exists (p, strip (or_default (nth (Z.to_nat p - 1) pt None) [])).
      split.
      * apply in_extract_pdf_pages. split; [exact R|].
        split; [reflexivity|]. intros C. rewrite C in N.
        destruct (Z.to_nat idx); discriminate N.
      * apply in_numbered_chunks. now repeat split.
  - destruct (extract_plain_text_file env (full_path env filename))
      as [s| |]; try discriminate.
    destruct (negb (truthy (strip s))); [discriminate|].
    inversion H; subst; clear H. rewrite in_numbered_chunks. split.
    + intros [-> [P N]]. split; [exact P|]. exists s. now repeat split.
    + intros [P [s' [E [-> N]]]]. inversion E; subst s'. now repeat split.
Qed.

Lemma embedded_cons : forall n item (rest : list (option Z * Z * str)),
  embedded env n (item :: rest)
  = match embedding_service env n (snd item) with
    | Some emb => [(item, emb)]
    | None => []
    end ++ embedded env (S n) rest.
Proof. reflexivity. Qed.

(** The embedding loop adds to the four lists the chunks that got an
    embedding, in order. *)
Lemma embed_loop_spec : forall filename items b n,
  fold_left (embed_chunk env filename (classify_doc_type filename)) items
    (b, n)
  = (Batch (b_ids b ++ map (entry_id filename) (embedded env n items))
       (b_embeddings b ++ map snd (embedded env n items))
       (b_documents b ++ map entry_doc (embedded env n items))
       (b_metadatas b ++ map (entry_meta filename) (embedded env n items)),
     (n + length items)%nat).
Proof.
  intros filename. induction items as [|[[page idx] chunk] rest IH];
    intros b n.
  - destruct b. cbn. rewrite !app_nil_r. f_equal. lia.
  - cbn [fold_left]. rewrite embedded_cons. cbn [snd].
    replace (embed_chunk env filename (classify_doc_type filename) (b, n)
               (page, idx, chunk))
      with (match embedding_service env n chunk with
            | None => (b, S n)
            | Some emb =>
                (Batch (b_ids b ++ [stable_id filename page idx chunk])
                   (b_embeddings b ++ [emb]) (b_documents b ++ [chunk])
                   (b_metadatas b
                    ++ [Meta (Some filename)
                          (Some (classify_doc_type filename)) page
                          (Some idx)]),
                 S n)
            end) by reflexivity.
    destruct (embedding_service env n chunk) as [emb|]; rewrite IH.
    + cbn [b_ids b_embeddings b_documents b_metadatas app map entry_id
           entry_doc entry_meta snd length].
      rewrite <- !app_assoc. cbn [app]. f_equal. lia.
    + cbn [app length]. f_equal. lia.
Qed.

Lemma sum_added_snoc : forall (calls : list (batch vec * bool)) b ok,
  sum_added (calls ++ [(b, ok)])
  = sum_added calls + (if ok then len (b_ids b) else 0).
Proof.
  induction calls as [|[b' ok'] rest IH]; intros b ok; simpl; [lia|].
  rewrite IH. lia.
Qed.

Lemma sum_added_nonneg : forall calls : list (batch vec * bool),
  0 <= sum_added calls.
Proof.
  induction calls as [|[b ok] rest IH]; simpl; [lia|].
  destruct ok; unfold len; lia.
Qed.

Lemma index_file_ok : forall files r filename,
  In filename files -> run_ok env files r ->
  run_ok env files (fst (index_file env r filename)).
Proof.
  intros files r filename Hf [B T]. unfold index_file.
  destruct (file_chunks env filename) as [goes_on | items] eqn:C;
    [now split|].
  rewrite embed_loop_spec.
  cbn [b_ids b_embeddings b_documents b_metadatas app].
  remember (embedded env (embedding_calls r) items) as kept eqn:K.
  assert (N : truthy (map (entry_id filename) kept) = truthy kept)
    by now destruct kept.
  rewrite N. destruct (truthy kept) eqn:Tk; cbn [negb]; [|now split].
  assert (Ok : exists f,
             In f files
             /\ batch_of env f
                  (Batch (map (entry_id filename) kept) (map snd kept)
                     (map entry_doc kept) (map (entry_meta filename) kept))).
  { exists filename. split; [exact Hf|].
    exists items, (embedding_calls r). split; [exact C|].
    rewrite <- K. split; [now apply truthy_true | reflexivity]. }
  destruct (collection_add env (add_calls r) _); unfold run_ok;
    cbn [fst add_calls total_added].
  - split.
    + apply Forall_app. split; [exact B|].
      constructor; [exact Ok | constructor].
    + rewrite sum_added_snoc, T. reflexivity.
  - split.
    + apply Forall_app. split; [exact B|].
      constructor; [exact Ok | constructor].
    + rewrite sum_added_snoc, T. lia.
Qed.

Lemma index_files_ok : forall files todo r,
  incl todo files -> run_ok env files r ->
  run_ok env files (fst (index_files env r todo)).
Proof.
  intros files. induction todo as [|f rest IH]; intros r I R; [exact R|].
  cbn [index_files].
  pose proof (index_file_ok files r f (I f (or_introl eq_refl)) R) as R'.
  destruct (index_file env r f) as [r' goes_on]. cbn [fst] in R'.
  destruct goes_on; [|exact R'].
  apply IH; [|exact R']. intros x Hx. apply I. now right.
Qed.

Lemma index_documents_ok :
  run_ok env (supported_files env) (fst (index_documents env)).
Proof.
  assert (R0 : run_ok env (supported_files env) (Run 0 [] 0))
    by (split; [constructor | reflexivity]).
  unfold index_documents.
  destruct (listdir env); [|exact R0].
  destruct (negb (truthy (supported_files env))); [exact R0|].
  pose proof (index_files_ok (supported_files env) (supported_files env)
                (Run 0 [] 0) (incl_refl _) R0) as R.
  destruct (index_files env (Run 0 [] 0) (supported_files env))
    as [r goes_on].
  now destruct goes_on.
Qed.

(** X16.  Every batch the indexer hands to [collection.add] is the batch
    of one supported file of the directory: it holds, in the order of the
    file's chunks, exactly the chunks of that file whose embedding call
    succeeded, at least one, each with that embedding, its text, the
    metadata naming the file, its document type, page and chunk index, and
    the content identifier of exactly that file, page, index and text.
    The chunks of a file are the chunks of its own text and all of them:
    for a plain file the chunks of its stripped text, without page; for a
    PDF the chunks of the stripped text of each page, under the number of
    the page. *)
Theorem index_documents_batches :
  Forall (fun c => exists filename,
                     In filename (supported_files env)
                     /\ batch_of env filename (fst c))
    (add_calls (fst (index_documents env)))
  /\ (forall filename items,
        file_chunks env filename = inr items ->
        forall item, In item items <-> chunk_of_file env filename item).
Proof.
  split; [apply index_documents_ok | exact file_chunks_members].
Qed.

(** X17.  The total the indexer reports is the number of entries of the
    [collection.add] calls that went through; batches the store refused
    and chunks without embedding are not counted. *)
Theorem index_documents_total :
  total_added (fst (index_documents env))
  = sum_added (add_calls (fst (index_documents env)))
  /\ 0 <= total_added (fst (index_documents env)).
Proof.
  destruct index_documents_ok as [_ T]. split; [exact T|].
  rewrite T. apply sum_added_nonneg.
Qed.

End IndexingRun.

Section IndexingEnds.

Variable vec : Type.
Variable env : disk vec.

Lemma startswith_app : forall p x y,
  startswith p x = true -> startswith p (x ++ y) = true.
Proof.
  intros p x y H. apply startswith_prefix in H. destruct H as [post ->].
  apply startswith_prefix. exists (post ++ y). now rewrite app_assoc.
Qed.

Lemma endswith_app : forall a b suffix,
  endswith b suffix = true -> endswith (a ++ b) suffix = true.
Proof.
  intros a b suffix H. unfold endswith in *. rewrite rev_app_distr.
  now apply startswith_app.
Qed.

Lemma endswith_full_path : forall filename suffix,
  endswith (lower filename) suffix = true ->
  endswith (lower (full_path env filename)) suffix = true.
Proof.
  intros filename suffix H. unfold full_path, lower in *.
  rewrite !map_app. now do 2 apply endswith_app.
Qed.

Lemma supported_plain_dispatch : forall filename,
  In filename (supported_files env) ->
  endswith (lower filename) (lit ".pdf") = false ->
  extract_plain_text_file env (full_path env filename) <> Unsupported.
Proof.
  intros filename S P. unfold supported_files in S.
  apply filter_In in S. destruct S as [_ S].
  unfold endswith_any in S. cbn [existsb] in S. rewrite P in S.
  rewrite orb_false_r in S. cbn [orb] in S.
  unfold extract_plain_text_file, endswith_any. cbn [existsb].
  rewrite orb_false_r.
  destruct (endswith (lower filename) (lit ".txt")) eqn:T.
  { rewrite (endswith_full_path _ _ T). cbn [orb].
    destruct (read_text env (full_path env filename)); discriminate. }
  destruct (endswith (lower filename) (lit ".md")) eqn:M.
  { rewrite (endswith_full_path _ _ M). rewrite orb_true_r.
    destruct (read_text env (full_path env filename)); discriminate. }
  cbn [orb] in S. rewrite (endswith_full_path _ _ S).
  destruct (endswith (lower (full_path env filename)) (lit ".txt")
            || endswith (lower (full_path env filename)) (lit ".md")).
  - destruct (read_text env (full_path env filename)); discriminate.
  - destruct (docx_paragraphs env (full_path env filename)); discriminate.
Qed.

Lemma index_file_stops : forall r filename,
  In filename (supported_files env) ->
  snd (index_file env r filename) = false -> reader_raised env filename.
Proof.
  intros r filename S H. unfold index_file in H.
  destruct (file_chunks env filename) as [goes_on | items] eqn:C.
  - cbn [snd] in H. subst goes_on. unfold file_chunks in C.
    unfold reader_raised.
    destruct (endswith (lower filename) (lit ".pdf")) eqn:P.
    + left. split; [reflexivity|].
      destruct (pdf_page_texts env (full_path env filename));
        [|reflexivity].
      destruct (negb (truthy (extract_pdf_pages l))); discriminate.
    + right. split; [reflexivity|].
      pose proof (supported_plain_dispatch filename S P) as U.
      destruct (extract_plain_text_file env (full_path env filename));
        [|reflexivity | congruence].
      destruct (negb (truthy (strip s))); discriminate.
  - destruct (fold_left _ items _) as [b n].
    destruct (negb (truthy (b_ids b))); [discriminate|].
    destruct (collection_add env (add_calls r) b); discriminate.
Qed.

Lemma index_files_stops : forall todo r,
  incl todo (supported_files env) ->
  snd (index_files env r todo) = false ->
  exists filename,
    In filename (supported_files env) /\ reader_raised env filename.
Proof.
  induction todo as [|f rest IH]; intros r I H; [discriminate|].
  cbn [index_files] in H.
  pose proof (index_file_stops r f (I f (or_introl eq_refl))) as S.
  destruct (index_file env r f) as [r' goes_on]. cbn [snd] in S.
  destruct goes_on.
  - apply (IH r'); [|exact H]. intros x Hx. apply I. now right.
  - exists f. split; [apply I; now left | now apply S].
Qed.

Lemma readers_never_raise : forall filename,
  (forall path,
     pdf_page_texts env path <> None
     /\ read_text env path <> None
     /\ docx_paragraphs env path <> None) ->
  ~ reader_raised env filename.
Proof.
  intros f T [[_ R] | [_ R]].
  - now destruct (T (full_path env f)) as [A _].
  - destruct (T (full_path env f)) as [_ [A B]].
    unfold extract_plain_text_file in R.
    destruct (endswith_any (lower (full_path env f)) [lit ".txt"; lit ".md"]).
    + destruct (read_text env (full_path env f)); [discriminate | congruence].
    + destruct (endswith (lower (full_path env f)) (lit ".docx"));
        [|discriminate].
      destruct (docx_paragraphs env (full_path env f));
        [discriminate | congruence].
Qed.

(** X18.  Console output aside, an indexing run is ended early only by the
    directory listing raising, by a reader raising on a supported file, or
    by the final [collection.count()] raising: the unsupported-type error
    of [extract_plain_text_file] cannot occur for a file that passed the
    suffix filter, and failures of the embedding service or of
    [collection.add] never stop the run.  When neither the listing nor a
    reader raises, the run works through all files, and it returns exactly
    when there was no supported file or the final count returns. *)
Theorem index_documents_returns :
  (forall filename,
     In filename (supported_files env) ->
     endswith (lower filename) (lit ".pdf") = false ->
     extract_plain_text_file env (full_path env filename) <> Unsupported)
  /\ (snd (index_documents env) = false ->
      listdir env = None
      \/ (exists filename,
            In filename (supported_files env) /\ reader_raised env filename)
      \/ collection_count env (add_calls (fst (index_documents env)))
         = false)
  /\ (readers_total env ->
      (snd (index_documents env) = true
       <-> supported_files env = []
           \/ collection_count env (add_calls (fst (index_documents env)))
              = true)).
Proof.
  split; [exact supported_plain_dispatch|]. unfold index_documents. split.
  - destruct (listdir env) as [names|]; [|now left].
    destruct (negb (truthy (supported_files env))); [discriminate|].
    pose proof (index_files_stops (supported_files env) (Run 0 [] 0)
                  (incl_refl _)) as S.
    destruct (index_files env (Run 0 [] 0) (supported_files env))
      as [r goes_on].
    destruct goes_on; cbn [fst snd] in *.
    + intros H. right. now right.
    + intros _. right. left. now apply S.
  - intros [L T]. destruct (listdir env) as [names|]; [|congruence].
    destruct (supported_files env) as [|f files] eqn:F;
      cbn [truthy negb fst snd].
    { split; [now left | reflexivity]. }
    rewrite <- F.
    pose proof (index_files_stops (supported_files env) (Run 0 [] 0)
                  (incl_refl _)) as S.
    destruct (index_files env (Run 0 [] 0) (supported_files env))
      as [r goes_on].
    destruct goes_on; cbn [fst snd] in *.
    + split; [now right|]. intros [H | H]; [|exact H].
      rewrite F in H. discriminate H.
    + destruct (S eq_refl) as [g [_ R]].
      now elim (readers_never_raise g T).
Qed.

End IndexingEnds.

Lemma index_documents_returns_witness :
  snd (index_documents sample_disk) = true.
Proof.
  assert (T : readers_total sample_disk).
  { split; [discriminate|]. intros path. repeat split; discriminate. }
  apply (proj2 (proj2 (index_documents_returns nat sample_disk)) T).
  right. reflexivity.
Defined.

(* ------------------------------------------------------------------------- *)
(** ** The rolling summary *)
(* ------------------------------------------------------------------------- *)

Section RollingSummary.

Variable vec : Type.
Variable build_summary_prompt : str -> list Message -> str.

(** X19.  At or below the trigger nothing is compacted: step 3 of [chat]
    only counts the messages, calls neither the summarizer nor
    [set_summary] nor [delete_oldest_messages], and hands back summary,
    history and database as they were. *)
Theorem rolling_summary_idle :
  forall (env : services vec) w sid summary history,
  count_messages (w_db w) sid <= SUMMARY_TRIGGER_MESSAGES ->
  rolling_summary build_summary_prompt env sid summary history w
  = ((summary, history),
     World (w_db w) (SATZUNG_PRESENT w) (trace w ++ [CallCountMessages sid])).
Proof.
  intros env w sid summary history H. unfold rolling_summary. run.
  assert (E : (count_messages (w_db w) sid >? SUMMARY_TRIGGER_MESSAGES)
              = false).
  { rewrite Z.gtb_ltb. apply Z.ltb_ge. exact H. }
  now rewrite E.
Qed.

Lemma slice_to_negative : forall (A : Type) (l : list A) k,
  0 < k -> slice_to l (- k) = firstn (length l - Z.to_nat k) l.
Proof.
  intros A l k H. unfold slice_to, clamp_index.
  assert (E : (- k <? 0) = true) by (apply Z.ltb_lt; lia).
  rewrite E. f_equal. lia.
Qed.

(** The slice the summarizer gets. *)
Lemma older_slice_shape : forall d sid,
  wf_db d ->
  older_slice d sid
  = map as_message
      (firstn (Nat.min (length (of_session sid (messages d))) 32 - 12)
         (most_recent 32 (of_session sid (messages d)))).
Proof.
  intros d sid W. unfold older_slice.
  rewrite get_last_messages_nonneg
    by (assumption || unfold SUMMARY_TRIGGER_MESSAGES, KEEP_LAST_MESSAGES; lia).
  change (Z.to_nat (SUMMARY_TRIGGER_MESSAGES + KEEP_LAST_MESSAGES))
    with 32%nat.
  set (recent := most_recent 32 (of_session sid (messages d))).
  assert (L : length recent
              = Nat.min (length (of_session sid (messages d))) 32).
  { unfold recent. rewrite length_most_recent. lia. }
  unfold KEEP_LAST_MESSAGES.
  destruct (len (map as_message recent) >? 12) eqn:E.
  - rewrite slice_to_negative by lia. rewrite firstn_map, length_map, L.
    reflexivity.
  - rewrite Z.gtb_ltb in E. apply Z.ltb_ge in E. unfold len in E.
    rewrite length_map, L in E.
    replace (Nat.min (length (of_session sid (messages d))) 32 - 12)%nat
      with O by lia.
    reflexivity.
Qed.

Lemma older_slice_length : forall d sid,
  wf_db d ->
  len (older_slice d sid)
  = Z.max 0 (Z.min (count_messages d sid) 32 - 12).
Proof.
  intros d sid W. rewrite older_slice_shape by exact W.
  unfold len, count_messages, len.
  rewrite length_map, length_firstn, length_most_recent. lia.
Qed.

Lemma older_slice_nonempty : forall d sid,
  wf_db d -> trigger_holds d sid -> older_slice d sid <> [].
Proof.
  intros d sid W T E. pose proof (older_slice_length d sid W) as L.
  rewrite E in L. unfold trigger_holds, SUMMARY_TRIGGER_MESSAGES in T.
  unfold len in L. simpl in L. lia.
Qed.

(** X20.  The summarizer is shown, of the 32 most recent messages of the
    session, those before the last 12: min(total, 32) - 12 messages.  When
    the trigger holds these are between 9 and 20, never none; messages
    older than the 32 most recent are not shown at all. *)
Theorem older_slice_window : forall d sid,
  wf_db d ->
  let all := of_session sid (messages d) in
  older_slice d sid
  = map as_message
      (firstn (Nat.min (length all) 32 - 12) (most_recent 32 all))
  /\ len (older_slice d sid) = Z.max 0 (Z.min (count_messages d sid) 32 - 12)
  /\ (trigger_holds d sid ->
        older_slice d sid <> [] /\ 9 <= len (older_slice d sid) <= 20).
Proof.
  intros d sid W all.
  split; [now apply older_slice_shape|].
  split; [now apply older_slice_length|].
  intros T. split; [now apply older_slice_nonempty|].
  rewrite older_slice_length by exact W.
  unfold trigger_holds, SUMMARY_TRIGGER_MESSAGES in T. lia.
Qed.

Lemma reachable_long_session_db : reachable long_session_db.
Proof.
  unfold long_session_db.
  assert (G : forall l d, reachable d ->
            reachable
              (fold_left
                 (fun d i =>
                    match append_message d (lit "s") (lit "user")
                            (str_of_int (Z.of_nat i)) 20 with
                    | Some d' => d'
                    | None => d
                    end) l d)).
  { induction l as [|i l IH]; intros d R; [exact R|].
    simpl. apply IH. now apply reachable_try_append. }
  apply G, reach_touch, reach_init.
Qed.

Lemma older_slice_window_witness :
  older_slice long_session_db (lit "s") <> []
  /\ 9 <= len (older_slice long_session_db (lit "s")) <= 20.
Proof.
  assert (W : wf_db long_session_db)
    by (apply reachable_wf, reachable_long_session_db).
  assert (T : trigger_holds long_session_db (lit "s"))
    by (vm_compute; reflexivity).
  exact (proj2 (proj2 (older_slice_window long_session_db (lit "s") W)) T).
Defined.



End RollingSummary.


Lemma rolling_summary_idle_witness :
  fst (rolling_summary (fun s _ => s) sample_services (lit "s") [] []
         (boot sample_db))
  = ([], []).
Proof.
  rewrite (rolling_summary_idle str (fun s _ => s) sample_services
             (boot sample_db) (lit "s") [] []).
  - reflexivity.
  - vm_compute. discriminate.
Defined.

(* ------------------------------------------------------------------------- *)
(** ** The chat turn *)
(* ------------------------------------------------------------------------- *)

Section ChatTurn.

Variable vec : Type.
Variable SYSTEM_PROMPT_STRICT : str -> str -> str.
Variable SYSTEM_PROMPT_FALLBACK : str -> str.
Variable build_summary_prompt : str -> list Message -> str.

Lemma session_exists_upsert : forall rows sid inserted update s,
  s_session_id inserted = sid ->
  (forall r, s_session_id (update r) = s_session_id r) ->
  (s = sid \/ In s (map s_session_id rows)) ->
  In s (map s_session_id (upsert rows sid inserted update)).
Proof.
  intros rows sid inserted update s Hi Hu H.
  rewrite session_ids_upsert by assumption.
  destruct (existsb (fun r => str_eqb (s_session_id r) sid) rows) eqn:E.
  - destruct H as [-> | H]; [|exact H].
    apply existsb_exists in E. destruct E as [r [Hr E]].
    apply str_eqb_eq in E. rewrite <- E. now apply in_map.
  - apply in_or_app. destruct H as [-> | H]; [right; now left | now left].
Qed.

Lemma sound_same_db : forall sid (w w' : world vec),
  w_db w' = w_db w -> sound sid w -> sound sid w'.
Proof. intros sid w w' E [W S]. unfold sound. rewrite E. now split. Qed.

Lemma Keeps_ret : forall sid (A : Type) (a : A), Keeps sid (@ret vec A a).
Proof. intros sid A a w H. exact H. Qed.

Lemma Keeps_bind : forall sid (A B : Type) (m : M vec A) (k : A -> M vec B),
  Keeps sid m -> (forall a, Keeps sid (k a)) -> Keeps sid (bind m k).
Proof.
  intros sid A B m k Hm Hk w H. unfold bind.
  specialize (Hm w H). destruct (m w) as [a w1]. cbn [snd] in Hm.
  now apply Hk.
Qed.

Lemma Keeps_count_messages : forall sid (s : str),
  Keeps sid (@do_count_messages vec s).
Proof. intros sid s w H. run. now apply (sound_same_db sid w). Qed.

Lemma Keeps_get_last_messages : forall sid (s : str) limit,
  Keeps sid (@do_get_last_messages vec s limit).
Proof. intros sid s limit w H. run. now apply (sound_same_db sid w). Qed.

Lemma Keeps_get_summary : forall sid (s : str),
  Keeps sid (@do_get_summary vec s).
Proof. intros sid s w H. run. now apply (sound_same_db sid w). Qed.

Lemma Keeps_ollama : forall sid (env : services vec) msgs t,
  Keeps sid (do_ollama env msgs t).
Proof. intros sid env msgs t w H. run. now apply (sound_same_db sid w). Qed.

Lemma Keeps_set_summary : forall sid (env : services vec) s summary,
  Keeps sid (do_set_summary env s summary).
Proof.
  intros sid env s summary w [W S]. run. split; cbn [w_db].
  - now apply wf_set_summary.
  - apply session_exists_ids. apply session_exists_ids in S.
    unfold session_ids, set_summary. cbn [sessions].
    apply session_exists_upsert; [reflexivity | reflexivity | now right].
Qed.

Lemma Keeps_touch_session : forall sid (env : services vec) s,
  Keeps sid (do_touch_session env s).
Proof.
  intros sid env s w [W S]. run. split; cbn [w_db].
  - now apply wf_touch_session.
  - apply session_exists_ids. apply session_exists_ids in S.
    unfold session_ids, touch_session. cbn [sessions].
    apply session_exists_upsert; [reflexivity | reflexivity | now right].
Qed.

Lemma Keeps_delete_oldest_messages : forall sid (s : str) keep_last,
  Keeps sid (@do_delete_oldest_messages vec s keep_last).
Proof.
  intros sid s keep_last w [W S]. run. split; cbn [w_db].
  - now apply wf_delete_oldest_messages.
  - exact S.
Qed.

Lemma Keeps_rolling_summary : forall sid (env : services vec) s summary history,
  Keeps sid (rolling_summary build_summary_prompt env s summary history).
Proof.
  intros sid env s summary history. unfold rolling_summary.
  apply Keeps_bind; [apply Keeps_count_messages|]. intros n.
  destruct (n >? SUMMARY_TRIGGER_MESSAGES); [|apply Keeps_ret].
  apply Keeps_bind; [apply Keeps_get_last_messages|]. intros older.
  cbv zeta.
  destruct (truthy
              (if len older >? KEEP_LAST_MESSAGES
               then slice_to older (- KEEP_LAST_MESSAGES) else []));
    [|apply Keeps_ret].
  apply Keeps_bind; [apply Keeps_ollama|]. intros r. cbv zeta.
  match goal with
  | |- Keeps _ (if truthy ?x then _ else _) =>
      destruct (truthy x); [|apply Keeps_ret]
  end.
  apply Keeps_bind; [apply Keeps_set_summary|]. intros _.
  apply Keeps_bind; [apply Keeps_delete_oldest_messages|]. intros _.
  apply Keeps_bind; [apply Keeps_get_last_messages|]. intros h.
  apply Keeps_ret.
Qed.

Lemma retrieve_context_db : forall (env : services vec) user_text k w,
  w_db (snd (retrieve_context env user_text k w)) = w_db w.
Proof.
  intros env user_text k w.
  destruct (get_embedding env (lit "FFI " ++ user_text)) as [qe|] eqn:E.
  - now rewrite (retrieve_context_run vec env w user_text k qe E).
  - now rewrite (retrieve_context_no_embedding vec env w user_text k E).
Qed.

(** After the first insert of a turn the second cannot fail. *)
Lemma append_message_again : forall d sid role content now d' content' now',
  append_message d sid role content now = Some d' ->
  exists d'',
    append_message d' sid (lit "assistant") content' now' = Some d''.
Proof.
  intros d sid role content now d' content' now' H.
  apply append_message_inv in H. destruct H as [_ [S [_ [_ I]]]].
  assert (S' : session_exists d' sid = true).
  { apply session_exists_ids. rewrite I. now apply session_exists_ids. }
  unfold append_message. rewrite S'.
  change (role_ok (lit "assistant")) with true. cbn [andb]. now eexists.
Qed.

(** The two ways a turn ends: without a reply and without a trace in the
    database, or with both messages stored. *)
Lemma respond_shape : forall (env : services vec) user_text sid summary history w,
  let out :=
    respond SYSTEM_PROMPT_STRICT SYSTEM_PROMPT_FALLBACK env user_text sid
      summary history w in
  (w_db (snd out) = w_db w
   /\ (fst out = Unhandled \/ fst out = HTTPException 500))
  \/ (exists raw d1 t1 t2,
        fst out = Reply sid (strip raw)
        /\ append_message (w_db w) sid (lit "user") user_text t1 = Some d1
        /\ append_message d1 sid (lit "assistant") (strip raw) t2
           = Some (w_db (snd out))).
Proof.
  intros env user_text sid summary history w. cbv zeta.
  unfold respond. run.
  pose proof (retrieve_context_db env user_text 8 w) as D.
  destruct (retrieve_context env user_text 8 w) as [[context|] w1].
  2: { left. cbn [fst snd] in *. split; [exact D | now left]. }
  cbn [snd] in D. rewrite D.
  match goal with
  | |- context [ollama_chat env ?m ?t] =>
      destruct (ollama_chat env m t) as [[raw|]|]
  end.
  2, 3: left; cbn [fst snd w_db]; split; [reflexivity | now right].
  run.
  match goal with
  | |- context [append_message (w_db w) sid (lit "user") user_text ?t] =>
      destruct (append_message (w_db w) sid (lit "user") user_text t)
        as [d1|] eqn:A1
  end.
  2: { left. cbn [fst snd w_db]. split; [reflexivity | now right]. }
  run.
  match goal with
  | |- context [append_message d1 sid (lit "assistant") (strip raw) ?t] =>
      destruct (append_message_again _ _ _ _ _ _ (strip raw) t A1)
        as [d2 A2]; rewrite A2
  end.
  right. cbn [fst snd w_db]. now eauto 10.
Qed.

Lemma most_recent_two : forall (A : Type) (l : list A) x y,
  most_recent 2 (l ++ [x; y]) = [x; y].
Proof.
  intros A l x y. unfold most_recent. rewrite length_app. simpl.
  replace (length l + 2 - 2)%nat with (length l + 0)%nat by lia.
  rewrite skipn_app, skipn_all2 by lia.
  replace (length l + 0 - length l)%nat with O by lia. reflexivity.
Qed.

(** The state a stored turn leaves. *)
Lemma stored_turn : forall d sid user_text reply t1 t2 d1 d2,
  wf_db d ->
  append_message d sid (lit "user") user_text t1 = Some d1 ->
  append_message d1 sid (lit "assistant") reply t2 = Some d2 ->
  get_last_messages d2 sid 2
  = [Msg (lit "user") user_text; Msg (lit "assistant") reply]
  /\ count_messages d2 sid = count_messages d sid + 2
  /\ session_exists d2 sid = true
  /\ wf_db d2.
Proof.
  intros d sid user_text reply t1 t2 d1 d2 W A1 A2.
  pose proof (wf_append_message _ _ _ _ _ _ W A1) as W1.
  pose proof (wf_append_message _ _ _ _ _ _ W1 A2) as W2.
  apply append_message_inv in A1. destruct A1 as [_ [_ [M1 [_ _]]]].
  apply append_message_inv in A2. destruct A2 as [_ [S1 [M2 [_ I2]]]].
  assert (O : of_session sid (messages d2)
              = of_session sid (messages d)
                ++ [MessageRow (sqlite_sequence d + 1) sid (lit "user")
                      user_text t1;
                    MessageRow (sqlite_sequence d1 + 1) sid (lit "assistant")
                      reply t2]).
  { rewrite M2, M1. unfold of_session. rewrite !filter_app. cbn [filter].
    cbn [m_session_id]. rewrite str_eqb_refl. now rewrite <- app_assoc. }
  split; [|split; [|split]].
  - rewrite get_last_messages_nonneg by (assumption || lia).
    change (Z.to_nat 2) with 2%nat. rewrite O, most_recent_two. reflexivity.
  - unfold count_messages. rewrite O, len_app. reflexivity.
  - apply session_exists_ids. rewrite I2. now apply session_exists_ids.
  - exact W2.
Qed.

(** What [chat] does after the text check, as one call of [respond]. *)
Lemma chat_unfolds : forall (env : services vec) req w,
  resolve_user_text req <> [] ->
  exists summary history w',
    chat SYSTEM_PROMPT_STRICT SYSTEM_PROMPT_FALLBACK build_summary_prompt
      env req w
    = respond SYSTEM_PROMPT_STRICT SYSTEM_PROMPT_FALLBACK env
        (resolve_user_text req) (resolve_session_id env req) summary history
        w'
    /\ (wf_db (w_db w) -> sound (resolve_session_id env req) w').
Proof.
  intros env req w H. unfold chat. cbv zeta.
  apply truthy_true in H. rewrite H. cbn [negb].
  set (sid := resolve_session_id env req).
  unfold bind at 1.
  destruct (do_touch_session env sid w) as [u w1] eqn:E1.
  unfold bind at 1.
  destruct (do_get_summary sid w1) as [summary w2] eqn:E2.
  unfold bind at 1.
  destruct (do_get_last_messages sid KEEP_LAST_MESSAGES w2)
    as [history w3] eqn:E3.
  unfold bind at 1.
  destruct (rolling_summary build_summary_prompt env sid summary history w3)
    as [[summary' history'] w4] eqn:E4.
  exists summary', history', w4. split; [reflexivity|].
  intros W.
  assert (S1 : sound sid w1).
  { revert E1. unfold do_touch_session. run. intros E1.
    inversion E1; subst; clear E1. split; cbn [w_db].
    - now apply wf_touch_session.
    - apply session_exists_ids. unfold session_ids, touch_session.
      cbn [sessions].
      apply session_exists_upsert; [reflexivity | reflexivity | now left]. }
  assert (S2 : sound sid w2).
  { pose proof (Keeps_get_summary sid sid w1 S1) as K.
    now rewrite E2 in K. }
  assert (S3 : sound sid w3).
  { pose proof (Keeps_get_last_messages sid sid KEEP_LAST_MESSAGES w2 S2)
      as K.
    now rewrite E3 in K. }
  pose proof (Keeps_rolling_summary sid env sid summary history w3 S3) as K.
  now rewrite E4 in K.
Qed.

(** X22.  Whenever [chat] returns a reply, the reply is under the session
    id of the request, the user text and the reply are the two newest
    messages of that session, in this order, and the reply is stripped (it
    may be empty). *)
Theorem chat_reply_is_stored :
  forall (env : services vec) req w sid reply,
  wf_db (w_db w) ->
  let out :=
    chat SYSTEM_PROMPT_STRICT SYSTEM_PROMPT_FALLBACK build_summary_prompt
      env req w in
  fst out = Reply sid reply ->
  sid = resolve_session_id env req
  /\ get_last_messages (w_db (snd out)) sid 2
     = [Msg (lit "user") (resolve_user_text req);
        Msg (lit "assistant") reply]
  /\ (reply = [] \/ Trimmed reply)
  /\ session_exists (w_db (snd out)) sid = true
  /\ wf_db (w_db (snd out)).
Proof.
  intros env req w sid reply W out R.
  assert (N : resolve_user_text req <> []).
  { intros E. unfold out, chat in R. cbv zeta in R. rewrite E in R.
    discriminate R. }
  destruct (chat_unfolds env req w N) as [summary [history [w' [C S]]]].
  specialize (S W). unfold out in *. rewrite C in *. clear C.
  destruct (respond_shape env (resolve_user_text req)
              (resolve_session_id env req) summary history w')
    as [[_ [E|E]] | [raw [d1 [t1 [t2 [E [A1 A2]]]]]]];
    rewrite E in R; try discriminate R.
  inversion R; subst; clear R.
  destruct S as [W' _].
  destruct (stored_turn _ _ _ _ _ _ _ _ W' A1 A2) as [G [_ [X Y]]].
  split; [reflexivity|]. split; [exact G|]. split; [|now split].
  destruct (strip raw) eqn:Z; [now left|].
  right. rewrite <- Z. apply strip_is_trimmed. rewrite Z. discriminate.
Qed.


(** X24.  [chat] answers with status 400 exactly when the request has no
    text: [message] is missing or blank and [messages] is empty or ends in a
    blank message.  It then touches nothing: no session is created and no
    call is made. *)
Theorem chat_without_text :
  forall (env : services vec) req w,
  let out :=
    chat SYSTEM_PROMPT_STRICT SYSTEM_PROMPT_FALLBACK build_summary_prompt
      env req w in
  (fst out = HTTPException 400 <-> resolve_user_text req = [])
  /\ (resolve_user_text req = [] -> snd out = w)
  /\ (resolve_user_text req = [] <->
      blank (or_default (req_message req) [])
      /\ (req_messages req = [] \/ blank (last_content (req_messages req)))).
Proof.
  intros env req w out. split; [split|split].
  - intros R.
    destruct (resolve_user_text req) eqn:N; [reflexivity|]. exfalso.
    assert (N' : resolve_user_text req <> []) by (rewrite N; discriminate).
    destruct (chat_unfolds env req w N') as [summary [history [w' [C _]]]].
    unfold out in R. rewrite C in R.
    destruct (respond_shape env (resolve_user_text req)
                (resolve_session_id env req) summary history w')
      as [[_ [E|E]] | [raw [d1 [t1 [t2 [E _]]]]]];
      rewrite E in R; discriminate R.
  - intros E. unfold out, chat. cbv zeta. now rewrite E.
  - intros E. unfold out, chat. cbv zeta. now rewrite E.
  - unfold resolve_user_text. cbv zeta. rewrite !strip_blank.
    destruct (strip (or_default (req_message req) [])) eqn:U;
      cbn [truthy negb andb].
    + destruct (req_messages req) eqn:L; cbn [truthy].
      * split; [intros _; split; [reflexivity | now left] | reflexivity].
      * split.
        -- intros H. split; [reflexivity | now right].
        -- intros [_ [H|H]]; [discriminate H | exact H].
    + split; [discriminate | intros [H _]; discriminate H].
Qed.

End ChatTurn.

Lemma chat_reply_is_stored_witness :
  get_last_messages
    (w_db (snd (chat (fun c u => c ++ u) (fun u => u) (fun s _ => s)
                  answering_services sample_request (boot sample_db))))
    (lit "s") 2
  = [Msg (lit "user") (resolve_user_text sample_request);
     Msg (lit "assistant") (lit "ok")].
Proof.
  assert (W : wf_db (w_db (boot (vec := str) sample_db)))
    by (apply reachable_wf, reachable_sample_db).
  assert (R : fst (chat (fun c u => c ++ u) (fun u => u) (fun s _ => s)
                     answering_services sample_request (boot sample_db))
              = Reply (lit "s") (lit "ok"))
    by (vm_compute; reflexivity).
  exact (proj1 (proj2 (chat_reply_is_stored str (fun c u => c ++ u)
                         (fun u => u) (fun s _ => s) answering_services
                         sample_request (boot sample_db) (lit "s") (lit "ok")
                         W R))).
Defined.


Lemma chat_without_text_witness :
  snd (chat (fun c u => c ++ u) (fun u => u) (fun s _ => s)
         answering_services (Request [] (Some (lit "  ")) None)
         (boot sample_db))
  = boot sample_db.
Proof.
  assert (E : resolve_user_text (Request [] (Some (lit "  ")) None) = [])
    by reflexivity.
  exact (proj1 (proj2 (chat_without_text str (fun c u => c ++ u)
                         (fun u => u) (fun s _ => s) answering_services
                         (Request [] (Some (lit "  ")) None)
                         (boot sample_db))) E).
Defined.

(* ------------------------------------------------------------------------- *)
(** ** Retrieval: failures and the empty context *)
(* ------------------------------------------------------------------------- *)

Section RetrievalEdges.

Variable vec : Type.

(** X25.  [retrieve_context] raises only when its final similarity query
    raises.  A failing embedding service gives the empty context after that
    one call: no probe, no query, cache and database untouched, also when
    the text names the keyword.  Failures inside the presence probe never
    reach the caller. *)
Theorem retrieve_context_raises_with_query :
  forall (env : services vec) w user_text k,
  let out := retrieve_context env user_text k w in
  let applied :=
    if has_keyword user_text && presence env (SATZUNG_PRESENT w)
    then satzung_filter else None in
  (get_embedding env (lit "FFI " ++ user_text) = None ->
   out = (Some [],
          World (w_db w) (SATZUNG_PRESENT w)
            (trace w ++ [CallEmbedding (lit "FFI " ++ user_text)])))
  /\ (fst out = None <->
      exists qe,
        get_embedding env (lit "FFI " ++ user_text) = Some qe
        /\ collection_query env qe k applied = None).
Proof.
  intros env w user_text k out applied. split.
  - intros E. now apply retrieve_context_no_embedding.
  - unfold out.
    destruct (get_embedding env (lit "FFI " ++ user_text)) as [qe|] eqn:E.
    + rewrite (retrieve_context_run vec env w user_text k qe E).
      cbn [fst]. fold applied. split.
      * intros H. exists qe. split; [reflexivity|].
        now destruct (collection_query env qe k applied).
      * intros [qe' [Q H]]. inversion Q; subst. now rewrite H.
    + rewrite (retrieve_context_no_embedding vec env w user_text k E).
      cbn [fst]. split; [discriminate|]. intros [qe [Q _]]. discriminate Q.
Qed.

Lemma snippet_starts : forall doc meta,
  exists t, snippet doc meta = "["%char :: t.
Proof.
  intros doc meta. unfold snippet. cbv zeta.
  match goal with
  | |- context [if truthy ?x then _ else _] => destruct (truthy x)
  end; eexists; reflexivity.
Qed.

Lemma join_starts : forall sep c t rest,
  exists u, join sep ((c :: t) :: rest) = c :: u.
Proof. intros sep c t [|r rest]; eexists; reflexivity. Qed.

(** X26.  The context is empty exactly when the store returned no document
    or no metadata row; otherwise it begins with the bracket of the first
    header, so it is not blank and [chat] takes the strict prompt.  An entry
    without metadata is headed [unbekannt | unknown], and page 0 is shown
    like no page. *)
Theorem format_results_empty_iff : forall res,
  (format_results res = [] <-> documents res = [] \/ metadatas res = [])
  /\ (strip (format_results res) = [] <-> format_results res = [])
  /\ (forall doc,
        format_results (QueryResult [doc] [None])
        = lit "[unbekannt | unknown]" ++ nl ++ doc)
  /\ (forall doc source doc_type chunk,
        snippet doc (Some (Meta source doc_type (Some 0) chunk))
        = snippet doc (Some (Meta source doc_type None chunk))).
Proof.
  intros res.
  assert (S : ((documents res = [] \/ metadatas res = [])
               /\ format_results res = [])
              \/ (documents res <> [] /\ metadatas res <> []
                  /\ exists t, format_results res = "["%char :: t)).
  { unfold format_results. cbv zeta.
    destruct (documents res) as [|d ds]; [left; split; [now left | easy]|].
    cbn [truthy negb].
    destruct (metadatas res) as [|m ms]; [left; split; [now right | easy]|].
    right. split; [discriminate|]. split; [discriminate|].
    cbn [combine map].
    destruct (snippet_starts d m) as [t E]. rewrite E.
    apply join_starts. }
  split; [|split; [|split]].
  - destruct S as [[H E] | [D [M [t E]]]]; rewrite E.
    + split; [intros _; exact H | reflexivity].
    + split; [discriminate | intros [H|H]; contradiction].
  - rewrite <- strip_blank. destruct S as [[_ E] | [_ [_ [t E]]]]; rewrite E.
    + split; reflexivity.
    + split; [intros B; discriminate B | discriminate].
  - reflexivity.
  - reflexivity.
Qed.

End RetrievalEdges.

Lemma retrieve_context_raises_with_query_witness :
  retrieve_context
    (Services (fun _ => 0) (lit "uuid") (fun _ => None) []
       (fun _ _ _ => None) (fun _ _ => None))
    (lit "Satzung?") 8 (boot (vec := str) sample_db)
  = (Some [],
     World sample_db None [CallEmbedding (lit "FFI Satzung?")]).
Proof.
  exact (proj1 (retrieve_context_raises_with_query str
                  (Services (fun _ => 0) (lit "uuid") (fun _ => None) []
                     (fun _ _ _ => None) (fun _ _ => None))
                  (boot sample_db) (lit "Satzung?") 8) eq_refl).
Defined.

(* ------------------------------------------------------------------------- *)
(** ** Hash inputs within one file *)
(* ------------------------------------------------------------------------- *)

Section HashInputs.

Import SHA256.

Lemma utf8_first_char : forall c rest,
  utf8_first (utf8_char c ++ rest) = Some (c, rest).
Proof.
  intros c rest.
  destruct c as [[] [] [] [] [] [] [] []]; reflexivity.
Qed.

Lemma encode_utf8_inj : forall s t, encode_utf8 s = encode_utf8 t -> s = t.
Proof.
  unfold encode_utf8.
  induction s as [|c s IH]; intros [|d t] H; cbn [flat_map] in H.
  - reflexivity.
  - apply (f_equal utf8_first) in H. rewrite utf8_first_char in H.
    discriminate H.
  - apply (f_equal utf8_first) in H. rewrite utf8_first_char in H.
    discriminate H.
  - pose proof (f_equal utf8_first H) as F.
    rewrite !utf8_first_char in F. inversion F; subst.
    f_equal. apply IH. now apply app_inv_head in H.
Qed.

Lemma digits_no_bar : forall d,
  Forall (fun c => c <> "|"%char)
    (list_ascii_of_string (NilEmpty.string_of_uint d)).
Proof.
  induction d; cbn [NilEmpty.string_of_uint list_ascii_of_string];
    constructor; (discriminate || assumption).
Qed.

Lemma str_of_int_no_bar : forall n,
  Forall (fun c => c <> "|"%char) (str_of_int n).
Proof.
  intros n. unfold str_of_int.
  assert (U : forall d,
            Forall (fun c => c <> "|"%char)
              (list_ascii_of_string (NilZero.string_of_uint d))).
  { intros d. destruct d; try apply digits_no_bar.
    repeat constructor; discriminate. }
  destruct (Z.to_int n) as [d|d]; cbn [NilZero.string_of_int].
  - apply U.
  - cbn [list_ascii_of_string]. constructor; [discriminate | apply U].
Qed.

Lemma str_of_int_inj : forall a b, str_of_int a = str_of_int b -> a = b.
Proof.
  intros a b H. unfold str_of_int in H.
  apply (f_equal string_of_list_ascii) in H.
  rewrite !string_of_list_ascii_of_string in H.
  apply (f_equal NilZero.int_of_string) in H.
  assert (N : forall z, Z.to_int z <> Decimal.Pos Decimal.Nil
                        /\ Z.to_int z <> Decimal.Neg Decimal.Nil).
  { intros [|p|p]; cbn [Z.to_int]; split; try discriminate;
      intros E; inversion E as [E'];
      now apply DecimalPos.Unsigned.to_uint_nonnil in E'. }
  rewrite !NilZero.isi in H by apply N.
  inversion H as [E]. now apply DecimalZ.to_int_inj.
Qed.

(** A field without the separator ends at the first separator. *)
Lemma field_ends : forall (a b r r' : str),
  Forall (fun c => c <> "|"%char) a ->
  Forall (fun c => c <> "|"%char) b ->
  a ++ "|"%char :: r = b ++ "|"%char :: r' -> a = b /\ r = r'.
Proof.
  induction a as [|x a IH]; intros [|y b] r r' Fa Fb H; cbn [app] in H.
  - inversion H. now split.
  - inversion H; subst. inversion Fb; subst. congruence.
  - inversion H; subst. inversion Fa; subst. congruence.
  - inversion H; subst. inversion Fa; subst. inversion Fb; subst.
    destruct (IH b r r') as [-> ->]; auto.
Qed.

Lemma stable_key_same_source : forall source p i t p' i' t',
  stable_key source p i t = stable_key source p' i' t' ->
  or_zero p = or_zero p' /\ i = i' /\ t = t'.
Proof.
  intros source p i t p' i' t' H. unfold stable_key in H.
  apply app_inv_head in H.
  change (lit "|") with ["|"%char] in H. cbn [app] in H.
  inversion H as [H1]. clear H.
  apply field_ends in H1; try apply str_of_int_no_bar.
  destruct H1 as [P H2].
  apply field_ends in H2; try apply str_of_int_no_bar.
  destruct H2 as [I T].
  apply str_of_int_inj in P. apply str_of_int_inj in I. now split.
Qed.

Lemma utf8_ignore_agrees : forall c,
  utf8_ignore_char (code c) = map byte_value (utf8_char c).
Proof.
  intros c. destruct c as [[] [] [] [] [] [] [] []]; reflexivity.
Qed.

Lemma encode_ignore_points : forall s,
  encode_ignore (points s) = map byte_value (encode_utf8 s).
Proof.
  unfold encode_ignore, points, encode_utf8.
  induction s as [|c s IH]; [reflexivity|].
  cbn [map flat_map]. now rewrite map_app, utf8_ignore_agrees, IH.
Qed.

Lemma encode_ignore_app : forall a b,
  encode_ignore (a ++ b) = encode_ignore a ++ encode_ignore b.
Proof. intros a b. apply flat_map_app. Qed.

Lemma encode_ignore_ascii : forall l,
  Forall (fun cp => cp < 128 /\ cp <> 124) l -> encode_ignore l = l.
Proof.
  induction 1 as [|cp l [H _] _ IH]; [reflexivity|].
  unfold encode_ignore in *. cbn [flat_map]. rewrite IH.
  unfold utf8_ignore_char. apply Z.ltb_lt in H. now rewrite H.
Qed.

Lemma digits_plain : forall d,
  Forall (fun cp => cp < 128 /\ cp <> 124)
    (points (list_ascii_of_string (NilEmpty.string_of_uint d))).
Proof.
  induction d;
    cbn [NilEmpty.string_of_uint list_ascii_of_string points map];
    [constructor | ..];
    (constructor; [split; [reflexivity | now vm_compute] | assumption]).
Qed.

Lemma str_of_int_plain : forall n,
  Forall (fun cp => cp < 128 /\ cp <> 124) (points (str_of_int n)).
Proof.
  intros n. unfold str_of_int.
  assert (U : forall d,
            Forall (fun cp => cp < 128 /\ cp <> 124)
              (points (list_ascii_of_string (NilZero.string_of_uint d)))).
  { intros d. destruct d; try apply digits_plain.
    repeat constructor. now vm_compute. }
  destruct (Z.to_int n) as [d|d]; cbn [NilZero.string_of_int].
  - apply U.
  - cbn [list_ascii_of_string points map].
    constructor; [split; [reflexivity | now vm_compute] | apply U].
Qed.

Lemma code_inj : forall c d, code c = code d -> c = d.
Proof.
  intros c d H. unfold code in H. apply N2Z.inj in H.
  apply (f_equal ascii_of_N) in H. now rewrite !ascii_N_embedding in H.
Qed.

Lemma points_inj : forall s t, points s = points t -> s = t.
Proof.
  unfold points. induction s as [|c s IH]; intros [|d t] H;
    try discriminate H; [reflexivity|].
  cbn [map] in H. inversion H as [[E R]].
  f_equal; [now apply code_inj | now apply IH].
Qed.

Lemma field_ends_at : forall (A : Type) (sep : A) (a b r r' : list A),
  Forall (fun c => c <> sep) a ->
  Forall (fun c => c <> sep) b ->
  a ++ sep :: r = b ++ sep :: r' -> a = b /\ r = r'.
Proof.
  intros A sep.
  induction a as [|x a IH]; intros [|y b] r r' Fa Fb H; cbn [app] in H.
  - inversion H. now split.
  - inversion H; subst. inversion Fb; subst. congruence.
  - inversion H; subst. inversion Fa; subst. congruence.
  - inversion H; subst. inversion Fa; subst. inversion Fb; subst.
    destruct (IH b r r') as [-> ->]; auto.
Qed.

Lemma utf8_point_char : forall cp rest,
  code_point cp -> surrogate cp = false ->
  utf8_point (utf8_ignore_char cp ++ rest) = Some (cp, rest).
Proof.
  intros cp rest [L U] S. unfold utf8_ignore_char. rewrite S.
  destruct (Z.ltb_spec cp 128) as [A|A].
  { cbn [app utf8_point]. apply Z.ltb_lt in A. now rewrite A. }
  destruct (Z.ltb_spec cp 2048) as [B|B].
  { cbn [app utf8_point].
    assert (E1 : (192 + cp / 64 <? 128) = false)
      by (apply Z.ltb_ge; Z.div_mod_to_equations; lia).
    assert (E2 : (192 + cp / 64 <? 224) = true)
      by (apply Z.ltb_lt; Z.div_mod_to_equations; lia).
    rewrite E1, E2. do 2 f_equal. Z.div_mod_to_equations. lia. }
  destruct (Z.ltb_spec cp 65536) as [C|C].
  { cbn [app utf8_point].
    assert (E1 : (224 + cp / 4096 <? 128) = false)
      by (apply Z.ltb_ge; Z.div_mod_to_equations; lia).
    assert (E2 : (224 + cp / 4096 <? 224) = false)
      by (apply Z.ltb_ge; Z.div_mod_to_equations; lia).
    assert (E3 : (224 + cp / 4096 <? 240) = true)
      by (apply Z.ltb_lt; Z.div_mod_to_equations; lia).
    rewrite E1, E2, E3. do 2 f_equal. Z.div_mod_to_equations. lia. }
  cbn [app utf8_point].
  assert (E1 : (240 + cp / 262144 <? 128) = false)
    by (apply Z.ltb_ge; Z.div_mod_to_equations; lia).
  assert (E2 : (240 + cp / 262144 <? 224) = false)
    by (apply Z.ltb_ge; Z.div_mod_to_equations; lia).
  assert (E3 : (240 + cp / 262144 <? 240) = false)
    by (apply Z.ltb_ge; Z.div_mod_to_equations; lia).
  rewrite E1, E2, E3. do 2 f_equal. Z.div_mod_to_equations. lia.
Qed.

Lemma surrogate_dropped : forall cp,
  surrogate cp = true -> utf8_ignore_char cp = [].
Proof.
  intros cp S. unfold utf8_ignore_char. rewrite S.
  unfold surrogate in S. apply andb_true_iff in S. destruct S as [S _].
  apply Z.leb_le in S.
  assert (E1 : (cp <? 128) = false) by (apply Z.ltb_ge; lia).
  assert (E2 : (cp <? 2048) = false) by (apply Z.ltb_ge; lia).
  now rewrite E1, E2.
Qed.

Lemma encode_ignore_drop : forall s,
  encode_ignore (without_surrogates s) = encode_ignore s.
Proof.
  unfold encode_ignore, without_surrogates.
  induction s as [|cp s IH]; [reflexivity|]. cbn [filter flat_map].
  destruct (surrogate cp) eqn:S; cbn [negb flat_map].
  - now rewrite surrogate_dropped by exact S.
  - now rewrite IH.
Qed.

Lemma encode_ignore_inj : forall s t,
  Forall (fun cp => code_point cp /\ surrogate cp = false) s ->
  Forall (fun cp => code_point cp /\ surrogate cp = false) t ->
  encode_ignore s = encode_ignore t -> s = t.
Proof.
  unfold encode_ignore.
  induction s as [|c s IH]; intros [|d t] Fs Ft H; cbn [flat_map] in H.
  - reflexivity.
  - inversion Ft as [|? ? [V S] _]; subst.
    apply (f_equal utf8_point) in H.
    rewrite utf8_point_char in H by assumption. discriminate H.
  - inversion Fs as [|? ? [V S] _]; subst.
    apply (f_equal utf8_point) in H.
    rewrite utf8_point_char in H by assumption. discriminate H.
  - inversion Fs as [|? ? [V S] Fs']; subst.
    inversion Ft as [|? ? [V' S'] Ft']; subst.
    pose proof (f_equal utf8_point H) as F.
    rewrite !utf8_point_char in F by assumption.
    inversion F; subst. f_equal. now apply IH.
Qed.

Lemma without_surrogates_plain : forall s,
  Forall code_point s ->
  Forall (fun cp => code_point cp /\ surrogate cp = false)
    (without_surrogates s).
Proof.
  intros s F. unfold without_surrogates. apply Forall_forall.
  intros cp H. apply filter_In in H. destruct H as [H S].
  rewrite Forall_forall in F. split; [now apply F|].
  now destruct (surrogate cp).
Qed.

(** Two strings have the same bytes exactly when they agree apart from
    surrogates. *)
Lemma encode_ignore_same : forall s t,
  Forall code_point s -> Forall code_point t ->
  (encode_ignore s = encode_ignore t
   <-> without_surrogates s = without_surrogates t).
Proof.
  intros s t Fs Ft. split.
  - intros H. rewrite <- (encode_ignore_drop s) in H.
    rewrite <- (encode_ignore_drop t) in H.
    apply encode_ignore_inj in H; [exact H | |];
      now apply without_surrogates_plain.
  - intros H. rewrite <- (encode_ignore_drop s), <- (encode_ignore_drop t).
    now rewrite H.
Qed.

Lemma encode_ignore_key : forall source p i t,
  encode_ignore (stable_key_points source p i t)
  = encode_ignore source
    ++ 124 :: points (str_of_int (or_zero p))
    ++ 124 :: points (str_of_int i)
    ++ 124 :: encode_ignore t.
Proof.
  intros source p i t. unfold stable_key_points.
  rewrite !encode_ignore_app.
  rewrite !(encode_ignore_ascii (points (str_of_int _)))
    by apply str_of_int_plain.
  reflexivity.
Qed.

(** X27.  [encode("utf-8", errors="ignore")] drops surrogate code points
    and loses nothing else: two strings get the same bytes exactly when
    they agree apart from surrogates, and on the code points 0..255 the
    encoder is the embedded one.  Hence for one source the bytes hashed by
    [stable_id] always determine page (0 for none) and chunk index, and
    determine the text up to surrogates: two chunks of the same file are
    hashed alike exactly when page, index and the texts without their
    surrogates agree. *)
Theorem hash_input_within_source :
  (forall s, encode_ignore (points s) = map byte_value (encode_utf8 s))
  /\ (forall source p i t,
        stable_key_points (points source) p i (points t)
        = points (stable_key source p i t))
  /\ (forall s t,
        Forall code_point s -> Forall code_point t ->
        (encode_ignore s = encode_ignore t
         <-> without_surrogates s = without_surrogates t))
  /\ (forall source p i t p' i' t',
        Forall code_point t -> Forall code_point t' ->
        (encode_ignore (stable_key_points source p i t)
         = encode_ignore (stable_key_points source p' i' t')
         <-> or_zero p = or_zero p' /\ i = i'
             /\ without_surrogates t = without_surrogates t')).
Proof.
  split; [exact encode_ignore_points|]. split; [|split].
  - intros source p i t. unfold stable_key_points, stable_key, points.
    now rewrite !map_app.
  - exact encode_ignore_same.
  - intros source p i t p' i' t' Ft Ft'. rewrite !encode_ignore_key. split.
    + intros H. apply app_inv_head in H. inversion H as [H1]. clear H.
      apply field_ends_at in H1;
        try (eapply Forall_impl; [|apply str_of_int_plain];
             now intros cp [_ N]).
      destruct H1 as [P H2].
      apply field_ends_at in H2;
        try (eapply Forall_impl; [|apply str_of_int_plain];
             now intros cp [_ N]).
      destruct H2 as [I T].
      apply points_inj, str_of_int_inj in P.
      apply points_inj, str_of_int_inj in I.
      split; [exact P|]. split; [exact I|].
      now apply encode_ignore_same.
    + intros [P [-> T]]. rewrite P.
      apply (encode_ignore_same t t' Ft Ft') in T. now rewrite T.
Qed.

Lemma map_fst_enumerate : forall (A : Type) (l : list A),
  map fst (enumerate l) = seq 0 (length l).
Proof.
  intros A l. unfold enumerate. generalize 0%nat.
  induction l as [|x l IH]; intros n; simpl; [reflexivity|].
  now rewrite IH.
Qed.

Lemma or_zero_some : forall p, or_zero (Some p) = p.
Proof.
  intros p. unfold or_zero. destruct (p =? 0) eqn:E; [|reflexivity].
  apply Z.eqb_eq in E. now subst.
Qed.

Lemma places_numbered_chunks : forall page text,
  map place (numbered_chunks page text)
  = map (fun i => (or_zero page, Z.of_nat i))
      (seq 0 (length (chunk_text text MAX_CHARS OVERLAP))).
Proof.
  intros page text. unfold numbered_chunks.
  rewrite <- map_fst_enumerate, !map_map. apply map_ext.
  now intros [i ch].
Qed.

Lemma nodup_numbered_chunks : forall page text,
  NoDup (map place (numbered_chunks page text)).
Proof.
  intros page text. rewrite places_numbered_chunks.
  apply NoDup_map_NoDup_ForallPairs; [|apply seq_NoDup].
  intros x y _ _ E. inversion E. lia.
Qed.

Lemma nodup_pages : forall pages : list (Z * str),
  StronglySorted Z.lt (map fst pages) ->
  NoDup (map place
           (flat_map
              (fun '(page_no, page_text) =>
                 numbered_chunks (Some page_no) page_text)
              pages)).
Proof.
  induction pages as [|[no text] rest IH]; intros S; [constructor|].
  cbn [map fst] in S. apply StronglySorted_inv in S. destruct S as [S F].
  cbn [flat_map]. rewrite map_app. apply NoDup_app.
  - apply nodup_numbered_chunks.
  - now apply IH.
  - intros pl H1 H2. rewrite places_numbered_chunks in H1.
    apply in_map_iff in H1. destruct H1 as [i [<- _]].
    apply in_map_iff in H2. destruct H2 as [item [E H2]].
    apply in_flat_map in H2. destruct H2 as [[no' text'] [Hp Hi]].
    assert (P : In (place item)
                  (map place (numbered_chunks (Some no') text')))
      by now apply in_map.
    rewrite places_numbered_chunks in P.
    apply in_map_iff in P. destruct P as [j [Ej _]].
    rewrite <- Ej in E. rewrite !or_zero_some in E.
    injection E as E1 E2.
    rewrite Forall_forall in F.
    assert (L : no < no') by (apply F; now apply (in_map fst) in Hp).
    lia.
Qed.

Lemma nodup_coarser : forall (A B C : Type) (f : A -> B) (g : A -> C) l,
  (forall x y, f x = f y -> g x = g y) ->
  NoDup (map g l) -> NoDup (map f l).
Proof.
  intros A B C f g l H. induction l as [|x l IH]; intros N; simpl;
    [constructor|].
  simpl in N. inversion N as [|? ? Hx Hl]; subst.
  constructor; [|now apply IH].
  intros Hin. apply Hx. apply in_map_iff in Hin.
  destruct Hin as [y [E Hy]]. apply in_map_iff. exists y.
  split; [now apply H | exact Hy].
Qed.

(** X28.  The chunks [index_documents] makes of one file have pairwise
    distinct places (page, index): plain files count their chunks from 0,
    PDFs count from 0 on every page and the pages differ.  Hence the bytes
    hashed for them are pairwise distinct, and a batch never holds two ids
    made from the same input. *)
Theorem file_chunks_distinct_places :
  forall (vec : Type) (env : disk vec) filename,
  match file_chunks env filename with
  | inr items =>
      NoDup (map place items) /\ NoDup (map (hashed_bytes filename) items)
  | inl _ => True
  end.
Proof.
  intros vec env filename.
  destruct (file_chunks env filename) as [|items] eqn:H; [exact I|].
  assert (P : NoDup (map place items)).
  { unfold file_chunks in H.
    destruct (endswith (lower filename) (lit ".pdf")).
    - destruct (pdf_page_texts env (full_path env filename)) as [pt|];
        [|discriminate].
      destruct (negb (truthy (extract_pdf_pages pt))); [discriminate|].
      inversion H; subst; clear H.
      apply nodup_pages. apply pdf_pages_sorted.
    - destruct (extract_plain_text_file env (full_path env filename))
        as [s| |]; try discriminate.
      destruct (negb (truthy (strip s))); [discriminate|].
      inversion H; subst; clear H. apply nodup_numbered_chunks. }
  split; [exact P|].
  apply (nodup_coarser _ _ _ (hashed_bytes filename) place); [|exact P].
  intros [[p i] t] [[p' i'] t'] E. unfold hashed_bytes in E.
  apply encode_utf8_inj, stable_key_same_source in E.
  destruct E as [E1 [E2 _]]. unfold place. now rewrite E1, E2.
Qed.

End HashInputs.

(** A text and the same text with a lone surrogate at its end. *)
Lemma hash_input_within_source_witness :
  encode_ignore
    (stable_key_points (points (lit "a.txt")) None 0 [97; 56448])
  = encode_ignore (stable_key_points (points (lit "a.txt")) None 0 [97]).
Proof.
  assert (F : Forall code_point [97; 56448])
    by (repeat constructor; unfold code_point; lia).
  assert (G : Forall code_point [97])
    by (repeat constructor; unfold code_point; lia).
  apply (proj2 (proj2 (proj2 (proj2 hash_input_within_source))
                  (points (lit "a.txt")) None 0 [97; 56448] None 0 [97]
                  F G)).
  repeat split.
Defined.

Lemma index_documents_batches_witness :
  chunk_of_file sample_disk (lit "notes.md")
    (None, 0, lit "eins" ++ nl ++ lit "zwei").
Proof.
  assert (H : file_chunks sample_disk (lit "notes.md")
              = inr [(None, 0, lit "eins" ++ nl ++ lit "zwei")])
    by (vm_compute; reflexivity).
  exact (proj1 (proj2 (index_documents_batches nat sample_disk)
                  (lit "notes.md") _ H _) (or_introl eq_refl)).
Defined.
